(** * ez-random: a shallow embedding of [src/index.ts]

    The library wraps two platform sources: [Math.random], which yields
    reals of [[0,1)], and a secure byte source.  Both are modelled as an
    explicit, finite trace of the values the platform hands out, consumed
    from the left; a call that needs more values than the trace holds is
    [Starved].

    Numbers.  JavaScript numbers are IEEE binary64 doubles.  A [number]
    is a finite double, given as the rational it is, an infinity or NaN,
    and an arithmetic operation of the source is the exact operation
    followed by [round], the rounding to the nearest double with ties to
    even, and by the overflow to an infinity ([js_add], [js_mul], ...).

    - Module [Double] holds the numeric methods on numbers: [randint],
      [randrange], [uniform], [choice], [choices] and [secure.randint],
      with the guards [Number.isInteger] and [Number.isFinite] and every
      operation rounded.
    - Modules [Random] and [SecureRandom] hold what does not depend on a
      rounded value: the guards of [randint] and [secure.randint] on
      integer arguments, the array methods [shuffle] and [sample], the
      binary search of [choices], the cache of [gauss], the composition
      of bytes and the rejection loop.  They compute on integers [Z] and
      rationals [Q]; an index there is [floor_scaled], the floor of the
      exact product, which ranges over [[0, n)] as the floor of the
      rounded product does.
    - Module [Binary64] repeats the numeric lines over Rocq's primitive
      floats, the binary64 of the processor, and is run against [Double]
      where rounding matters.

    A theorem on [Double] names its arguments as what they are: doubles
    ([binary64]), draws that are doubles of [[0,1)] ([double_draw]), and,
    where the claim is one of integer arithmetic, integers within the
    safe integers [-(2^53 - 1) .. 2^53 - 1]. *)

From Stdlib Require Import ZArith QArith Qround Qpower Qabs Lia Lqa String.
From Stdlib.Strings Require Byte.
From stdpp Require Import base option list gmap.
From Equations Require Import Equations.
From Stdlib Require PrimFloat SpecFloat FloatOps.

Local Open Scope Z_scope.

(** ** Errors and outcomes *)

Inductive error : Type :=
| TypeError (msg : string)
| RangeError (msg : string).

(** The result of running a method against a trace of type [S]. *)
Inductive outcome (S A : Type) : Type :=
| Returned (a : A) (rest : S)   (* normal return, with the unread trace *)
| Thrown (e : error)            (* [throw new ...] *)
| Starved                       (* the trace ended before the call did *)
| OffArray.                     (* an index outside the array was used *)

Arguments Returned {S A} a rest.
Arguments Thrown {S A} e.
Arguments Starved {S A}.
Arguments OffArray {S A}.

Definition M (S A : Type) : Type := S → outcome S A.

Definition throw {S A} (e : error) : M S A := λ _, Thrown e.

Definition off_array {S A} : M S A := λ _, OffArray.

#[export] Instance M_ret {S} : MRet (M S) := λ A a s, Returned a s.

#[export] Instance M_bind {S} : MBind (M S) := λ A B k c s,
  match c s with
  | Returned a rest => k a rest
  | Thrown e => Thrown e
  | Starved => Starved
  | OffArray => OffArray
  end.

(** [Math.random()]: the next value of the trace. *)
Definition Rand (A : Type) : Type := M (list Q) A.

Definition Math_random : Rand Q := λ draws,
  match draws with
  | [] => Starved
  | u :: rest => Returned u rest
  end.

(** The contract of [Math.random]: a real of [[0,1)]. *)
Definition unit_draw (u : Q) : Prop := (0 <= u)%Q ∧ (u < 1)%Q.

Definition MAX_SAFE_INTEGER : Z := 9007199254740991.

(** [Number.MAX_VALUE], the largest finite double. *)
Definition MAX_VALUE : Q := inject_Z (2 ^ 1024 - 2 ^ 971).

(** ** Numbers

    A JavaScript number is a finite double, an infinity or NaN. *)
Inductive number : Type :=
| Finite (q : Q)
| PosInfinity
| NegInfinity
| NaN.

Definition Number_isFinite (x : number) : bool :=
  match x with
  | Finite _ => true
  | _ => false
  end.

Definition Number_isInteger (x : number) : bool :=
  match x with
  | Finite q => Qeq_bool q (inject_Z (Qfloor q))
  | _ => false
  end.

(** [x < 0]; a comparison with NaN is false. *)
Definition number_negative (x : number) : bool :=
  match x with
  | Finite q => negb (Qle_bool 0 q)
  | NegInfinity => true
  | PosInfinity | NaN => false
  end.

(** The value of a finite number, and of an integer one. *)
Definition number_value (x : number) : Q :=
  match x with
  | Finite q => q
  | _ => 0%Q
  end.

Definition number_integer (x : number) : Z := Qfloor (number_value x).

(** ** Rounding to binary64

    [round x] is the double nearest to the rational [x], ties to the
    even significand: [x] is scaled by its unit in the last place,
    [2^(e - 52)] for [2^e <= |x| < 2^(e + 1)] and never less than
    [2^-1074], rounded to an integer and scaled back.  The exponent is
    not bounded above here; [fl] below turns what exceeds [MAX_VALUE]
    into an infinity. *)
Definition pow2 (e : Z) : Q := (2 ^ e)%Q.

Definition ilog2 (x : Q) : Z :=
  let e := Z.log2 (Qnum x) - Z.log2 (Z.pos (Qden x)) in
  if Qle_bool (pow2 e) x then e else e - 1.

Definition rne (x : Q) : Z :=
  let f := Qfloor x in
  match (x - inject_Z f ?= 1 # 2)%Q with
  | Lt => f
  | Gt => f + 1
  | Eq => if Z.even f then f else f + 1
  end.

Definition ulp_exponent (x : Q) : Z := Z.max (ilog2 (Qabs x) - 52) (-1074).

Definition round (x : Q) : Q :=
  if Qeq_bool x 0 then 0%Q
  else Qred (inject_Z (rne (x / pow2 (ulp_exponent x))) * pow2 (ulp_exponent x)).

(** A double, of any magnitude. *)
Definition is_double (x : Q) : Prop := round x == x.

(** ** Arithmetic on numbers

    Every operation computes the exact result and rounds it with
    [round]; a rounded magnitude above [MAX_VALUE] is an infinity.  The
    two zeros of binary64 are one [Finite 0]: they compare equal, and the
    source never divides by a zero (it checks [step], [sum] and [range]
    first) nor otherwise tells them apart. *)

Definition fl (x : Q) : number :=
  let r := round x in
  if Qle_bool (Qabs r) MAX_VALUE then Finite r
  else if Qle_bool 0 r then PosInfinity else NegInfinity.

Definition js_neg (a : number) : number :=
  match a with
  | Finite x => Finite (- x)
  | PosInfinity => NegInfinity
  | NegInfinity => PosInfinity
  | NaN => NaN
  end.

Definition js_add (a b : number) : number :=
  match a, b with
  | NaN, _ | _, NaN => NaN
  | Finite x, Finite y => fl (x + y)
  | PosInfinity, NegInfinity | NegInfinity, PosInfinity => NaN
  | PosInfinity, _ | _, PosInfinity => PosInfinity
  | NegInfinity, _ | _, NegInfinity => NegInfinity
  end.

Definition js_sub (a b : number) : number := js_add a (js_neg b).

(** An infinity of the given sign times, or over, a finite [x]. *)
Definition signed_infinity (positive : bool) (x : Q) : number :=
  match (0 ?= x)%Q with
  | Eq => NaN
  | Lt => if positive then PosInfinity else NegInfinity
  | Gt => if positive then NegInfinity else PosInfinity
  end.

Definition js_mul (a b : number) : number :=
  match a, b with
  | NaN, _ | _, NaN => NaN
  | Finite x, Finite y => fl (x * y)
  | Finite x, PosInfinity | PosInfinity, Finite x => signed_infinity true x
  | Finite x, NegInfinity | NegInfinity, Finite x => signed_infinity false x
  | PosInfinity, PosInfinity | NegInfinity, NegInfinity => PosInfinity
  | PosInfinity, NegInfinity | NegInfinity, PosInfinity => NegInfinity
  end.

Definition js_div (a b : number) : number :=
  match a, b with
  | NaN, _ | _, NaN => NaN
  | Finite x, Finite y =>
      if Qeq_bool y 0 then signed_infinity true x else fl (x / y)
  | Finite _, (PosInfinity | NegInfinity) => Finite 0
  | PosInfinity, Finite y =>
      if Qle_bool 0 y then PosInfinity else NegInfinity
  | NegInfinity, Finite y =>
      if Qle_bool 0 y then NegInfinity else PosInfinity
  | _, _ => NaN
  end.

(** [a % b]: the remainder of the division truncated towards zero, which
    is exact. *)
Definition Qtruncate (x : Q) : Z :=
  if Qle_bool 0 x then Qfloor x else Qceiling x.

Definition js_rem (a b : number) : number :=
  match a, b with
  | Finite x, Finite y =>
      if Qeq_bool y 0 then NaN
      else Finite (Qred (x - inject_Z (Qtruncate (x / y)) * y))
  | Finite x, (PosInfinity | NegInfinity) => Finite x
  | _, _ => NaN
  end.

Definition Math_floor (a : number) : number :=
  match a with
  | Finite x => Finite (inject_Z (Qfloor x))
  | _ => a
  end.

(** Comparisons; every comparison with NaN is false. *)
Definition js_compare (a b : number) : option comparison :=
  match a, b with
  | NaN, _ | _, NaN => None
  | Finite x, Finite y => Some (x ?= y)%Q
  | PosInfinity, PosInfinity | NegInfinity, NegInfinity => Some Eq
  | PosInfinity, _ | _, NegInfinity => Some Gt
  | NegInfinity, _ | _, PosInfinity => Some Lt
  end.

Definition js_lt (a b : number) : bool :=
  match js_compare a b with Some Lt => true | _ => false end.

Definition js_le (a b : number) : bool :=
  match js_compare a b with Some Lt | Some Eq => true | _ => false end.

Definition js_gt (a b : number) : bool :=
  match js_compare a b with Some Gt => true | _ => false end.

Definition js_ge (a b : number) : bool :=
  match js_compare a b with Some Gt | Some Eq => true | _ => false end.

Definition js_eq (a b : number) : bool :=
  match js_compare a b with Some Eq => true | _ => false end.

(** An integer literal, and the integer a number holds. *)
Definition of_Z (z : Z) : number := Finite (inject_Z z).

(** A finite double. *)
Definition binary64 (x : Q) : Prop := is_double x ∧ (Qabs x <= MAX_VALUE)%Q.

(** ** Exact arithmetic

    [Math.floor(Math.random() * n)] for an integer [n], with the product
    not rounded. *)
Definition floor_scaled (u : Q) (n : Z) : Z := Qfloor (u * inject_Z n).

(** ** class Random, on integers and rationals *)

Module Random.

Definition randint (min max : Z) : Rand Z :=
  if min >? max then
    throw (RangeError "min must be less than or equal to max")
  else
    let range := max - min + 1 in
    if range >? MAX_SAFE_INTEGER then
      throw (RangeError "Range exceeds maximum safe integer range")
    else
      u ← Math_random;
      mret (floor_scaled u range + min).

(** The count of steps, line 71 of the source. *)
Definition randrange_count (width step : Z) : Z :=
  (width + step - (if step >? 0 then 1 else -1)) / step.

(** The length of the progression in the words of the specification:
    [ceil(|stop - start| / |step|)]. *)
Definition progression_length (start stop step : Z) : Z :=
  Qceiling (inject_Z (Z.abs (stop - start)) / inject_Z (Z.abs step)).

(** The checks of lines 56 to 68, as a proposition. *)
Definition randrange_valid (start stop step : Z) : Prop :=
  step ≠ 0
  ∧ ¬ (step > 0 ∧ stop - start <= 0)
  ∧ ¬ (step < 0 ∧ stop - start >= 0).

(** *** Arrays *)

(** [arr[i]] for a numeric index; [None] stands for [undefined]. *)
Definition array_get {T} (arr : list T) (i : Z) : option T :=
  if i <? 0 then None else arr !! Z.to_nat i.

(** [[arr[i], arr[j]] = [arr[j], arr[i]]] inside the bounds of [arr].
    Outside them JavaScript would read [undefined] and grow the array; the
    model stops there instead ([None]). *)
Definition swap {T} (arr : list T) (i j : Z) : option (list T) :=
  aj ← array_get arr j;
  ai ← array_get arr i;
  Some (<[Z.to_nat j := ai]> (<[Z.to_nat i := aj]> arr)).

(** *** shuffle *)

(** The body of the Fisher-Yates loop; [i] runs from [arr.length - 1]
    down to 1. *)
Fixpoint shuffle_loop {T} (i : nat) (arr : list T) : Rand (list T) :=
  match i with
  | O => mret arr
  | S i' =>
      u ← Math_random;
      let j := floor_scaled u (Z.of_nat i + 1) in
      match swap arr (Z.of_nat i) j with
      | Some arr' => shuffle_loop i' arr'
      | None => off_array
      end
  end.

(** [shuffle] mutates its argument; the model returns the new contents. *)
Definition shuffle {T} (arr : list T) : Rand (list T) :=
  shuffle_loop (length arr - 1)%nat arr.



(** *** sample *)

(** The [while (result.length < k)] loop of the set-based branch; each
    round reads one value of [Math.random]. *)
Fixpoint sample_loop {T} (population : list T) (k : Z)
    (result : list T) (selected : gset Z) (draws : list Q)
    : outcome (list Q) (list T) :=
  if Z.of_nat (length result) <? k then
    match draws with
    | [] => Starved
    | u :: rest =>
        let idx := floor_scaled u (Z.of_nat (length population)) in
        if decide (idx ∈ selected) then
          sample_loop population k result selected rest
        else
          match array_get population idx with
          | Some x =>
              sample_loop population k (result ++ [x]) ({[idx]} ∪ selected) rest
          | None => OffArray
          end
    end
  else Returned result draws.


Definition sample {T} (population : list T) (k : Z) : Rand (list T) :=
  if k <? 0 then
    throw (RangeError "Sample size must be a non-negative integer")
  else if k >? Z.of_nat (length population) then
    throw (RangeError "Sample size cannot be larger than population")
  else
    let n := Z.of_nat (length population) in
    if negb (Qle_bool (inject_Z k) (inject_Z n / 2)) then
      copied ← shuffle population;
      mret (take (Z.to_nat k) copied)
    else
      sample_loop population k [] ∅.

(** *** choices *)

(** The closure [binarySearch] over the local array [cumulative], with
    the loop variables [left] and [right] as arguments ([lo], [hi]: the
    source's names are constructors here).  [undefined < target] is false,
    hence the [None] case. *)
Equations binarySearch_loop (cumulative : list Q) (target : Q) (lo hi : Z)
    : Z by wf (Z.to_nat (hi - lo)) lt :=
  binarySearch_loop cumulative target lo hi with Z_lt_dec lo hi := {
    | right _ => lo
    | left Hlt =>
        let mid := (lo + hi) / 2 in
        match array_get cumulative mid with
        | Some c =>
            if negb (Qle_bool target c)
            then binarySearch_loop cumulative target (mid + 1) hi
            else binarySearch_loop cumulative target lo mid
        | None => binarySearch_loop cumulative target lo mid
        end
  }.
Next Obligation. Z.div_mod_to_equations. lia. Qed.
Next Obligation. Z.div_mod_to_equations. lia. Qed.
Next Obligation. Z.div_mod_to_equations. lia. Qed.

Definition binarySearch (cumulative : list Q) (target : Q) : Z :=
  binarySearch_loop cumulative target 0 (Z.of_nat (length cumulative) - 1).

Fixpoint choices_weighted {T} (population : list T) (cumulative : list Q)
    (k : nat) : Rand (list T) :=
  match k with
  | O => mret []
  | S k' =>
      r ← Math_random;
      let idx := binarySearch cumulative r in
      match array_get population idx with
      | Some x =>
          xs ← choices_weighted population cumulative k';
          mret (x :: xs)
      | None => off_array
      end
  end.

(** *** gauss *)

(** The platform's [Math] functions used by the Box-Muller transform. *)
Class MathLib : Type := {
  Math_sqrt : Q → Q;
  Math_log : Q → Q;
  Math_cos : Q → Q;
  Math_sin : Q → Q;
  Math_PI : Q
}.

(** Rational stand-ins for the [Math] functions, to run [gauss] on
    concrete values; no property of them is used. *)
Definition example_math : MathLib := {|
  Math_sqrt x := x;
  Math_log x := (x - 1)%Q;
  Math_cos x := (1 - x)%Q;
  Math_sin x := x;
  Math_PI := (22 # 7)%Q
|}.

(** The instance state of [class Random]. *)
Record state : Type := { cachedGaussian : option Q }.

(** [do { u1 = Math.random(); u2 = Math.random(); } while (u1 === 0)] *)
Fixpoint box_muller_draws (draws : list Q) : outcome (list Q) (Q * Q) :=
  match draws with
  | u1 :: u2 :: rest =>
      if Qeq_bool u1 0 then box_muller_draws rest else Returned (u1, u2) rest
  | _ => Starved
  end.

Definition box_muller_z0 {math : MathLib} (u1 u2 : Q) : Q :=
  (Math_sqrt (-2 * Math_log u1) * Math_cos (2 * Math_PI * u2))%Q.

Definition box_muller_z1 {math : MathLib} (u1 u2 : Q) : Q :=
  (Math_sqrt (-2 * Math_log u1) * Math_sin (2 * Math_PI * u2))%Q.

Definition gauss {math : MathLib} (this : state) (mu sigma : Q)
    : Rand (Q * state) :=
  if Qle_bool sigma 0 then
    throw (RangeError "Standard deviation must be positive")
  else
    match cachedGaussian this with
    | Some value =>
        mret ((value * sigma + mu)%Q, {| cachedGaussian := None |})
    | None =>
        '(u1, u2) ← box_muller_draws;
        let z0 := box_muller_z0 u1 u2 in
        let z1 := box_muller_z1 u1 u2 in
        mret ((z0 * sigma + mu)%Q, {| cachedGaussian := Some z1 |})
    end.


(** [random()] hands out the platform's draw as it is. *)
Definition random : Rand Q := Math_random.

(** *** Arguments that are not finite, or not integers

    [sample] and [gauss] with their arguments of type [number], so that
    the guards [Number.isInteger] and [Number.isFinite], which throw a
    [RangeError], are lines of the model; past the guards they are the
    methods above. *)
Definition sample_number {T} (population : list T) (k : number)
    : Rand (list T) :=
  if negb (Number_isInteger k) || number_negative k then
    throw (RangeError "Sample size must be a non-negative integer")
  else
    sample population (number_integer k).

Definition gauss_number {math : MathLib} (this : state) (mu sigma : number)
    : Rand (Q * state) :=
  if negb (Number_isFinite mu) || negb (Number_isFinite sigma) then
    throw (RangeError "Arguments must be finite numbers")
  else
    gauss this (number_value mu) (number_value sigma).

End Random.

(** ** class SecureRandom *)

Module SecureRandom.

(** The secure source hands out bytes; a source is assumed available, so
    the [Error] of [getRandomBytes] is not modelled. *)
Definition Secure (A : Type) : Type := M (list Byte.byte) A.

Definition getRandomBytes (size : nat) : Secure (list Byte.byte) := λ src,
  if (length src <? size)%nat then Starved
  else Returned (take size src) (drop size src).

(** JavaScript's 32-bit operators: [<<] and [|] work on [ToInt32] of
    their operands, [>>>] on [ToUint32] of its left one. *)
Definition ToInt32 (x : Z) : Z := (x + 2 ^ 31) mod 2 ^ 32 - 2 ^ 31.

Definition ToUint32 (x : Z) : Z := x mod 2 ^ 32.

Definition js_shl (x n : Z) : Z :=
  ToInt32 (Z.shiftl (ToInt32 x) (Z.land n 31)).

Definition js_or (x y : Z) : Z := Z.lor (ToInt32 x) (ToInt32 y).

Definition js_ushr (x n : Z) : Z := Z.shiftr (ToUint32 x) (Z.land n 31).

Definition byte_value (b : Byte.byte) : Z := Z.of_N (Byte.to_N b).

(** [((bytes[0] << 24) | (bytes[1] << 16) | (bytes[2] << 8) | bytes[3]) >>> 0] *)
Definition uint32_of_bytes (b0 b1 b2 b3 : Byte.byte) : Z :=
  js_ushr
    (js_or (js_or (js_or (js_shl (byte_value b0) 24) (js_shl (byte_value b1) 16))
                  (js_shl (byte_value b2) 8))
           (byte_value b3))
    0.

Definition getRandomUint32 : Secure Z :=
  bytes ← getRandomBytes 4;
  match bytes with
  | [b0; b1; b2; b3] => mret (uint32_of_bytes b0 b1 b2 b3)
  | _ => off_array
  end.

(** [do { randomValue = this.getRandomUint32(); } while (randomValue >= maxValid)],
    with the four bytes of each round read off the source. *)
Fixpoint rejection_loop (maxValid : Z) (src : list Byte.byte)
    : outcome (list Byte.byte) Z :=
  match src with
  | b0 :: b1 :: b2 :: b3 :: rest =>
      let randomValue := uint32_of_bytes b0 b1 b2 b3 in
      if randomValue >=? maxValid then rejection_loop maxValid rest
      else Returned randomValue rest
  | _ => Starved
  end.

Definition maxValid_of (range : Z) : Z := 0x100000000 / range * range.

Definition randint (min max : Z) : Secure Z :=
  if min >? max then
    throw (RangeError "min must be less than or equal to max")
  else
    let range := max - min + 1 in
    if range >? 0xFFFFFFFF then
      throw (RangeError "Range too large for secure random generation")
    else
      let maxValid := maxValid_of range in
      randomValue ← rejection_loop maxValid;
      mret (min + Z.rem randomValue range).

(** How many [v] of [[from, from + len)] satisfy [p]. *)
Fixpoint count_in (p : Z → bool) (from : Z) (len : nat) : nat :=
  match len with
  | O => O
  | S len' => ((if p from then 1 else 0) + count_in p (from + 1) len')%nat
  end.

(** The accepted draws that [randint min max] maps to [y]. *)
Definition preimages (min max y : Z) : nat :=
  let range := max - min + 1 in
  count_in (λ v, min + Z.rem v range =? y) 0 (Z.to_nat (maxValid_of range)).

(** [secure.choice]: an index from [randint(0, seq.length - 1)]. *)
Definition choice {T} (seq : list T) : Secure T :=
  if Z.of_nat (length seq) =? 0 then
    throw (RangeError "Cannot choose from an empty sequence")
  else
    idx ← randint 0 (Z.of_nat (length seq) - 1);
    match Random.array_get seq idx with
    | Some x => mret x
    | None => off_array
    end.

(** [secure.bytes]: [length] is a number, an integer here by typing. *)
Definition bytes (length : Z) : Secure (list Byte.byte) :=
  if length <? 0 then
    throw (TypeError "Length must be a non-negative integer")
  else
    getRandomBytes (Z.to_nat length).

End SecureRandom.

(** ** The numeric methods on doubles *)

Module Double.

(** [Math.random()] hands out doubles of [[0,1)]. *)
Definition double_draw (u : Q) : Prop := unit_draw u ∧ is_double u.

Definition random : Rand number := u ← Math_random; mret (Finite u).

Definition randint (min max : number) : Rand number :=
  if negb (Number_isInteger min) || negb (Number_isInteger max) then
    throw (TypeError "Both arguments must be integers")
  else if js_gt min max then
    throw (RangeError "min must be less than or equal to max")
  else
    let range := js_add (js_sub max min) (of_Z 1) in
    if js_gt range (of_Z MAX_SAFE_INTEGER) then
      throw (RangeError "Range exceeds maximum safe integer range")
    else
      u ← random;
      mret (js_add (Math_floor (js_mul u range)) min).

(** The count of steps, line 71 of the source. *)
Definition randrange_count (width step : number) : number :=
  Math_floor
    (js_div
       (js_sub (js_add width step)
          (if js_gt step (of_Z 0) then of_Z 1 else of_Z (-1)))
       step).

Definition randrange (start : number) (stop step : option number)
    : Rand number :=
  let step := default (of_Z 1) step in
  let '(start, stop) :=
    match stop with
    | None => (of_Z 0, start)
    | Some stop => (start, stop)
    end in
  if negb (Number_isInteger start) || negb (Number_isInteger stop)
     || negb (Number_isInteger step) then
    throw (TypeError "All arguments must be integers")
  else if js_eq step (of_Z 0) then
    throw (RangeError "step argument must not be zero")
  else
    let width := js_sub stop start in
    if js_gt step (of_Z 0) && js_le width (of_Z 0) then
      throw (RangeError "empty range for randrange()")
    else if js_lt step (of_Z 0) && js_ge width (of_Z 0) then
      throw (RangeError "empty range for randrange()")
    else
      let n := randrange_count width step in
      if js_le n (of_Z 0) then
        throw (RangeError "empty range for randrange()")
      else
        u ← random;
        mret (js_add start (js_mul (Math_floor (js_mul u n)) step)).

Definition uniform (min max : number) : Rand number :=
  if negb (Number_isFinite min) || negb (Number_isFinite max) then
    throw (RangeError "Arguments must be finite numbers")
  else if js_gt min max then
    throw (RangeError "min must be less than or equal to max")
  else
    u ← random;
    mret (js_add (js_mul u (js_sub max min)) min).

(** [arr[i]] for a number as index: [undefined], here [None], unless
    the number is an integer inside the array. *)
Definition js_index {T} (arr : list T) (i : number) : option T :=
  if Number_isInteger i then Random.array_get arr (number_integer i) else None.

(** [choice]: the index is [Math.floor] of the rounded product. *)
Definition choice {T} (seq : list T) : Rand T :=
  if Z.of_nat (length seq) =? 0 then
    throw (RangeError "Cannot choose from an empty sequence")
  else
    u ← random;
    let idx := Math_floor (js_mul u (of_Z (Z.of_nat (length seq)))) in
    match js_index seq idx with
    | Some x => mret x
    | None => off_array
    end.

Fixpoint choices_uniform {T} (population : list T) (k : nat) : Rand (list T) :=
  match k with
  | O => mret []
  | S k' =>
      x ← choice population;
      xs ← choices_uniform population k';
      mret (x :: xs)
  end.

(** [weights.reduce((a, b) => a + b, 0)] *)
Definition sum_of (weights : list number) : number :=
  foldl js_add (of_Z 0) weights.

(** The running sums [acc += w / sum] pushed by the loop. *)
Fixpoint running_sums (sum acc : number) (weights : list number)
    : list number :=
  match weights with
  | [] => []
  | w :: rest =>
      let acc := js_add acc (js_div w sum) in
      acc :: running_sums sum acc rest
  end.

(** The array [cumulative] as it stands after line 216. *)
Definition cumulative_of (weights : list number) : list number :=
  let sum := sum_of weights in
  let cumulative := running_sums sum (of_Z 0) weights in
  <[(length cumulative - 1)%nat := of_Z 1]> cumulative.

(** [choices]; the entries of [cumulative] are finite, and the search
    compares them with the draw exactly. *)
Definition choices {T} (population : list T) (weights : option (list number))
    (k : option number) : Rand (list T) :=
  let k := default (of_Z 1) k in
  if Z.of_nat (length population) =? 0 then
    throw (RangeError "Population cannot be empty")
  else if negb (Number_isInteger k) || number_negative k then
    throw (RangeError "k must be a non-negative integer")
  else
    match weights with
    | None => choices_uniform population (Z.to_nat (number_integer k))
    | Some weights =>
        if negb (Z.of_nat (length weights) =? Z.of_nat (length population)) then
          throw (RangeError "Weights must have the same length as population")
        else if existsb (λ w, negb (Number_isFinite w) || number_negative w)
                  weights then
          throw (RangeError "All weights must be non-negative finite numbers")
        else if js_le (sum_of weights) (of_Z 0) then
          throw (RangeError "Weight sum must be positive")
        else
          Random.choices_weighted population
            (number_value <$> cumulative_of weights)
            (Z.to_nat (number_integer k))
    end.

(** [secure.randint]: the loop of lines 366 to 369, each round reading
    four bytes off the source. *)
Fixpoint rejection_loop (maxValid : number) (src : list Byte.byte)
    : outcome (list Byte.byte) number :=
  match src with
  | b0 :: b1 :: b2 :: b3 :: rest =>
      let randomValue := of_Z (SecureRandom.uint32_of_bytes b0 b1 b2 b3) in
      if js_ge randomValue maxValid then rejection_loop maxValid rest
      else Returned randomValue rest
  | _ => Starved
  end.

Definition maxValid_of (range : number) : number :=
  js_mul (Math_floor (js_div (of_Z 0x100000000) range)) range.

Definition secure_randint (min max : number) : SecureRandom.Secure number :=
  if negb (Number_isInteger min) || negb (Number_isInteger max) then
    throw (TypeError "Both arguments must be integers")
  else if js_gt min max then
    throw (RangeError "min must be less than or equal to max")
  else
    let range := js_add (js_sub max min) (of_Z 1) in
    if js_gt range (of_Z 0xFFFFFFFF) then
      throw (RangeError "Range too large for secure random generation")
    else
      let maxValid := maxValid_of range in
      randomValue ← rejection_loop maxValid;
      mret (js_add min (js_rem randomValue range)).

End Double.

(** A weight that passes line 199: a finite double that is not negative. *)
Definition weight (w : Q) : Prop := binary64 w ∧ (0 <= w)%Q.

(** An integer result as a number. *)
Definition returned_of_Z {S} (o : outcome S Z) : outcome S number :=
  match o with
  | Returned r rest => Returned (of_Z r) rest
  | Thrown e => Thrown e
  | Starved => Starved
  | OffArray => OffArray
  end.

(** The largest double below 1: the largest draw. *)
Definition top_draw : Q := 9007199254740991 # 9007199254740992.

(** What the shares need of the sum. *)
Definition dominates (sum : number) (ws : list Q) : Prop :=
  sum = PosInfinity
  ∨ ∃ q, sum = Finite q ∧ (0 < q)%Q ∧ Forall (λ w, (w <= q)%Q) ws.

(** ** The numeric lines on primitive floats

    The same lines of [randint], [randrange], [uniform], [choices] and
    [secure.randint] once more, over Rocq's primitive floats, which are
    the binary64 of the processor with rounding to nearest, ties to
    even: the arithmetic of JavaScript numbers.  Nothing is proved of
    them in general; they are run against module [Double] to check
    [round] and the operations built on it. *)

Module Binary64.

Import PrimFloat.
Local Open Scope float_scope.

Definition Rand (A : Type) : Type := M (list float) A.

Definition Math_random : Rand float := λ draws,
  match draws with
  | [] => Starved
  | u :: rest => Returned u rest
  end.

(** The largest double below 1, [1 - 2^-53]: the largest value
    [Math.random] can return. *)
Definition below_one : float := 0x1.fffffffffffffp-1.

(** The double written [0.3333333333333333]. *)
Definition one_third : float := 0x1.5555555555555p-2.

Definition one_half : float := 0.5.

Definition three_quarters : float := 0.75.

(** The double nearest to an integer. *)
Definition of_Z (z : Z) : float :=
  FloatOps.SF2Prim
    (SpecFloat.binary_normalize FloatOps.prec FloatOps.emax z 0 false).

(** The integer that an integer-valued double is. *)
Definition to_Z (x : float) : option Z :=
  match FloatOps.Prim2SF x with
  | SpecFloat.S754_zero _ => Some 0%Z
  | SpecFloat.S754_finite s m e =>
      if (0 <=? e)%Z then Some (SpecFloat.cond_Zopp s (Z.pos m * 2 ^ e))%Z
      else if (Z.pos m mod 2 ^ (- e) =? 0)%Z
           then Some (SpecFloat.cond_Zopp s (Z.pos m / 2 ^ (- e)))%Z
           else None
  | _ => None
  end.

(** [Math.floor].  A double [m * 2^e] with [0 <= e] is an integer
    already; otherwise [m < 2^53], so the floor is a double as well. *)
Definition Math_floor (x : float) : float :=
  match FloatOps.Prim2SF x with
  | SpecFloat.S754_finite s m e =>
      if (0 <=? e)%Z then x
      else of_Z (SpecFloat.cond_Zopp s (Z.pos m) / 2 ^ (- e))%Z
  | _ => x
  end.

Definition Number_isFinite (x : float) : bool :=
  negb (is_nan x) && negb (is_infinity x).

Definition Number_isInteger (x : float) : bool :=
  Number_isFinite x && (Math_floor x =? x).

(** [a % b] on integer-valued doubles, the only ones the source applies
    it to; the remainder of two such doubles is exact. *)
Definition js_rem (a b : float) : float :=
  match to_Z a, to_Z b with
  | Some x, Some y => if (y =? 0)%Z then nan else of_Z (Z.rem x y)
  | _, _ => nan
  end.

Definition randint (min max : float) : Rand float :=
  if negb (Number_isInteger min) || negb (Number_isInteger max) then
    throw (TypeError "Both arguments must be integers")
  else if max <? min then
    throw (RangeError "min must be less than or equal to max")
  else
    let range := max - min + 1 in
    if of_Z MAX_SAFE_INTEGER <? range then
      throw (RangeError "Range exceeds maximum safe integer range")
    else
      u ← Math_random;
      mret (Math_floor (u * range) + min).

Definition randrange_count (width step : float) : float :=
  Math_floor ((width + step - (if 0 <? step then 1 else -1)) / step).

Definition randrange (start : float) (stop step : option float) : Rand float :=
  let step := default 1 step in
  let '(start, stop) :=
    match stop with
    | None => (0, start)
    | Some stop => (start, stop)
    end in
  if negb (Number_isInteger start) || negb (Number_isInteger stop)
     || negb (Number_isInteger step) then
    throw (TypeError "All arguments must be integers")
  else if step =? 0 then
    throw (RangeError "step argument must not be zero")
  else
    let width := stop - start in
    if (0 <? step) && (width <=? 0) then
      throw (RangeError "empty range for randrange()")
    else if (step <? 0) && (0 <=? width) then
      throw (RangeError "empty range for randrange()")
    else
      let n := randrange_count width step in
      if n <=? 0 then
        throw (RangeError "empty range for randrange()")
      else
        u ← Math_random;
        let randomStep := Math_floor (u * n) in
        mret (start + randomStep * step).

Definition uniform (min max : float) : Rand float :=
  if negb (Number_isFinite min) || negb (Number_isFinite max) then
    throw (RangeError "Arguments must be finite numbers")
  else if max <? min then
    throw (RangeError "min must be less than or equal to max")
  else
    u ← Math_random;
    mret (u * (max - min) + min).

(** The array [cumulative] of [choices], lines 203 to 216. *)
Fixpoint running_sums (sum acc : float) (weights : list float) : list float :=
  match weights with
  | [] => []
  | w :: rest =>
      let acc := acc + w / sum in
      acc :: running_sums sum acc rest
  end.

Definition cumulative_of (weights : list float) : list float :=
  let sum := foldl add 0 weights in
  let cumulative := running_sums sum 0 weights in
  <[(length cumulative - 1)%nat := 1]> cumulative.

(** [secure.randint], with the bytes of each round read off the source. *)
Fixpoint rejection_loop (maxValid : float) (src : list Byte.byte)
    : outcome (list Byte.byte) float :=
  match src with
  | b0 :: b1 :: b2 :: b3 :: rest =>
      let randomValue := of_Z (SecureRandom.uint32_of_bytes b0 b1 b2 b3) in
      if maxValid <=? randomValue then rejection_loop maxValid rest
      else Returned randomValue rest
  | _ => Starved
  end.

Definition secure_randint (min max : float) : SecureRandom.Secure float :=
  if negb (Number_isInteger min) || negb (Number_isInteger max) then
    throw (TypeError "Both arguments must be integers")
  else if max <? min then
    throw (RangeError "min must be less than or equal to max")
  else
    let range := max - min + 1 in
    if 4294967295 <? range then
      throw (RangeError "Range too large for secure random generation")
    else
      let maxValid := Math_floor (4294967296 / range) * range in
      randomValue ← rejection_loop maxValid;
      mret (min + js_rem randomValue range).

(** The number that a float is. *)
Definition to_number (x : float) : number :=
  match FloatOps.Prim2SF x with
  | SpecFloat.S754_zero _ => Finite 0
  | SpecFloat.S754_infinity s => if s then NegInfinity else PosInfinity
  | SpecFloat.S754_nan => NaN
  | SpecFloat.S754_finite s m e =>
      Finite (Qred (inject_Z (SpecFloat.cond_Zopp s (Z.pos m)) * pow2 e))
  end.

Definition to_Q (x : float) : Q := number_value (to_number x).

Definition to_run (o : outcome (list float) float) : outcome (list Q) number :=
  match o with
  | Returned x rest => Returned (to_number x) (to_Q <$> rest)
  | Thrown e => Thrown e
  | Starved => Starved
  | OffArray => OffArray
  end.

Definition to_secure_run {S} (o : outcome S float) : outcome S number :=
  match o with
  | Returned x rest => Returned (to_number x) rest
  | Thrown e => Thrown e
  | Starved => Starved
  | OffArray => OffArray
  end.

End Binary64.

(** ** Arithmetic of floors *)


Lemma negb_Qle_bool_true (x y : Q) : negb (Qle_bool x y) = true ↔ (y < x)%Q.
Proof.
  rewrite negb_true_iff, <- not_true_iff_false, Qle_bool_iff. split.
  - apply Qnot_le_lt.
  - intros Hlt Hle. lra.
Qed.

Lemma negb_Qle_bool_false (x y : Q) : negb (Qle_bool x y) = false ↔ (x <= y)%Q.
Proof. rewrite negb_false_iff. apply Qle_bool_iff. Qed.



(** ** Rounding: the unit in the last place *)

Section Rounding.

Lemma pow2_pos e : (0 < pow2 e)%Q.
Proof. apply Qpower_0_lt. reflexivity. Qed.

Lemma pow2_add a b : (pow2 (a + b) == pow2 a * pow2 b)%Q.
Proof. apply Qpower_plus. discriminate. Qed.

Lemma pow2_Z e : 0 <= e → (pow2 e == inject_Z (2 ^ e))%Q.
Proof. intros He. unfold pow2. rewrite Zpower_Qpower by exact He. reflexivity. Qed.

Lemma pow2_le a b : a <= b → (pow2 a <= pow2 b)%Q.
Proof. intros H. apply Qpower_le_compat_l; [exact H | discriminate]. Qed.

Lemma pow2_lt a b : a < b → (pow2 a < pow2 b)%Q.
Proof. intros H. apply Qpower_lt_compat_l; [exact H | reflexivity]. Qed.

Lemma pow2_lt_inv a b : (pow2 a < pow2 b)%Q → a < b.
Proof. intros H. apply (Qpower_lt_compat_l_inv 2); [exact H | reflexivity]. Qed.

Local Open Scope Q_scope.

Lemma Qdiv_lt_cross (a b c d : Q) :
  0 < b → 0 < d → a * d < c * b → a / b < c / d.
Proof.
  intros Hb Hd H.
  apply Qlt_shift_div_l; [exact Hd |].
  assert (E : a / b * d == a * d / b) by (field; lra).
  rewrite E. apply Qlt_shift_div_r; [exact Hb | exact H].
Qed.

Lemma Qdiv_le_cross (a b c d : Q) :
  0 < b → 0 < d → a * d <= c * b → a / b <= c / d.
Proof.
  intros Hb Hd H.
  apply Qle_shift_div_l; [exact Hd |].
  assert (E : a / b * d == a * d / b) by (field; lra).
  rewrite E. apply Qle_shift_div_r; [exact Hb | exact H].
Qed.

Lemma pow2_sub (a b : Z) : pow2 (a - b) == pow2 a / pow2 b.
Proof. apply Qpower_minus. discriminate. Qed.

Lemma inject_Z_pos (z : Z) : (0 < z)%Z → 0 < inject_Z z.
Proof. intros H. unfold Qlt; simpl; lia. Qed.

(** [2^(ilog2 x) <= x < 2^(ilog2 x + 1)] for a positive [x]. *)
Lemma ilog2_spec (x : Q) :
  0 < x → pow2 (ilog2 x) <= x ∧ x < pow2 (ilog2 x + 1).
Proof.
  intros Hx. destruct x as [n d].
  assert (Hn : (0 < n)%Z) by (unfold Qlt in Hx; simpl in Hx; lia).
  unfold ilog2. cbn [Qnum Qden].
  set (a := Z.log2 n). set (b := Z.log2 (Z.pos d)).
  pose proof (Z.log2_spec n Hn) as [Ha1 Ha2]. fold a in Ha1, Ha2.
  pose proof (Z.log2_spec (Z.pos d) ltac:(lia)) as [Hb1 Hb2]. fold b in Hb1, Hb2.
  assert (Ha0 : (0 <= a)%Z) by apply Z.log2_nonneg.
  assert (Hb0 : (0 <= b)%Z) by apply Z.log2_nonneg.
  assert (Hx' : n # d == inject_Z n / inject_Z (Z.pos d)) by apply Qmake_Qdiv.
  assert (Hd : 0 < inject_Z (Z.pos d)) by (apply inject_Z_pos; lia).
  assert (Hpa : ∀ k, (0 <= k)%Z → 0 < inject_Z (2 ^ k)).
  { intros k Hk. apply inject_Z_pos. apply Z.pow_pos_nonneg; lia. }
  destruct (Qle_bool (pow2 (a - b)) (n # d)) eqn:Hle.
  - apply Qle_bool_iff in Hle. split; [exact Hle |].
    replace (a - b + 1)%Z with (a + 1 - b)%Z by lia.
    rewrite pow2_sub, (pow2_Z (a + 1)), (pow2_Z b), Hx' by lia.
    apply Qdiv_lt_cross; [exact Hd | apply Hpa; lia |].
    rewrite <- !inject_Z_mult, <- Zlt_Qlt.
    nia.
  - assert (Hlt : n # d < pow2 (a - b)).
    { apply Qnot_le_lt. intros Hc. apply Qle_bool_iff in Hc. congruence. }
    split.
    + replace (a - b - 1)%Z with (a - (b + 1))%Z by lia.
      rewrite pow2_sub, (pow2_Z a), (pow2_Z (b + 1)), Hx' by lia.
      apply Qdiv_le_cross; [apply Hpa; lia | exact Hd |].
      rewrite <- !inject_Z_mult, <- Zle_Qle. nia.
    + replace (a - b - 1 + 1)%Z with (a - b)%Z by lia. exact Hlt.
Qed.

Lemma ilog2_unique (x : Q) (e : Z) :
  0 < x → pow2 e <= x → x < pow2 (e + 1) → ilog2 x = e.
Proof.
  intros Hx Hlo Hhi. destruct (ilog2_spec x Hx) as [Hlo' Hhi'].
  assert (H1 : (ilog2 x < e + 1)%Z).
  { apply pow2_lt_inv. eapply Qle_lt_trans; eassumption. }
  assert (H2 : (e < ilog2 x + 1)%Z).
  { apply pow2_lt_inv. eapply Qle_lt_trans; eassumption. }
  lia.
Qed.

Lemma ilog2_comp (x y : Q) : 0 < x → x == y → ilog2 x = ilog2 y.
Proof.
  intros Hx E. assert (Hy : 0 < y) by (rewrite <- E; exact Hx).
  destruct (ilog2_spec y Hy) as [Hlo Hhi].
  apply ilog2_unique; [exact Hx | rewrite E; exact Hlo | rewrite E; exact Hhi].
Qed.

Lemma ilog2_mono (x y : Q) : 0 < x → x <= y → (ilog2 x <= ilog2 y)%Z.
Proof.
  intros Hx Hxy. assert (Hy : 0 < y) by lra.
  destruct (ilog2_spec x Hx) as [Hlo _], (ilog2_spec y Hy) as [_ Hhi].
  assert (H : (ilog2 x < ilog2 y + 1)%Z).
  { apply pow2_lt_inv. eapply Qle_lt_trans; [exact Hlo |]. lra. }
  lia.
Qed.

(** ** Rounding to the nearest integer, ties to even *)

Lemma rne_comp (x y : Q) : x == y → rne x = rne y.
Proof.
  intros E. unfold rne. rewrite (Qfloor_comp _ _ E).
  assert (E' : x - inject_Z (Qfloor y) == y - inject_Z (Qfloor y)) by (rewrite E; reflexivity).
  rewrite (Qcompare_comp _ _ E' _ _ (Qeq_refl (1 # 2))). reflexivity.
Qed.

Lemma rne_cases (x : Q) :
  let f := Qfloor x in
  (x - inject_Z f < 1 # 2 ∧ rne x = f)
  ∨ (1 # 2 < x - inject_Z f ∧ rne x = (f + 1)%Z)
  ∨ (x - inject_Z f == 1 # 2 ∧ rne x = if Z.even f then f else (f + 1)%Z).
Proof.
  intros f. unfold rne. fold f.
  destruct (Qcompare_spec (x - inject_Z f) (1 # 2)) as [E | L | G].
  - right. right. split; [exact E | reflexivity].
  - left. split; [exact L | reflexivity].
  - right. left. split; [exact G | reflexivity].
Qed.

Lemma Qfloor_bounds (x : Q) :
  inject_Z (Qfloor x) <= x ∧ x < inject_Z (Qfloor x) + 1.
Proof.
  split; [apply Qfloor_le |].
  pose proof (Qlt_floor x) as H. rewrite inject_Z_plus in H. exact H.
Qed.

Lemma rne_bounds (x : Q) :
  x - (1 # 2) <= inject_Z (rne x) ∧ inject_Z (rne x) <= x + (1 # 2).
Proof.
  destruct (Qfloor_bounds x) as [Hlo Hhi].
  destruct (rne_cases x) as [[H ->] | [[H ->] | [H ->]]].
  - lra.
  - rewrite inject_Z_plus. change (inject_Z 1) with 1. lra.
  - destruct (Z.even _); [| rewrite inject_Z_plus; change (inject_Z 1) with 1]; lra.
Qed.

Lemma rne_Z (z : Z) : rne (inject_Z z) = z.
Proof.
  destruct (rne_cases (inject_Z z)) as [[H E] | [[H E] | [H E]]];
    rewrite Qfloor_Z in *.
  - exact E.
  - exfalso. lra.
  - exfalso. lra.
Qed.

Lemma rne_mono (x y : Q) : x <= y → (rne x <= rne y)%Z.
Proof.
  intros Hxy.
  pose proof (Qfloor_resp_le _ _ Hxy) as Hf.
  destruct (Qfloor_bounds x) as [Hx1 Hx2], (Qfloor_bounds y) as [Hy1 Hy2].
  assert (Hrx : (Qfloor x <= rne x <= Qfloor x + 1)%Z).
  { destruct (rne_cases x) as [[_ ->] | [[_ ->] | [_ ->]]];
      [lia | lia | destruct (Z.even _); lia]. }
  assert (Hry : (Qfloor y <= rne y <= Qfloor y + 1)%Z).
  { destruct (rne_cases y) as [[_ ->] | [[_ ->] | [_ ->]]];
      [lia | lia | destruct (Z.even _); lia]. }
  destruct (Z.eq_dec (Qfloor x) (Qfloor y)) as [E | N]; [| lia].
  destruct (rne_cases x) as [[Hx ->] | [[Hx ->] | [Hx ->]]],
    (rne_cases y) as [[Hy ->] | [[Hy ->] | [Hy ->]]];
    rewrite <- ?E in *; try lia; try (exfalso; lra);
    destruct (Z.even (Qfloor x)); lia.
Qed.

Lemma rne_ge (x : Q) (m : Z) : inject_Z m <= x → (m <= rne x)%Z.
Proof. intros H. rewrite <- (rne_Z m). by apply rne_mono. Qed.

Lemma rne_le (x : Q) (m : Z) : x <= inject_Z m → (rne x <= m)%Z.
Proof. intros H. rewrite <- (rne_Z m). by apply rne_mono. Qed.

Lemma rne_below_half (x : Q) (m : Z) :
  x < inject_Z m - (1 # 2) → (rne x <= m - 1)%Z.
Proof.
  intros H. destruct (rne_bounds x) as [_ Hhi].
  assert (Hlt : (rne x < m)%Z) by (rewrite Zlt_Qlt; lra).
  lia.
Qed.

Lemma rne_opp (x : Q) : rne (- x) = (- rne x)%Z.
Proof.
  destruct (Qfloor_bounds x) as [Hx1 Hx2].
  destruct (Qeq_dec x (inject_Z (Qfloor x))) as [E | N].
  - rewrite (rne_comp x _ E), rne_Z.
    assert (E' : - x == inject_Z (- Qfloor x)) by (rewrite inject_Z_opp, <- E; reflexivity).
    rewrite (rne_comp _ _ E'), rne_Z. reflexivity.
  - assert (Hf : Qfloor (- x) = (- Qfloor x - 1)%Z).
    { assert (H1 : (- Qfloor x - 1 <= Qfloor (- x))%Z).
      { rewrite <- (Qfloor_Z (- Qfloor x - 1)). apply Qfloor_resp_le.
        unfold Z.sub. rewrite !inject_Z_plus, !inject_Z_opp.
        change (inject_Z 1) with 1. lra. }
      assert (H2 : (Qfloor (- x) < - Qfloor x)%Z).
      { rewrite Zlt_Qlt. eapply Qle_lt_trans; [apply Qfloor_le |].
        rewrite inject_Z_opp.
        assert (inject_Z (Qfloor x) < x) by (apply Qle_lt_or_eq in Hx1 as [? | E]; [done | exfalso; apply N; by symmetry]).
        lra. }
      lia. }
    assert (Hi : inject_Z (Qfloor (- x)) == - inject_Z (Qfloor x) - 1).
    { rewrite Hf. unfold Z.sub. rewrite !inject_Z_plus, !inject_Z_opp.
      change (inject_Z 1) with 1. ring. }
    destruct (rne_cases x) as [[Hx ->] | [[Hx ->] | [Hx ->]]],
      (rne_cases (- x)) as [[Hy ->] | [[Hy ->] | [Hy ->]]];
      rewrite ?Hi in Hy; rewrite ?Hf; try lia; try (exfalso; lra).
    replace (- Qfloor x - 1)%Z with (- (Qfloor x + 1))%Z by lia.
    rewrite Z.even_opp, Z.even_add. change (Z.even 1) with false.
    destruct (Z.even (Qfloor x)); simpl; lia.
Qed.

(** ** The unit in the last place *)

Lemma Qabs_positive (x : Q) : ¬ x == 0 → 0 < Qabs x.
Proof.
  intros N. pose proof (Qabs_nonneg x) as H.
  apply Qle_lt_or_eq in H as [H | H]; [exact H |].
  exfalso. apply N. revert H. apply Qabs_case; intros; lra.
Qed.

Lemma ulp_exponent_min (x : Q) : (-1074 <= ulp_exponent x)%Z.
Proof. unfold ulp_exponent. lia. Qed.

Lemma ulp_exponent_comp (x y : Q) : ¬ x == 0 → x == y → ulp_exponent x = ulp_exponent y.
Proof.
  intros N E. unfold ulp_exponent.
  rewrite (ilog2_comp (Qabs x) (Qabs y)); [reflexivity | by apply Qabs_positive |].
  rewrite E. reflexivity.
Qed.

Lemma ulp_exponent_opp (x : Q) : ¬ x == 0 → ulp_exponent (- x) = ulp_exponent x.
Proof.
  intros N. unfold ulp_exponent.
  rewrite (ilog2_comp (Qabs (- x)) (Qabs x)); [reflexivity | | apply Qabs_opp].
  rewrite Qabs_opp. by apply Qabs_positive.
Qed.

Lemma ulp_exponent_pos (x : Q) :
  0 < x → ulp_exponent x = Z.max (ilog2 x - 52) (-1074).
Proof.
  intros Hx. unfold ulp_exponent.
  rewrite (ilog2_comp (Qabs x) x); [reflexivity | |].
  - rewrite Qabs_pos; lra.
  - apply Qabs_pos; lra.
Qed.

Lemma ulp_exponent_mono (x y : Q) :
  0 < x → x <= y → (ulp_exponent x <= ulp_exponent y)%Z.
Proof.
  intros Hx Hxy. rewrite !ulp_exponent_pos by lra.
  pose proof (ilog2_mono x y Hx Hxy). lia.
Qed.

(** ** Rounding to binary64 *)

Lemma round_zero (x : Q) : x == 0 → round x = 0.
Proof. intros E. unfold round. apply Qeq_bool_iff in E. rewrite E. reflexivity. Qed.

Lemma round_nonzero (x : Q) :
  ¬ x == 0 →
  round x = Qred (inject_Z (rne (x / pow2 (ulp_exponent x))) * pow2 (ulp_exponent x)).
Proof.
  intros N. unfold round. destruct (Qeq_bool x 0) eqn:E; [| reflexivity].
  apply Qeq_bool_iff in E. contradiction.
Qed.

Lemma round_value (x : Q) :
  ¬ x == 0 →
  round x == inject_Z (rne (x / pow2 (ulp_exponent x))) * pow2 (ulp_exponent x).
Proof. intros N. rewrite round_nonzero by exact N. apply Qred_correct. Qed.

Lemma round_comp (x y : Q) : x == y → round x = round y.
Proof.
  intros E. destruct (Qeq_dec x 0) as [Z | N].
  - rewrite !round_zero; [reflexivity | rewrite <- E; exact Z | exact Z].
  - assert (N' : ¬ y == 0) by (rewrite <- E; exact N).
    rewrite !round_nonzero by assumption. apply Qred_complete.
    rewrite (ulp_exponent_comp x y N E).
    rewrite (rne_comp (x / pow2 (ulp_exponent y)) (y / pow2 (ulp_exponent y)));
      [reflexivity |].
    rewrite E. reflexivity.
Qed.

Lemma scaled (x U : Q) : 0 < U → x == x / U * U.
Proof. intros H. field. lra. Qed.

Lemma round_opp (x : Q) : round (- x) == - round x.
Proof.
  destruct (Qeq_dec x 0) as [Z | N].
  - rewrite !round_zero; [reflexivity | exact Z | rewrite Z; reflexivity].
  - assert (N' : ¬ - x == 0) by (intros H; apply N; lra).
    rewrite !round_value by assumption.
    rewrite ulp_exponent_opp by exact N.
    rewrite (rne_comp (- x / pow2 (ulp_exponent x)) (- (x / pow2 (ulp_exponent x)))).
    + rewrite rne_opp, inject_Z_opp. ring.
    + field. pose proof (pow2_pos (ulp_exponent x)). lra.
Qed.

Lemma round_error (x : Q) :
  ¬ x == 0 →
  x - pow2 (ulp_exponent x) * (1 # 2) <= round x
  ∧ round x <= x + pow2 (ulp_exponent x) * (1 # 2).
Proof.
  intros N. rewrite round_value by exact N.
  pose proof (pow2_pos (ulp_exponent x)) as HU.
  set (U := pow2 (ulp_exponent x)) in *.
  destruct (rne_bounds (x / U)) as [Hlo Hhi].
  pose proof (scaled x U HU) as Hx.
  set (y := x / U) in *. set (m := inject_Z (rne y)) in *.
  rewrite Hx. split; nra.
Qed.

Lemma round_nonneg (x : Q) : 0 <= x → 0 <= round x.
Proof.
  intros Hx. destruct (Qeq_dec x 0) as [Z | N].
  - rewrite round_zero by exact Z. lra.
  - rewrite round_value by exact N.
    pose proof (pow2_pos (ulp_exponent x)) as HU.
    apply Qmult_le_0_compat; [| lra].
    change 0 with (inject_Z 0). rewrite <- Zle_Qle. apply rne_ge.
    change (inject_Z 0) with 0. apply Qle_shift_div_l; [exact HU | lra].
Qed.

Lemma round_nonpos (x : Q) : x <= 0 → round x <= 0.
Proof.
  intros Hx. pose proof (round_nonneg (- x) ltac:(lra)) as H.
  rewrite round_opp in H. lra.
Qed.

(** A power of two no smaller than the unit of [x] bounds [round x] as it
    bounds [x]. *)
Lemma round_le_pow2 (x : Q) (k : Z) :
  0 < x → x <= pow2 k → (-1074 <= k)%Z → round x <= pow2 k.
Proof.
  intros Hx Hle Hk.
  assert (N : ¬ x == 0) by lra.
  rewrite round_value by exact N.
  destruct (ilog2_spec x Hx) as [Hlo _].
  assert (He : (ilog2 x <= k)%Z).
  { assert (ilog2 x < k + 1)%Z; [| lia].
    apply pow2_lt_inv. eapply Qle_lt_trans; [exact Hlo |].
    eapply Qle_lt_trans; [exact Hle |]. apply pow2_lt. lia. }
  pose proof (ulp_exponent_pos x Hx) as Hux.
  set (ux := ulp_exponent x) in *.
  assert (Hk' : (ux <= k)%Z) by lia.
  pose proof (pow2_pos ux) as HU.
  assert (E : pow2 k == inject_Z (2 ^ (k - ux)) * pow2 ux).
  { rewrite <- pow2_Z by lia. rewrite <- pow2_add. f_equiv; lia. }
  rewrite E. apply Qmult_le_compat_r; [| lra].
  rewrite <- Zle_Qle. apply rne_le.
  apply Qle_shift_div_r; [exact HU |]. rewrite <- E. exact Hle.
Qed.

Lemma round_ge_pow2 (x : Q) (k : Z) :
  pow2 k <= x → (-1074 <= k)%Z → pow2 k <= round x.
Proof.
  intros Hle Hk.
  assert (Hx : 0 < x) by (pose proof (pow2_pos k); lra).
  assert (N : ¬ x == 0) by lra.
  rewrite round_value by exact N.
  destruct (ilog2_spec x Hx) as [Hlo Hhi].
  assert (He : (k <= ilog2 x)%Z).
  { assert (k < ilog2 x + 1)%Z; [| lia].
    apply pow2_lt_inv. eapply Qle_lt_trans; [exact Hle | exact Hhi]. }
  pose proof (ulp_exponent_pos x Hx) as Hux.
  set (ux := ulp_exponent x) in *. set (e := ilog2 x) in *.
  assert (Hk' : (ux <= e)%Z) by lia.
  pose proof (pow2_pos ux) as HU.
  assert (E : pow2 e == inject_Z (2 ^ (e - ux)) * pow2 ux).
  { rewrite <- pow2_Z by lia. rewrite <- pow2_add. f_equiv; lia. }
  apply Qle_trans with (pow2 e); [apply pow2_le; exact He |].
  rewrite E. apply Qmult_le_compat_r; [| lra].
  rewrite <- Zle_Qle. apply rne_ge.
  apply Qle_shift_div_l; [exact HU |]. rewrite <- E. exact Hlo.
Qed.

Lemma round_mono_pos (x y : Q) : 0 < x → x <= y → round x <= round y.
Proof.
  intros Hx Hxy. assert (Hy : 0 < y) by lra.
  pose proof (ulp_exponent_mono x y Hx Hxy) as Hu.
  destruct (Z.eq_dec (ulp_exponent x) (ulp_exponent y)) as [E | NE].
  - rewrite !round_value by lra. rewrite E.
    pose proof (pow2_pos (ulp_exponent y)) as HU.
    apply Qmult_le_compat_r; [| lra].
    rewrite <- Zle_Qle. apply rne_mono.
    apply Qmult_le_compat_r; [exact Hxy |].
    apply Qinv_le_0_compat. lra.
  - rewrite (ulp_exponent_pos x Hx), (ulp_exponent_pos y Hy) in *.
    destruct (ilog2_spec x Hx) as [_ Hxhi], (ilog2_spec y Hy) as [Hylo _].
    apply Qle_trans with (pow2 (ilog2 y)).
    + apply round_le_pow2; [exact Hx | | lia].
      apply Qle_trans with (pow2 (ilog2 x + 1)); [lra | apply pow2_le; lia].
    + apply round_ge_pow2; [exact Hylo | lia].
Qed.

(** Rounding is monotone. *)
Lemma round_mono (x y : Q) : x <= y → round x <= round y.
Proof.
  intros Hxy. destruct (Qlt_le_dec 0 x) as [Hx | Hx].
  - by apply round_mono_pos.
  - destruct (Qlt_le_dec y 0) as [Hy | Hy].
    + pose proof (round_mono_pos (- y) (- x) ltac:(lra) ltac:(lra)) as H.
      rewrite !round_opp in H. lra.
    + pose proof (round_nonpos x Hx). pose proof (round_nonneg y Hy). lra.
Qed.

Lemma round_canonical (x : Q) : Qred (round x) = round x.
Proof.
  unfold round. destruct (Qeq_bool x 0); [reflexivity |].
  apply Qred_complete, Qred_correct.
Qed.

Lemma Qred_inject_Z (z : Z) : Qred (inject_Z z) = inject_Z z.
Proof.
  unfold Qred, inject_Z.
  pose proof (Z.ggcd_gcd z 1) as Hg.
  pose proof (Z.ggcd_correct_divisors z 1) as Hd.
  destruct (Z.ggcd z 1) as [g [a b]]. simpl in Hg.
  rewrite Z.gcd_1_r in Hg. subst g. destruct Hd as [Ha Hb].
  f_equal; [lia |]. replace b with 1%Z by lia. reflexivity.
Qed.

Lemma round_eq_Z (x : Q) (z : Z) : round x == inject_Z z → round x = inject_Z z.
Proof.
  intros E. rewrite <- round_canonical.
  rewrite (Qred_complete _ _ E). apply Qred_inject_Z.
Qed.

Lemma ilog2_upper (x : Q) (k : Z) : 0 < x → x < pow2 k → (ilog2 x < k)%Z.
Proof.
  intros Hx Hlt. destruct (ilog2_spec x Hx) as [Hlo _].
  apply pow2_lt_inv. eapply Qle_lt_trans; eassumption.
Qed.

Lemma ilog2_lower (x : Q) (k : Z) : pow2 k <= x → (k <= ilog2 x)%Z.
Proof.
  intros Hle. assert (Hx : 0 < x) by (pose proof (pow2_pos k); lra).
  destruct (ilog2_spec x Hx) as [_ Hhi].
  assert (k < ilog2 x + 1)%Z; [| lia].
  apply pow2_lt_inv. eapply Qle_lt_trans; eassumption.
Qed.

Lemma pow2_split (k u : Z) :
  (u <= k)%Z → pow2 k == inject_Z (2 ^ (k - u)) * pow2 u.
Proof.
  intros H. rewrite <- pow2_Z by lia. rewrite <- pow2_add. f_equiv; lia.
Qed.

(** [m * 2^k] with [0 < m < 2^53] and [k >= -1074] is a double. *)
Lemma round_exact_pos (m k : Z) :
  (0 < m < 2 ^ 53)%Z → (-1074 <= k)%Z →
  round (inject_Z m * pow2 k) == inject_Z m * pow2 k.
Proof.
  intros Hm Hk. set (x := inject_Z m * pow2 k).
  pose proof (pow2_pos k) as Hpk.
  assert (Hm0 : 0 < inject_Z m) by (apply inject_Z_pos; lia).
  assert (Hx : 0 < x) by (unfold x; nra).
  assert (Hlt : x < pow2 (53 + k)).
  { rewrite pow2_add, (pow2_Z 53) by lia. unfold x.
    apply Qmult_lt_compat_r; [exact Hpk |]. rewrite <- Zlt_Qlt. lia. }
  pose proof (ilog2_upper x (53 + k) Hx Hlt) as He.
  pose proof (ulp_exponent_pos x Hx) as Hux.
  rewrite round_value by lra.
  set (ux := ulp_exponent x) in *.
  assert (Hle : (ux <= k)%Z) by lia.
  pose proof (pow2_pos ux) as HU.
  assert (E : x == inject_Z (m * 2 ^ (k - ux)) * pow2 ux).
  { unfold x. rewrite (pow2_split k ux Hle), inject_Z_mult. ring. }
  rewrite (rne_comp (x / pow2 ux) (inject_Z (m * 2 ^ (k - ux)))).
  - rewrite rne_Z. symmetry. exact E.
  - rewrite E at 1. field. lra.
Qed.

Lemma round_exact (m k : Z) :
  (Z.abs m <= 2 ^ 53)%Z → (-1074 <= k)%Z →
  round (inject_Z m * pow2 k) == inject_Z m * pow2 k.
Proof.
  intros Hm Hk.
  assert (Hpos : ∀ m', (0 < m' <= 2 ^ 53)%Z →
            round (inject_Z m' * pow2 k) == inject_Z m' * pow2 k).
  { intros m' Hm'. destruct (Z.eq_dec m' (2 ^ 53)%Z) as [-> | N].
    - assert (E : inject_Z (2 ^ 53) * pow2 k == inject_Z 1 * pow2 (53 + k)).
      { rewrite pow2_add, (pow2_Z 53) by lia. change (inject_Z 1) with 1. ring. }
      rewrite (round_comp _ _ E), E. apply round_exact_pos; lia.
    - apply round_exact_pos; lia. }
  destruct (Z.lt_trichotomy m 0) as [Hneg | [-> | Hp]].
  - assert (E : inject_Z m * pow2 k == - (inject_Z (- m) * pow2 k)).
    { rewrite inject_Z_opp. ring. }
    rewrite (round_comp _ _ E), round_opp, Hpos by lia. rewrite E. reflexivity.
  - rewrite round_zero; [| change (inject_Z 0) with 0; ring].
    change (inject_Z 0) with 0; ring.
  - apply Hpos. lia.
Qed.

(** Integers up to [2^53] in magnitude are doubles. *)
Lemma round_Z (z : Z) : (Z.abs z <= 2 ^ 53)%Z → round (inject_Z z) = inject_Z z.
Proof.
  intros Hz. apply round_eq_Z.
  assert (E : inject_Z z == inject_Z z * pow2 0) by (change (pow2 0) with 1; ring).
  rewrite (round_comp _ _ E), round_exact by lia. symmetry. exact E.
Qed.

Lemma rne_abs_le (x : Q) (m : Z) : Qabs x <= inject_Z m → (Z.abs (rne x) <= m)%Z.
Proof.
  intros H. apply Qabs_Qle_condition in H as [H1 H2].
  rewrite <- inject_Z_opp in H1.
  apply rne_ge in H1. apply rne_le in H2. lia.
Qed.

(** [round x] is [m * 2^u] with [|m| <= 2^53] and [u] the unit exponent. *)
Lemma round_mantissa (x : Q) :
  ¬ x == 0 → (Z.abs (rne (x / pow2 (ulp_exponent x))) <= 2 ^ 53)%Z.
Proof.
  intros N. apply rne_abs_le.
  pose proof (Qabs_positive x N) as Ha.
  destruct (ilog2_spec (Qabs x) Ha) as [_ Hhi].
  pose proof (pow2_pos (ulp_exponent x)) as HU.
  unfold Qdiv. rewrite Qabs_Qmult.
  rewrite (Qabs_pos (/ _)) by (apply Qinv_le_0_compat; lra).
  apply Qle_shift_div_r; [exact HU |].
  rewrite <- pow2_Z by lia. rewrite <- pow2_add.
  apply Qle_trans with (pow2 (ilog2 (Qabs x) + 1)); [lra |].
  apply pow2_le. unfold ulp_exponent. lia.
Qed.

(** Rounding a double changes nothing. *)
Lemma round_idem (x : Q) : round (round x) = round x.
Proof.
  rewrite <- (round_canonical x) at 2. 
  destruct (Qeq_dec x 0) as [Z | N].
  - rewrite (round_zero x Z). reflexivity.
  - rewrite (round_comp _ _ (round_value x N)).
    rewrite <- round_canonical. apply Qred_complete.
    rewrite round_exact; [symmetry; apply round_value; exact N | |].
    + by apply round_mantissa.
    + apply ulp_exponent_min.
Qed.

(** The rounding of an integer is an integer. *)
Lemma round_Z_integer (z : Z) : ∃ z', round (inject_Z z) = inject_Z z'.
Proof.
  destruct (Z_le_gt_dec (Z.abs z) (2 ^ 53)) as [Hs | Hb].
  - exists z. by apply round_Z.
  - set (x := inject_Z z).
    assert (N : ¬ x == 0).
    { unfold x. change 0 with (inject_Z 0). rewrite inject_Z_injective. lia. }
    assert (Ha : pow2 53 <= Qabs x).
    { unfold x. rewrite (pow2_Z 53) by lia.
      rewrite <- (Qabs_pos (inject_Z (2 ^ 53))) by (change 0 with (inject_Z 0); rewrite <- Zle_Qle; lia).
      unfold Qabs, inject_Z, Qle; simpl. lia. }
    pose proof (ilog2_lower _ _ Ha) as He.
    assert (Hu : (1 <= ulp_exponent x)%Z) by (unfold ulp_exponent; lia).
    exists (rne (x / pow2 (ulp_exponent x)) * 2 ^ ulp_exponent x)%Z.
    apply round_eq_Z. rewrite round_value by exact N.
    rewrite inject_Z_mult, <- pow2_Z by lia. reflexivity.
Qed.

(** ** Doubles *)

Lemma is_double_round (x : Q) : is_double (round x).
Proof. unfold is_double. rewrite round_idem. reflexivity. Qed.

Lemma is_double_Z (z : Z) : (Z.abs z <= 2 ^ 53)%Z → is_double (inject_Z z).
Proof. intros H. unfold is_double. rewrite round_Z by exact H. reflexivity. Qed.

Lemma round_le_double (x d : Q) : is_double d → x <= d → round x <= d.
Proof. unfold is_double. intros Hd Hx. rewrite <- Hd. by apply round_mono. Qed.

Lemma round_ge_double (x d : Q) : is_double d → d <= x → d <= round x.
Proof. unfold is_double. intros Hd Hx. rewrite <- Hd. by apply round_mono. Qed.

(** The largest double below [1] is [1 - 2^-53]. *)
Lemma double_below_one (u : Q) : is_double u → u < 1 → u <= 1 - pow2 (-53).
Proof.
  intros Hd Hlt. destruct (Qlt_le_dec (1 - pow2 (-53)) u) as [Hgt | Hle]; [| exact Hle].
  exfalso.
  assert (Hu : 0 < u) by (change (pow2 (-53)) with (1 # 9007199254740992) in Hgt; lra).
  assert (He : ilog2 u = (-1)%Z).
  { apply ilog2_unique; [exact Hu | | exact Hlt].
    change (pow2 (-1)) with (1 # 2). change (pow2 (-53)) with (1 # 9007199254740992) in Hgt. lra. }
  pose proof (ulp_exponent_pos u Hu) as Hux. rewrite He in Hux.
  change (Z.max (-1 - 52) (-1074)) with (-53)%Z in Hux.
  unfold is_double in Hd. rewrite round_value, Hux in Hd by lra.
  set (m := rne (u / pow2 (-53))) in *.
  assert (H1 : inject_Z (2 ^ 53 - 1) * pow2 (-53) < inject_Z m * pow2 (-53)).
  { rewrite Hd. eapply Qle_lt_trans; [| exact Hgt]. vm_compute. discriminate. }
  assert (H2 : inject_Z m * pow2 (-53) < inject_Z (2 ^ 53) * pow2 (-53)).
  { rewrite Hd. eapply Qlt_le_trans; [exact Hlt |]. vm_compute. discriminate. }
  pose proof (pow2_pos (-53)) as HU.
  apply Qmult_lt_r in H1, H2; try exact HU.
  rewrite <- Zlt_Qlt in H1, H2. lia.
Qed.

(** A draw below [1] scaled by [n >= 1] rounds to a double below [n]. *)
Lemma round_scaled_below (u n : Q) :
  0 <= u → u <= 1 - pow2 (-53) → 1 <= n → round (u * n) < n.
Proof.
  intros Hu0 Hu1 Hn.
  change (pow2 (-53)) with (1 # 9007199254740992) in Hu1.
  set (x := u * n).
  assert (Hx0 : 0 <= x) by (unfold x; nra).
  assert (Hxn : x <= n * (1 - (1 # 9007199254740992))) by (unfold x; nra).
  destruct (Qeq_dec x 0) as [Z | N].
  - rewrite (round_zero x Z). lra.
  - assert (Hx : 0 < x) by lra.
    destruct (Z_le_gt_dec (-1074) (ilog2 x - 52)) as [Hnorm | Hsub].
    + destruct (round_error x N) as [_ Hhi].
      rewrite (ulp_exponent_pos x Hx) in Hhi.
      rewrite Z.max_l in Hhi by exact Hnorm.
      destruct (ilog2_spec x Hx) as [Hlo _].
      rewrite pow2_sub in Hhi. change (pow2 52) with (4503599627370496 # 1) in Hhi.
      set (p := pow2 (ilog2 x)) in *.
      assert (Hp : p / (4503599627370496 # 1) == p * (1 # 4503599627370496)) by (field).
      rewrite Hp in Hhi. nra.
    + apply Qle_lt_trans with (pow2 (-1022)).
      * apply round_le_pow2; [exact Hx | | lia].
        destruct (ilog2_spec x Hx) as [_ Hhi].
        apply Qle_trans with (pow2 (ilog2 x + 1)); [lra | apply pow2_le; lia].
      * eapply Qlt_le_trans; [| exact Hn].
        change 1 with (pow2 0). apply pow2_lt. lia.
Qed.

Lemma ilog2_Z (k : Z) :
  (1 <= k)%Z →
  let e := ilog2 (inject_Z k) in
  (0 <= e)%Z ∧ (2 ^ e <= k < 2 ^ (e + 1))%Z.
Proof.
  intros Hk e.
  assert (Hx : 0 < inject_Z k) by (apply inject_Z_pos; lia).
  destruct (ilog2_spec _ Hx) as [Hlo Hhi]. fold e in Hlo, Hhi.
  assert (He : (0 <= e)%Z).
  { apply ilog2_lower. change (pow2 0) with (inject_Z 1). rewrite <- Zle_Qle. lia. }
  rewrite pow2_Z in Hlo, Hhi by lia. rewrite <- Zle_Qle in Hlo. rewrite <- Zlt_Qlt in Hhi.
  auto.
Qed.

(** The quotient of two positive integers, the dividend below [2^53],
    rounds to a double with the same integer part. *)
Lemma round_div_bounds (a b : Z) :
  (0 < a < 2 ^ 53)%Z → (0 < b)%Z →
  inject_Z (a / b) <= round (inject_Z a / inject_Z b)
  ∧ round (inject_Z a / inject_Z b) < inject_Z (a / b + 1).
Proof.
  intros Ha Hb. set (k := (a / b)%Z). set (x := inject_Z a / inject_Z b).
  assert (Hk1 : (k * b <= a)%Z) by (unfold k; rewrite Z.mul_comm; apply Z.mul_div_le; lia).
  assert (Hk2 : (a < (k + 1) * b)%Z).
  { unfold k. rewrite Z.mul_comm. apply Z.mul_succ_div_gt. lia. }
  assert (Hk0 : (0 <= k)%Z) by (apply Z.div_pos; lia).
  assert (Hkb : (k <= a)%Z) by nia.
  assert (Hb0 : 0 < inject_Z b) by (apply inject_Z_pos; lia).
  assert (Hxlo : inject_Z k <= x).
  { apply Qle_shift_div_l; [exact Hb0 |]. rewrite <- inject_Z_mult, <- Zle_Qle. exact Hk1. }
  assert (Hxhi : x <= inject_Z ((k + 1) * b - 1) / inject_Z b).
  { apply Qdiv_le_cross; [exact Hb0 | exact Hb0 |].
    rewrite <- !inject_Z_mult, <- Zle_Qle. nia. }
  split; [apply round_ge_double; [apply is_double_Z; lia | exact Hxlo] |].
  destruct (Z.eq_dec k 0%Z) as [K0 | K1].
  - rewrite K0 in *. change (inject_Z (0 + 1)) with 1.
    apply Qle_lt_trans with (1 - pow2 (-53)); [| vm_compute; reflexivity].
    apply round_le_double.
    + assert (E : 1 - pow2 (-53) == inject_Z (2 ^ 53 - 1) * pow2 (-53)) by reflexivity.
      unfold is_double. rewrite (round_comp _ _ E), E. apply round_exact; lia.
    + change (1 - pow2 (-53)) with (inject_Z (2 ^ 53 - 1) / inject_Z (2 ^ 53)).
      apply Qdiv_le_cross; [exact Hb0 | reflexivity |].
      rewrite <- !inject_Z_mult, <- Zle_Qle. lia.
  - pose proof (ilog2_Z k ltac:(lia)) as [He0 [He1 He2]].
    set (e := ilog2 (inject_Z k)) in *.
    assert (He52 : (e <= 52)%Z).
    { assert (e < 53)%Z; [| lia]. apply (Z.pow_lt_mono_r_iff 2); lia. }
    assert (Hx : 0 < x).
    { eapply Qlt_le_trans; [| exact Hxlo]. apply inject_Z_pos. lia. }
    assert (Hex : ilog2 x = e).
    { apply ilog2_unique; [exact Hx | |].
      - rewrite pow2_Z by lia. eapply Qle_trans; [| exact Hxlo]. rewrite <- Zle_Qle. lia.
      - rewrite pow2_Z by lia. eapply Qle_lt_trans; [exact Hxhi |].
        apply Qlt_shift_div_r; [exact Hb0 |].
        rewrite <- inject_Z_mult, <- Zlt_Qlt. nia. }
    pose proof (ulp_exponent_pos x Hx) as Hux. rewrite Hex in Hux.
    rewrite Z.max_l in Hux by lia.
    rewrite round_value, Hux by lra.
    set (s := (2 ^ (52 - e))%Z).
    assert (Hs : (0 < s)%Z) by (apply Z.pow_pos_nonneg; lia).
    assert (Hse : (s * 2 ^ e = 2 ^ 52)%Z).
    { unfold s. rewrite <- Z.pow_add_r by lia. f_equal. lia. }
    assert (HU : pow2 (e - 52) == 1 / inject_Z s).
    { unfold s. rewrite <- pow2_Z by lia.
      replace (e - 52)%Z with (0 - (52 - e))%Z by lia. rewrite pow2_sub. reflexivity. }
    assert (Hs0 : 0 < inject_Z s) by (apply inject_Z_pos; lia).
    assert (Hbs : (b < 2 * s)%Z) by nia.
    assert (Hbs' : inject_Z b < 2 * inject_Z s).
    { change 2 with (inject_Z 2). rewrite <- inject_Z_mult, <- Zlt_Qlt. lia. }
    assert (Hhalf : 1 # 2 < inject_Z s / inject_Z b).
    { apply Qlt_shift_div_l; [exact Hb0 | lra]. }
    assert (EK : inject_Z ((k + 1) * b - 1) == (inject_Z k + 1) * inject_Z b - 1).
    { unfold Z.sub. rewrite inject_Z_plus, inject_Z_mult, inject_Z_plus. reflexivity. }
    assert (EM : inject_Z ((k + 1) * s) == (inject_Z k + 1) * inject_Z s).
    { rewrite inject_Z_mult, inject_Z_plus. reflexivity. }
    assert (Hr : (rne (x / pow2 (e - 52)) <= (k + 1) * s - 1)%Z).
    { apply rne_below_half.
      assert (E : x / pow2 (e - 52) == x * inject_Z s) by (rewrite HU; field; lra).
      rewrite E, EM.
      apply Qle_lt_trans with (inject_Z ((k + 1) * b - 1) / inject_Z b * inject_Z s).
      { apply Qmult_le_compat_r; [exact Hxhi | lra]. }
      rewrite EK.
      set (B := inject_Z b) in *. set (S' := inject_Z s) in *. set (K := inject_Z k) in *.
      assert (E3 : ((K + 1) * B - 1) / B * S' == ((K + 1) * S') - S' / B) by (field; lra).
      rewrite E3. lra. }
    apply Qle_lt_trans with (inject_Z ((k + 1) * s - 1) * pow2 (e - 52)).
    { apply Qmult_le_compat_r; [| pose proof (pow2_pos (e - 52)); lra].
      rewrite <- Zle_Qle. exact Hr. }
    rewrite HU. unfold Z.sub. rewrite inject_Z_plus, EM, inject_Z_plus.
    change (inject_Z (-1)) with (-1). change (inject_Z 1) with 1.
    set (S' := inject_Z s) in *. set (K := inject_Z k) in *.
    assert (E4 : ((K + 1) * S' + -1) * (1 / S') == (K + 1) - 1 / S') by (field; lra).
    rewrite E4.
    assert (0 < 1 / S') by (apply Qlt_shift_div_l; lra).
    lra.
Qed.

Lemma floor_round_div (a b : Z) :
  (0 < a < 2 ^ 53)%Z → (0 < b)%Z →
  Qfloor (round (inject_Z a / inject_Z b)) = (a / b)%Z.
Proof.
  intros Ha Hb. destruct (round_div_bounds a b Ha Hb) as [Hlo Hhi].
  apply Qfloor_resp_le in Hlo. rewrite Qfloor_Z in Hlo.
  assert (Hlt : (Qfloor (round (inject_Z a / inject_Z b)) < a / b + 1)%Z).
  { rewrite Zlt_Qlt. eapply Qle_lt_trans; [apply Qfloor_le | exact Hhi]. }
  lia.
Qed.





(** The relative error of rounding a number of the normal range. *)
Lemma round_relative (x : Q) :
  pow2 (-1022) <= x →
  x * (1 - pow2 (-53)) <= round x ∧ round x <= x * (1 + pow2 (-53)).
Proof.
  intros Hn. pose proof (pow2_pos (-1022)) as Hp.
  assert (Hx : 0 < x) by lra.
  pose proof (ilog2_lower x (-1022) Hn) as He.
  destruct (round_error x ltac:(lra)) as [Hlo Hhi].
  rewrite (ulp_exponent_pos x Hx), Z.max_l in Hlo, Hhi by lia.
  destruct (ilog2_spec x Hx) as [Hle _].
  rewrite pow2_sub in Hlo, Hhi.
  change (pow2 52) with (4503599627370496 # 1) in Hlo, Hhi.
  change (pow2 (-53)) with (1 # 9007199254740992).
  set (p := pow2 (ilog2 x)) in *.
  assert (Hq : p / (4503599627370496 # 1) == p * (1 # 4503599627370496)) by field.
  rewrite Hq in Hlo, Hhi. split; nra.
Qed.

(** For an index [j] of [[0, n)], [n <= 2^51], the double nearest to
    [(j + 1/2) / n] is a draw on which [Math.floor(u * n)] is [j]. *)
Lemma index_draw (j n : Z) :
  (0 <= j < n)%Z → (n <= 2 ^ 51)%Z →
  let u := round (inject_Z (2 * j + 1) / inject_Z (2 * n)) in
  0 <= u ∧ u < 1 ∧ is_double u ∧ Qfloor (round (u * inject_Z n)) = j.
Proof.
  intros Hj Hn u.
  set (x := inject_Z (2 * j + 1) / inject_Z (2 * n)) in *.
  set (N := inject_Z n). set (J := inject_Z j).
  assert (HN : 1 <= N) by (unfold N; change 1 with (inject_Z 1); rewrite <- Zle_Qle; lia).
  assert (HN' : N <= inject_Z (2 ^ 51)) by (unfold N; rewrite <- Zle_Qle; lia).
  assert (HJ0 : 0 <= J) by (unfold J; change 0 with (inject_Z 0); rewrite <- Zle_Qle; lia).
  assert (HJN : J + 1 <= N).
  { unfold J, N. change 1 with (inject_Z 1). rewrite <- inject_Z_plus, <- Zle_Qle. lia. }
  change (inject_Z (2 ^ 51)) with (2251799813685248 # 1) in HN'.
  assert (Ex : x * N == J + (1 # 2)).
  { unfold x. rewrite !inject_Z_plus, !inject_Z_mult. fold N J.
    change (inject_Z 2) with 2. change (inject_Z 1) with 1. field. lra. }
  assert (Hx0 : 0 < x).
  { apply Qlt_shift_div_l; [apply inject_Z_pos; lia |].
    rewrite Qmult_0_l. apply inject_Z_pos. lia. }
  assert (Hxn : pow2 (-1022) <= x).
  { apply Qle_trans with (pow2 (-52)); [apply pow2_le; lia |].
    change (pow2 (-52)) with (1 # 4503599627370496). nra. }
  destruct (round_relative x Hxn) as [Hlo Hhi]. fold u in Hlo, Hhi.
  change (pow2 (-53)) with (1 # 9007199254740992) in Hlo, Hhi.
  assert (Hu0 : 0 <= u) by (apply round_nonneg; lra).
  assert (Htop : is_double (1 - pow2 (-52))).
  { assert (E : 1 - pow2 (-52) == inject_Z (2 ^ 52 - 1) * pow2 (-52)) by reflexivity.
    unfold is_double. rewrite (round_comp _ _ E), E. apply round_exact; lia. }
  assert (Hu1 : u <= 1 - pow2 (-52)).
  { apply round_le_double; [exact Htop |].
    change (pow2 (-52)) with (1 # 4503599627370496). nra. }
  change (pow2 (-52)) with (1 # 4503599627370496) in Hu1.
  split; [exact Hu0 |]. split; [lra |]. split; [apply is_double_round |].
  assert (Hq1 : is_double (J + (1 # 4))).
  { assert (E : J + (1 # 4) == inject_Z (4 * j + 1) * pow2 (-2)).
    { unfold J. rewrite inject_Z_plus, inject_Z_mult.
      change (pow2 (-2)) with (1 # 4). change (inject_Z 4) with 4.
      change (inject_Z 1) with 1. ring. }
    unfold is_double. rewrite (round_comp _ _ E), E. apply round_exact; lia. }
  assert (Hq3 : is_double (J + (3 # 4))).
  { assert (E : J + (3 # 4) == inject_Z (4 * j + 3) * pow2 (-2)).
    { unfold J. rewrite inject_Z_plus, inject_Z_mult.
      change (pow2 (-2)) with (1 # 4). change (inject_Z 4) with 4.
      change (inject_Z 3) with 3. ring. }
    unfold is_double. rewrite (round_comp _ _ E), E. apply round_exact; lia. }
  assert (Hlo' : J + (1 # 4) <= round (u * N)).
  { apply round_ge_double; [exact Hq1 | nra]. }
  assert (Hhi' : round (u * N) <= J + (3 # 4)).
  { apply round_le_double; [exact Hq3 | nra]. }
  assert (H1 : (j <= Qfloor (round (u * N)))%Z).
  { rewrite <- (Qfloor_Z j). apply Qfloor_resp_le. fold J. lra. }
  assert (H2 : (Qfloor (round (u * N)) < j + 1)%Z).
  { rewrite Zlt_Qlt. eapply Qle_lt_trans; [apply Qfloor_le |].
    rewrite inject_Z_plus. fold J. change (inject_Z 1) with 1. lra. }
  lia.
Qed.

End Rounding.

(** ** Facts on the arithmetic of numbers *)

Section NumberFacts.

Local Open Scope Q_scope.


Lemma safe_below_MAX_VALUE (z : Z) : (Z.abs z <= 2 ^ 53)%Z → Qabs (inject_Z z) <= MAX_VALUE.
Proof.
  intros H. apply Qle_trans with (inject_Z (2 ^ 53)); [| vm_compute; discriminate].
  apply Qabs_Qle_condition. rewrite <- inject_Z_opp, <- !Zle_Qle. lia.
Qed.

Lemma binary64_Z (z : Z) : (Z.abs z <= 2 ^ 53)%Z → binary64 (inject_Z z).
Proof. intros H. split; [by apply is_double_Z | by apply safe_below_MAX_VALUE]. Qed.

Lemma fl_comp (x y : Q) : x == y → fl x = fl y.
Proof. intros E. unfold fl. rewrite (round_comp x y E). reflexivity. Qed.

Lemma fl_finite (x : Q) : Qabs (round x) <= MAX_VALUE → fl x = Finite (round x).
Proof.
  intros H. unfold fl. apply Qle_bool_iff in H. cbv zeta. rewrite H. reflexivity.
Qed.

(** Between two finite doubles the rounded value is finite and stays
    between them. *)
Lemma fl_between (lo hi x : Q) :
  binary64 lo → binary64 hi → lo <= x → x <= hi →
  fl x = Finite (round x) ∧ lo <= round x ∧ round x <= hi.
Proof.
  intros [Hlo Hlo'] [Hhi Hhi'] H1 H2.
  pose proof (round_ge_double x lo Hlo H1) as Ha.
  pose proof (round_le_double x hi Hhi H2) as Hb.
  split; [| split; assumption].
  apply fl_finite. apply Qabs_Qle_condition.
  apply Qabs_Qle_condition in Hlo' as [Hl1 Hl2].
  apply Qabs_Qle_condition in Hhi' as [Hh1 Hh2].
  split; lra.
Qed.

Lemma fl_Z (z : Z) : (Z.abs z <= 2 ^ 53)%Z → fl (inject_Z z) = of_Z z.
Proof.
  intros H. rewrite fl_finite; rewrite round_Z by exact H; [reflexivity |].
  by apply safe_below_MAX_VALUE.
Qed.

(** An integer between two integer doubles rounds to an integer between
    them. *)
Lemma fl_Z_between (lo hi z : Z) :
  binary64 (inject_Z lo) → binary64 (inject_Z hi) → (lo <= z <= hi)%Z →
  ∃ r, fl (inject_Z z) = of_Z r ∧ (lo <= r <= hi)%Z.
Proof.
  intros Hlo Hhi Hz.
  destruct (fl_between (inject_Z lo) (inject_Z hi) (inject_Z z) Hlo Hhi)
    as (Hfl & H1 & H2); [rewrite <- Zle_Qle; lia | rewrite <- Zle_Qle; lia |].
  destruct (round_Z_integer z) as [r Hr].
  exists r. rewrite Hfl, Hr in *. split; [reflexivity |].
  rewrite <- !Zle_Qle in *. lia.
Qed.

Lemma fl_binary64 (x : Q) : binary64 x → fl x = Finite (round x).
Proof.
  intros [Hd Hb]. apply fl_finite. unfold is_double in Hd. rewrite Hd. exact Hb.
Qed.

Lemma js_add_Z (a b : Z) :
  (Z.abs (a + b) <= 2 ^ 53)%Z → js_add (of_Z a) (of_Z b) = of_Z (a + b).
Proof.
  intros H. unfold of_Z. cbn [js_add].
  rewrite (fl_comp _ (inject_Z (a + b))) by (rewrite inject_Z_plus; reflexivity).
  by apply fl_Z.
Qed.

Lemma js_sub_Z (a b : Z) :
  (Z.abs (a - b) <= 2 ^ 53)%Z → js_sub (of_Z a) (of_Z b) = of_Z (a - b).
Proof.
  intros H. unfold of_Z, js_sub. cbn [js_neg js_add].
  rewrite (fl_comp _ (inject_Z (a - b)))
    by (unfold Z.sub; rewrite inject_Z_plus, inject_Z_opp; reflexivity).
  by apply fl_Z.
Qed.

Lemma js_mul_Z (a b : Z) :
  (Z.abs (a * b) <= 2 ^ 53)%Z → js_mul (of_Z a) (of_Z b) = of_Z (a * b).
Proof.
  intros H. unfold of_Z. cbn [js_mul].
  rewrite (fl_comp _ (inject_Z (a * b))) by (rewrite inject_Z_mult; reflexivity).
  by apply fl_Z.
Qed.

Lemma js_compare_Z (a b : Z) : js_compare (of_Z a) (of_Z b) = Some (a ?= b)%Z.
Proof.
  unfold of_Z. cbn [js_compare]. f_equal.
  unfold Qcompare, inject_Z; simpl. rewrite !Z.mul_1_r. reflexivity.
Qed.

Lemma js_gt_Z (a b : Z) : js_gt (of_Z a) (of_Z b) = (a >? b)%Z.
Proof. unfold js_gt. rewrite js_compare_Z. unfold Z.gtb. by destruct (a ?= b)%Z. Qed.

Lemma js_lt_Z (a b : Z) : js_lt (of_Z a) (of_Z b) = (a <? b)%Z.
Proof. unfold js_lt. rewrite js_compare_Z. unfold Z.ltb. by destruct (a ?= b)%Z. Qed.

Lemma js_le_Z (a b : Z) : js_le (of_Z a) (of_Z b) = (a <=? b)%Z.
Proof. unfold js_le. rewrite js_compare_Z. unfold Z.leb. by destruct (a ?= b)%Z. Qed.

Lemma js_ge_Z (a b : Z) : js_ge (of_Z a) (of_Z b) = (a >=? b)%Z.
Proof. unfold js_ge. rewrite js_compare_Z. unfold Z.geb. by destruct (a ?= b)%Z. Qed.

Lemma js_eq_Z (a b : Z) : js_eq (of_Z a) (of_Z b) = (a =? b)%Z.
Proof.
  unfold js_eq. rewrite js_compare_Z.
  destruct (Z.compare_spec a b), (Z.eqb_spec a b); (reflexivity || lia).
Qed.

Lemma Number_isInteger_Z (z : Z) : Number_isInteger (of_Z z) = true.
Proof.
  unfold of_Z. cbn [Number_isInteger]. rewrite Qfloor_Z. apply Qeq_bool_iff. reflexivity.
Qed.

(** [Math.floor(u * n)] for a double draw and an integer [1 <= n <= 2^53]
    is an integer of [[0, n)]. *)
Lemma floor_draw_value (u : Q) (n : Z) :
  Double.double_draw u → (1 <= n <= 2 ^ 53)%Z →
  Math_floor (js_mul (Finite u) (of_Z n))
  = of_Z (Qfloor (round (u * inject_Z n)))
  ∧ (0 <= Qfloor (round (u * inject_Z n)) < n)%Z.
Proof.
  intros [[Hu0 Hu1] Hd] Hn.
  pose proof (double_below_one u Hd Hu1) as Hu.
  assert (Hn1 : 1 <= inject_Z n).
  { change 1 with (inject_Z 1). rewrite <- Zle_Qle. lia. }
  pose proof (round_scaled_below u (inject_Z n) Hu0 Hu Hn1) as Hlt.
  assert (H0 : 0 <= round (u * inject_Z n)) by (apply round_nonneg; nra).
  unfold of_Z at 1. cbn [js_mul]. rewrite fl_finite.
  - cbn [Math_floor]. split; [reflexivity |].
    split.
    + rewrite <- (Qfloor_Z 0). by apply Qfloor_resp_le.
    + rewrite Zlt_Qlt. eapply Qle_lt_trans; [apply Qfloor_le | exact Hlt].
  - rewrite Qabs_pos by exact H0.
    apply Qle_trans with (inject_Z n); [lra |].
    rewrite <- (Qabs_pos (inject_Z n)) by lra.
    apply safe_below_MAX_VALUE. lia.
Qed.

Lemma floor_draw (u : Q) (n : Z) :
  Double.double_draw u → (1 <= n <= 2 ^ 53)%Z →
  ∃ k, Math_floor (js_mul (Finite u) (of_Z n)) = of_Z k ∧ (0 <= k < n)%Z.
Proof.
  intros Hu Hn. destruct (floor_draw_value u n Hu Hn) as [E Hr]. eauto.
Qed.

(** Every index of [[0, n)], [n <= 2^51], is [Math.floor(u * n)] for
    some double draw. *)
Lemma floor_draw_reaches (j n : Z) :
  (0 <= j < n)%Z → (n <= 2 ^ 51)%Z →
  ∃ u, Double.double_draw u
       ∧ Math_floor (js_mul (Finite u) (of_Z n)) = of_Z j.
Proof.
  intros Hj Hn. destruct (index_draw j n Hj Hn) as (H0 & H1 & Hd & Hf).
  set (u := round (inject_Z (2 * j + 1) / inject_Z (2 * n))) in *.
  assert (Hu : Double.double_draw u) by (repeat split; assumption).
  exists u. split; [exact Hu |].
  destruct (floor_draw_value u n Hu ltac:(lia)) as [E _].
  rewrite E, Hf. reflexivity.
Qed.

(** The draw [0] gives index [0]; the draw [1 - 2^-53] gives [n - 1]. *)
Lemma double_draw_zero : Double.double_draw 0.
Proof. split; [split; lra | unfold is_double; rewrite round_zero; reflexivity]. Qed.

Lemma double_draw_top : Double.double_draw top_draw.
Proof.
  split; [split; unfold top_draw; lra |].
  assert (E : top_draw == inject_Z (2 ^ 53 - 1) * pow2 (-53)) by reflexivity.
  unfold is_double. rewrite (round_comp _ _ E), E. apply round_exact; lia.
Qed.

Lemma floor_draw_zero (n : number) :
  Number_isFinite n = true → Math_floor (js_mul (Finite 0) n) = of_Z 0.
Proof.
  destruct n as [q | | |]; try discriminate. intros _.
  cbn [js_mul]. rewrite (fl_comp _ (inject_Z 0)) by (change (inject_Z 0) with 0; ring).
  rewrite fl_Z by lia. reflexivity.
Qed.

Lemma floor_draw_top (n : Z) :
  (1 <= n <= 2 ^ 53)%Z →
  Math_floor (js_mul (Finite top_draw) (of_Z n)) = of_Z (n - 1).
Proof.
  intros Hn. destruct (floor_draw top_draw n double_draw_top Hn) as (k & Hk & Hr).
  rewrite Hk. f_equal.
  assert (n - 1 <= k)%Z; [| f_equal; lia].
  unfold of_Z in Hk. cbn [js_mul Math_floor] in Hk.
  assert (Hge : inject_Z (n - 1) <= round (top_draw * inject_Z n)).
  { apply round_ge_double; [apply is_double_Z; lia |].
    unfold Z.sub. rewrite inject_Z_plus, inject_Z_opp. change (inject_Z 1) with 1.
    assert (inject_Z n <= inject_Z (2 ^ 53)) by (rewrite <- Zle_Qle; lia).
    change (inject_Z (2 ^ 53)) with (9007199254740992 # 1) in *.
    unfold top_draw. lra. }
  assert (Hfl : fl (top_draw * inject_Z n) = Finite (round (top_draw * inject_Z n))).
  { unfold fl in Hk |- *. cbv zeta in *.
    destruct (Qle_bool _ MAX_VALUE); [reflexivity |].
    destruct (Qle_bool 0 _); discriminate. }
  rewrite Hfl in Hk. injection Hk as Hk.
  apply Qfloor_resp_le in Hge. rewrite Qfloor_Z in Hge.
  lia.
Qed.

End NumberFacts.

(** ** The rounding against primitive floats *)

(** [round] against the processor: sums, products and quotients that
    are rounded up, down and to even, that overflow and that are
    subnormal. *)
Example arithmetic_on_floats :
  let x := Binary64.one_third in
  let big := PrimFloat.mul (Binary64.of_Z (2 ^ 53 - 1)) (Binary64.of_Z (2 ^ 971)) in
  let tiny := PrimFloat.div (Binary64.of_Z 1) (Binary64.of_Z (2 ^ 1000)) in
  Binary64.to_number big = Finite MAX_VALUE
  ∧ Binary64.to_number (PrimFloat.mul x (Binary64.of_Z 3))
    = js_mul (Binary64.to_number x) (of_Z 3)
  ∧ Binary64.to_number (PrimFloat.div (Binary64.of_Z 1) (Binary64.of_Z 3))
    = js_div (of_Z 1) (of_Z 3)
  ∧ Binary64.to_number (PrimFloat.add (Binary64.of_Z (2 ^ 53)) (Binary64.of_Z 1))
    = js_add (of_Z (2 ^ 53)) (of_Z 1)
  ∧ Binary64.to_number (PrimFloat.add (Binary64.of_Z (2 ^ 53 + 2)) (Binary64.of_Z 1))
    = js_add (of_Z (2 ^ 53 + 2)) (of_Z 1)
  ∧ Binary64.to_number (PrimFloat.sub (Binary64.of_Z 1) x)
    = js_sub (of_Z 1) (Binary64.to_number x)
  ∧ Binary64.to_number (PrimFloat.add big big)
    = js_add (Binary64.to_number big) (Binary64.to_number big)
  ∧ Binary64.to_number (PrimFloat.add big (Binary64.of_Z (2 ^ 969)))
    = js_add (Binary64.to_number big) (of_Z (2 ^ 969))
  ∧ Binary64.to_number (PrimFloat.add big (Binary64.of_Z (2 ^ 970)))
    = js_add (Binary64.to_number big) (of_Z (2 ^ 970))
  ∧ Binary64.to_number (PrimFloat.mul tiny tiny)
    = js_mul (Binary64.to_number tiny) (Binary64.to_number tiny)
  ∧ Binary64.to_number (PrimFloat.mul tiny x)
    = js_mul (Binary64.to_number tiny) (Binary64.to_number x)
  ∧ Binary64.to_number (PrimFloat.div (PrimFloat.mul tiny x) (Binary64.of_Z (2 ^ 70)))
    = js_div (js_mul (Binary64.to_number tiny) (Binary64.to_number x)) (of_Z (2 ^ 70))
  ∧ Binary64.to_number (PrimFloat.div big tiny)
    = js_div (Binary64.to_number big) (Binary64.to_number tiny)
  ∧ Binary64.to_number (Binary64.Math_floor (PrimFloat.opp x))
    = Math_floor (js_neg (Binary64.to_number x)).
Proof. cbv zeta. repeat split; vm_compute; reflexivity. Qed.

(** ** Double.randint *)

Section DoubleFacts.

Lemma fl_Z_double (z : Z) : binary64 (inject_Z z) → fl (inject_Z z) = of_Z z.
Proof.
  intros Hb. rewrite fl_binary64 by exact Hb. unfold of_Z. f_equal.
  apply round_eq_Z. apply Hb.
Qed.

Lemma js_add_Z_between (lo hi a b : Z) :
  binary64 (inject_Z lo) → binary64 (inject_Z hi) → lo <= a + b <= hi →
  ∃ r, js_add (of_Z a) (of_Z b) = of_Z r ∧ lo <= r <= hi.
Proof.
  intros Hlo Hhi Hab. unfold of_Z at 1 2. cbn [js_add].
  rewrite (fl_comp _ (inject_Z (a + b))) by (rewrite inject_Z_plus; reflexivity).
  by apply (fl_Z_between lo hi).
Qed.

Lemma js_add_Z_double (a b : Z) :
  binary64 (inject_Z (a + b)) → js_add (of_Z a) (of_Z b) = of_Z (a + b).
Proof.
  intros H. unfold of_Z at 1 2. cbn [js_add].
  rewrite (fl_comp _ (inject_Z (a + b))) by (rewrite inject_Z_plus; reflexivity).
  by apply fl_Z_double.
Qed.

Lemma double_random (u : Q) (rest : list Q) :
  Double.random (u :: rest) = Returned (Finite u) rest.
Proof. reflexivity. Qed.

Lemma double_randint_runs (min max : Z) (u : Q) (rest : list Q) :
  min <= max →
  max - min + 1 <= MAX_SAFE_INTEGER →
  Double.randint (of_Z min) (of_Z max) (u :: rest)
  = Returned
      (js_add (Math_floor (js_mul (Finite u) (of_Z (max - min + 1)))) (of_Z min))
      rest.
Proof.
  unfold MAX_SAFE_INTEGER. intros Hord Hsafe. unfold Double.randint.
  rewrite !Number_isInteger_Z. cbn [negb orb].
  rewrite js_gt_Z. destruct (Z.gtb_spec min max); [lia |].
  rewrite js_sub_Z, js_add_Z by lia. cbv zeta.
  rewrite js_gt_Z. unfold MAX_SAFE_INTEGER.
  destruct (Z.gtb_spec (max - min + 1) 9007199254740991); [lia |].
  reflexivity.
Qed.

End DoubleFacts.

(** C2: for integers [min <= max] whose range fits the safe integers and
    every draw [u], a double of [[0,1)], [randint] returns
    [Math.floor(u * range) + min] as the source rounds it, which is an
    integer of [[min, max]]; and both [min] and [max] are returned for
    some draw. *)
Theorem randint_within_bounds (min max : Z) (u : Q) (rest : list Q) :
  binary64 (inject_Z min) →
  binary64 (inject_Z max) →
  min <= max →
  max - min + 1 <= MAX_SAFE_INTEGER →
  Double.double_draw u →
  (∃ r,
     Double.randint (of_Z min) (of_Z max) (u :: rest) = Returned (of_Z r) rest
     ∧ of_Z r
       = js_add (Math_floor (js_mul (Finite u) (of_Z (max - min + 1)))) (of_Z min)
     ∧ min <= r <= max)
  ∧ (∃ u0, Double.double_draw u0
       ∧ Double.randint (of_Z min) (of_Z max) (u0 :: rest)
         = Returned (of_Z min) rest)
  ∧ (∃ u1, Double.double_draw u1
       ∧ Double.randint (of_Z min) (of_Z max) (u1 :: rest)
         = Returned (of_Z max) rest).
Proof.
  intros Hmin Hmax Hord Hsafe Hu.
  assert (Hn : 1 <= max - min + 1 <= 2 ^ 53) by (unfold MAX_SAFE_INTEGER in Hsafe; lia).
  split; [| split].
  - destruct (floor_draw u _ Hu Hn) as (k & Hk & Hr).
    destruct (js_add_Z_between min max k min Hmin Hmax ltac:(lia)) as (r & Hadd & Hb).
    exists r. rewrite double_randint_runs, Hk, Hadd by assumption. auto.
  - exists 0%Q. split; [apply double_draw_zero |].
    rewrite double_randint_runs, floor_draw_zero by done.
    rewrite js_add_Z_double by exact Hmin. reflexivity.
  - exists top_draw. split; [apply double_draw_top |].
    rewrite double_randint_runs, floor_draw_top by assumption.
    rewrite js_add_Z_double; replace (max - min + 1 - 1 + min) with max by lia; done.
Qed.

Lemma randint_within_bounds_witness :
  (∃ r,
     Double.randint (of_Z 1) (of_Z 6) [(1 # 2)%Q] = Returned (of_Z r) []
     ∧ of_Z r
       = js_add (Math_floor (js_mul (Finite (1 # 2)) (of_Z (6 - 1 + 1)))) (of_Z 1)
     ∧ 1 <= r <= 6)
  ∧ (∃ u0, Double.double_draw u0
       ∧ Double.randint (of_Z 1) (of_Z 6) [u0] = Returned (of_Z 1) [])
  ∧ (∃ u1, Double.double_draw u1
       ∧ Double.randint (of_Z 1) (of_Z 6) [u1] = Returned (of_Z 6) []).
Proof.
  apply (randint_within_bounds 1 6 (1 # 2) []).
  - split; vm_compute; [reflexivity | discriminate].
  - split; vm_compute; [reflexivity | discriminate].
  - lia.
  - vm_compute. discriminate.
  - split; [split; vm_compute; [discriminate | reflexivity] | vm_compute; reflexivity].
Defined.

(** The same calls on primitive floats: at the draw 0.3333333333333333
    the product [u * 3] rounds to 1, and from [2^53] on a sum is rounded
    to a double. *)
Example randint_on_floats :
  Binary64.to_run
    (Binary64.randint (Binary64.of_Z 0) (Binary64.of_Z 2) [Binary64.one_third])
  = Double.randint (of_Z 0) (of_Z 2) [Binary64.to_Q Binary64.one_third]
  ∧ Double.randint (of_Z 0) (of_Z 2) [Binary64.to_Q Binary64.one_third]
    = Returned (of_Z 1) []
  ∧ Binary64.to_run
      (Binary64.randint (Binary64.of_Z (2 ^ 53)) (Binary64.of_Z (2 ^ 53 + 2))
         [Binary64.one_half])
    = Double.randint (of_Z (2 ^ 53)) (of_Z (2 ^ 53 + 2)) [(1 # 2)%Q]
  ∧ Double.randint (of_Z (2 ^ 53)) (of_Z (2 ^ 53 + 2)) [(1 # 2)%Q]
    = Returned (of_Z (2 ^ 53)) []
  ∧ Binary64.to_run
      (Binary64.randint (Binary64.of_Z 1) (Binary64.of_Z 6) [Binary64.below_one])
    = Double.randint (of_Z 1) (of_Z 6) [top_draw]
  ∧ Double.randint (of_Z 1) (of_Z 6) [top_draw] = Returned (of_Z 6) [].
Proof. repeat split; vm_compute; reflexivity. Qed.

(** ** randrange: the count on integers *)

Lemma randrange_count_lower (width step : Z) :
  (0 < step ∧ 0 < width) ∨ (step < 0 ∧ width < 0) →
  1 <= Random.randrange_count width step.
Proof.
  unfold Random.randrange_count.
  intros [[Hs Hw] | [Hs Hw]].
  - destruct (Z.gtb_spec step 0); [| lia].
    apply Z.div_le_lower_bound; lia.
  - destruct (Z.gtb_spec step 0); [lia |].
    rewrite <- Z.div_opp_opp by lia.
    apply Z.div_le_lower_bound; lia.
Qed.

Lemma randrange_valid_signs (start stop step : Z) :
  Random.randrange_valid start stop step →
  (0 < step ∧ 0 < stop - start) ∨ (step < 0 ∧ stop - start < 0).
Proof. unfold Random.randrange_valid. lia. Qed.

Lemma Qceiling_div (a b : Z) :
  0 < b → Qceiling (inject_Z a / inject_Z b) = - ((- a) / b).
Proof.
  intros Hb. unfold Qceiling. f_equal.
  rewrite Zdiv_Qdiv. apply Qfloor_comp.
  rewrite inject_Z_opp. field.
  intros E. apply (inject_Z_injective b 0) in E. lia.
Qed.

Lemma randrange_count_ceiling (start stop step : Z) :
  Random.randrange_valid start stop step →
  Random.randrange_count (stop - start) step
  = Random.progression_length start stop step.
Proof.
  intros Hv. apply randrange_valid_signs in Hv.
  unfold Random.progression_length, Random.randrange_count.
  rewrite Qceiling_div by lia.
  destruct Hv as [[Hs Hw] | [Hs Hw]].
  - destruct (Z.gtb_spec step 0); [| lia].
    rewrite (Z.abs_eq step), (Z.abs_eq (stop - start)) by lia.
    Z.div_mod_to_equations. nia.
  - destruct (Z.gtb_spec step 0); [lia |].
    rewrite (Z.abs_neq step), (Z.abs_neq (stop - start)) by lia.
    Z.div_mod_to_equations. nia.
Qed.

(** ** Double.randrange *)

Section DoubleRandrange.

Lemma inject_Z_nonzero (z : Z) : z ≠ 0 → ¬ (inject_Z z == 0)%Q.
Proof. intros H E. unfold Qeq in E. simpl in E. lia. Qed.

Lemma Qeq_bool_inject_Z_zero (z : Z) : z ≠ 0 → Qeq_bool (inject_Z z) 0 = false.
Proof.
  intros H. destruct (Qeq_bool (inject_Z z) 0) eqn:E; [| reflexivity].
  apply Qeq_bool_iff in E. by apply inject_Z_nonzero in E.
Qed.

Lemma js_div_Z_floor (a b : Z) :
  0 < a < 2 ^ 53 → 0 < b →
  Math_floor (js_div (of_Z a) (of_Z b)) = of_Z (a / b).
Proof.
  intros Ha Hb. unfold of_Z at 1 2. cbn [js_div].
  rewrite Qeq_bool_inject_Z_zero by lia.
  destruct (round_div_bounds a b Ha Hb) as [Hlo Hhi].
  rewrite fl_finite.
  - cbn [Math_floor]. unfold of_Z. do 2 f_equal. by apply floor_round_div.
  - assert (H0 : (0 <= inject_Z (a / b))%Q).
    { change 0%Q with (inject_Z 0). rewrite <- Zle_Qle. apply Z.div_pos; lia. }
    rewrite Qabs_pos by lra.
    apply Qle_trans with (inject_Z (a / b + 1)); [lra |].
    rewrite <- (Qabs_pos (inject_Z (a / b + 1))).
    + apply safe_below_MAX_VALUE.
      assert (a / b <= a) by (apply Z.div_le_upper_bound; nia).
      assert (0 <= a / b) by (apply Z.div_pos; lia). lia.
    + change 0%Q with (inject_Z 0). rewrite <- Zle_Qle.
      assert (0 <= a / b) by (apply Z.div_pos; lia). lia.
Qed.

Lemma js_div_Z_floor_neg (a b : Z) :
  - 2 ^ 53 < a < 0 → b < 0 →
  Math_floor (js_div (of_Z a) (of_Z b)) = of_Z (a / b).
Proof.
  intros Ha Hb. rewrite <- Z.div_opp_opp by lia.
  rewrite <- (js_div_Z_floor (- a) (- b)) by lia.
  unfold of_Z. cbn [js_div]. rewrite !Qeq_bool_inject_Z_zero by lia.
  f_equal. apply fl_comp. rewrite !inject_Z_opp. field.
  apply inject_Z_nonzero. lia.
Qed.

(** Within the safe integers line 71 computes the count of the exact
    arithmetic. *)
Lemma double_randrange_count (width step : Z) :
  (0 < step ∧ 0 < width) ∨ (step < 0 ∧ width < 0) →
  Z.abs width + Z.abs step <= MAX_SAFE_INTEGER →
  Double.randrange_count (of_Z width) (of_Z step)
  = of_Z (Random.randrange_count width step).
Proof.
  unfold MAX_SAFE_INTEGER. intros Hsign Hsafe.
  unfold Double.randrange_count, Random.randrange_count.
  rewrite js_add_Z, js_gt_Z by lia.
  destruct Hsign as [[Hs Hw] | [Hs Hw]].
  - destruct (Z.gtb_spec step 0); [| lia].
    rewrite js_sub_Z by lia. apply js_div_Z_floor; lia.
  - destruct (Z.gtb_spec step 0); [lia |].
    rewrite js_sub_Z by lia. apply js_div_Z_floor_neg; lia.
Qed.

Lemma double_randrange_runs (start stop step : Z) (u : Q) (rest : list Q) :
  Random.randrange_valid start stop step →
  Z.abs (stop - start) + Z.abs step <= MAX_SAFE_INTEGER →
  Double.randrange (of_Z start) (Some (of_Z stop)) (Some (of_Z step)) (u :: rest)
  = Returned
      (js_add (of_Z start)
         (js_mul
            (Math_floor
               (js_mul (Finite u)
                  (of_Z (Random.randrange_count (stop - start) step))))
            (of_Z step)))
      rest.
Proof.
  intros Hv Hsafe.
  pose proof (randrange_valid_signs _ _ _ Hv) as Hsign.
  pose proof (randrange_count_lower _ _ Hsign) as Hn.
  unfold Double.randrange. cbn [default from_option id]. cbv beta iota zeta.
  rewrite !Number_isInteger_Z. cbn [negb orb].
  rewrite js_eq_Z. destruct (Z.eqb_spec step 0); [lia |].
  rewrite js_sub_Z by (unfold MAX_SAFE_INTEGER in Hsafe; lia).
  rewrite js_gt_Z, js_le_Z, js_lt_Z, js_ge_Z.
  rewrite double_randrange_count by assumption.
  rewrite js_le_Z.
  destruct (Z.gtb_spec step 0), (Z.leb_spec (stop - start) 0),
    (Z.ltb_spec step 0), (Z.geb_spec (stop - start) 0); cbn [andb]; try lia;
  destruct (Z.leb_spec (Random.randrange_count (stop - start) step) 0);
  try lia; reflexivity.
Qed.

(** The count times the step stays within the width. *)
Lemma randrange_count_span (width step : Z) :
  (0 < step ∧ 0 < width) ∨ (step < 0 ∧ width < 0) →
  let n := Random.randrange_count width step in
  (0 < step → (n - 1) * step < width)
  ∧ (step < 0 → width < (n - 1) * step).
Proof.
  intros Hsign n. subst n. unfold Random.randrange_count.
  destruct Hsign as [[Hs Hw] | [Hs Hw]].
  - destruct (Z.gtb_spec step 0); [| lia].
    split; [intros _ | lia].
    pose proof (Z.mul_div_le (width + step - 1) step Hs). nia.
  - destruct (Z.gtb_spec step 0); [lia |].
    split; [lia | intros _].
    replace (width + step - -1) with (width + step + 1) by lia.
    Z.div_mod_to_equations. nia.
Qed.

(** The value returned within the safe integers: [start + index * step]
    for an index of [[0, n)], with no rounding in the product nor in the
    sum. *)
Lemma double_randrange_value (start stop step : Z) (u : Q) (rest : list Q) :
  Random.randrange_valid start stop step →
  Z.abs start <= MAX_SAFE_INTEGER →
  Z.abs stop <= MAX_SAFE_INTEGER →
  Z.abs (stop - start) + Z.abs step <= MAX_SAFE_INTEGER →
  Double.double_draw u →
  ∃ index,
    0 <= index < Random.randrange_count (stop - start) step
    ∧ Math_floor
        (js_mul (Finite u) (of_Z (Random.randrange_count (stop - start) step)))
      = of_Z index
    ∧ Double.randrange (of_Z start) (Some (of_Z stop)) (Some (of_Z step))
        (u :: rest)
      = Returned (of_Z (start + index * step)) rest.
Proof.
  intros Hv Hstart Hstop Hsafe Hu.
  pose proof (randrange_valid_signs _ _ _ Hv) as Hsign.
  pose proof (randrange_count_lower _ _ Hsign) as Hn.
  pose proof (randrange_count_span _ _ Hsign) as [Hp Hm].
  set (n := Random.randrange_count (stop - start) step) in *.
  unfold MAX_SAFE_INTEGER in *.
  assert (Hn53 : 1 <= n <= 2 ^ 53).
  { split; [exact Hn |]. destruct Hsign as [[Hs Hw] | [Hs Hw]]; nia. }
  destruct (floor_draw u n Hu Hn53) as (k & Hk & Hr).
  exists k. split; [exact Hr |]. split; [exact Hk |].
  rewrite double_randrange_runs by assumption. fold n. rewrite Hk.
  assert (Hspan : Z.abs (k * step) <= Z.abs (stop - start)).
  { destruct Hsign as [[Hs Hw] | [Hs Hw]]; nia. }
  rewrite js_mul_Z by lia.
  rewrite js_add_Z; [reflexivity |].
  destruct Hsign as [[Hs Hw] | [Hs Hw]]; nia.
Qed.

End DoubleRandrange.




(** C6, as the code has it: for integer arguments that pass the checks
    and stay within the safe integers ([start], [stop] and
    [|stop - start| + |step|]), and a draw [u], a double of [[0,1)], the
    count [n] that line 71 computes is [ceil(|stop - start| / |step|)],
    [Math.floor(u * n)] is an index of [[0, n)], and the value returned
    is [start + index * step], a member of the progression; the
    one-argument form is the form with start 0 and step 1. *)
Theorem randrange_in_progression (start stop step : Z) (u : Q) (rest : list Q) :
  step ≠ 0 →
  ¬ (step > 0 ∧ stop - start <= 0) →
  ¬ (step < 0 ∧ stop - start >= 0) →
  Z.abs start <= MAX_SAFE_INTEGER →
  Z.abs stop <= MAX_SAFE_INTEGER →
  Z.abs (stop - start) + Z.abs step <= MAX_SAFE_INTEGER →
  Double.double_draw u →
  let n := Random.progression_length start stop step in
  Double.randrange_count (js_sub (of_Z stop) (of_Z start)) (of_Z step) = of_Z n
  ∧ (∃ index,
       0 <= index < n
       ∧ Math_floor (js_mul (Finite u) (of_Z n)) = of_Z index
       ∧ Double.randrange (of_Z start) (Some (of_Z stop)) (Some (of_Z step))
           (u :: rest)
         = Returned (of_Z (start + index * step)) rest
       ∧ (step > 0 → start <= start + index * step < stop)
       ∧ (step < 0 → stop < start + index * step <= start)
       ∧ (step | start + index * step - start))
  ∧ Double.randrange (of_Z stop) None None
    = Double.randrange (of_Z 0) (Some (of_Z stop)) (Some (of_Z 1)).
Proof.
  intros H0 Hp Hm Hstart Hstop Hsafe Hu n.
  assert (Hv : Random.randrange_valid start stop step) by (repeat split; assumption).
  pose proof (randrange_valid_signs _ _ _ Hv) as Hsign.
  pose proof (randrange_count_span _ _ Hsign) as [Hsp Hsm].
  assert (En : Random.randrange_count (stop - start) step = n)
    by (by apply randrange_count_ceiling).
  rewrite En in *.
  split.
  { rewrite js_sub_Z by (unfold MAX_SAFE_INTEGER in Hsafe; lia).
    rewrite double_randrange_count, En by assumption. reflexivity. }
  split; [| reflexivity].
  destruct (double_randrange_value start stop step u rest Hv Hstart Hstop Hsafe Hu)
    as (index & Hi & Hfloor & Hrun).
  rewrite En in *.
  exists index. split; [exact Hi |]. split; [exact Hfloor |].
  split; [exact Hrun |].
  split; [intros Hs; nia |].
  split; [intros Hs; nia |].
  exists index. lia.
Qed.

Lemma randrange_in_progression_witness :
  let n := Random.progression_length 0 100 10 in
  Double.randrange_count (js_sub (of_Z 100) (of_Z 0)) (of_Z 10) = of_Z n
  ∧ (∃ index,
       0 <= index < n
       ∧ Math_floor (js_mul (Finite (3 # 4)) (of_Z n)) = of_Z index
       ∧ Double.randrange (of_Z 0) (Some (of_Z 100)) (Some (of_Z 10)) [(3 # 4)%Q]
         = Returned (of_Z (0 + index * 10)) []
       ∧ (10 > 0 → 0 <= 0 + index * 10 < 100)
       ∧ (10 < 0 → 100 < 0 + index * 10 <= 0)
       ∧ (10 | 0 + index * 10 - 0))
  ∧ Double.randrange (of_Z 100) None None
    = Double.randrange (of_Z 0) (Some (of_Z 100)) (Some (of_Z 1)).
Proof.
  apply (randrange_in_progression 0 100 10 (3 # 4) []); try lia;
    try (vm_compute; discriminate).
  split; [split; vm_compute; [discriminate | reflexivity] | vm_compute; reflexivity].
Defined.

(** C6 as stated fails beyond the safe integers: in
    [randrange(2^53, 2^53 + 4)] at the draw 0.75 the index is 3 and
    [start + 3] is not a double; the sum rounds to [2^53 + 4], which is
    [stop], so [start <= result < stop] does not hold. *)
Lemma randrange_returns_stop :
  binary64 (inject_Z (2 ^ 53)) ∧ binary64 (inject_Z (2 ^ 53 + 4))
  ∧ Double.double_draw (3 # 4)
  ∧ 1 ≠ 0 ∧ ¬ (1 > 0 ∧ 2 ^ 53 + 4 - 2 ^ 53 <= 0)
  ∧ (∃ result,
       Double.randrange (of_Z (2 ^ 53)) (Some (of_Z (2 ^ 53 + 4))) None [(3 # 4)%Q]
       = Returned (of_Z result) []
       ∧ ¬ (2 ^ 53 <= result < 2 ^ 53 + 4)).
Proof.
  split; [split; vm_compute; [reflexivity | discriminate] |].
  split; [split; vm_compute; [reflexivity | discriminate] |].
  split; [split; [split; vm_compute; [discriminate | reflexivity] | vm_compute; reflexivity] |].
  split; [lia |]. split; [lia |].
  exists (2 ^ 53 + 4). split; [vm_compute; reflexivity | lia].
Qed.

(** The same calls on primitive floats. *)
Example randrange_on_floats :
  Binary64.to_run
    (Binary64.randrange (Binary64.of_Z 0) (Some (Binary64.of_Z 100))
       (Some (Binary64.of_Z 10)) [Binary64.three_quarters])
  = Double.randrange (of_Z 0) (Some (of_Z 100)) (Some (of_Z 10)) [(3 # 4)%Q]
  ∧ Double.randrange (of_Z 0) (Some (of_Z 100)) (Some (of_Z 10)) [(3 # 4)%Q]
    = Returned (of_Z 70) []
  ∧ Binary64.to_run
      (Binary64.randrange (Binary64.of_Z 10) (Some (Binary64.of_Z 0))
         (Some (Binary64.of_Z (-3))) [Binary64.below_one])
    = Double.randrange (of_Z 10) (Some (of_Z 0)) (Some (of_Z (-3))) [top_draw]
  ∧ Double.randrange (of_Z 10) (Some (of_Z 0)) (Some (of_Z (-3))) [top_draw]
    = Returned (of_Z 1) []
  ∧ Binary64.to_run
      (Binary64.randrange (Binary64.of_Z 3) None None [Binary64.one_third])
    = Double.randrange (of_Z 3) None None [Binary64.to_Q Binary64.one_third]
  ∧ Double.randrange (of_Z 3) None None [Binary64.to_Q Binary64.one_third]
    = Returned (of_Z 1) []
  ∧ Binary64.to_run
      (Binary64.randrange (Binary64.of_Z 0) (Some (Binary64.of_Z 1))
         (Some (Binary64.of_Z (2 ^ 53))) [Binary64.one_half])
    = Double.randrange (of_Z 0) (Some (of_Z 1)) (Some (of_Z (2 ^ 53))) [(1 # 2)%Q]
  ∧ Binary64.to_run
      (Binary64.randrange (Binary64.of_Z (2 ^ 53)) (Some (Binary64.of_Z (2 ^ 53 + 4)))
         None [Binary64.three_quarters])
    = Double.randrange (of_Z (2 ^ 53)) (Some (of_Z (2 ^ 53 + 4))) None [(3 # 4)%Q].
Proof. repeat split; vm_compute; reflexivity. Qed.

(** ** Double.uniform *)

Section DoubleUniform.

Local Open Scope Q_scope.

Lemma js_gt_Finite (x y : Q) : js_gt (Finite x) (Finite y) = negb (Qle_bool x y).
Proof.
  unfold js_gt. cbn [js_compare].
  destruct (Qle_bool x y) eqn:E.
  - apply Qle_bool_iff in E. destruct (Qcompare_spec x y); try reflexivity. lra.
  - destruct (Qcompare_spec x y) as [H | H | H]; try reflexivity; exfalso;
      assert (Hle : x <= y) by lra; apply Qle_bool_iff in Hle; congruence.
Qed.



Lemma binary64_zero : binary64 0.
Proof. split; [unfold is_double; by rewrite round_zero | vm_compute; discriminate]. Qed.

Lemma binary64_round (x : Q) : Qabs (round x) <= MAX_VALUE → binary64 (round x).
Proof. intros H. split; [apply is_double_round | exact H]. Qed.


End DoubleUniform.




(** The same calls on primitive floats; when [max - min] overflows the
    result is an infinity, or NaN at the draw 0. *)
Example uniform_on_floats :
  let max := PrimFloat.mul (Binary64.of_Z (2 ^ 53 - 1)) (Binary64.of_Z (2 ^ 971)) in
  Binary64.to_run
    (Binary64.uniform (Binary64.of_Z 1) (Binary64.of_Z 2) [Binary64.below_one])
  = Double.uniform (of_Z 1) (of_Z 2) [top_draw]
  ∧ Binary64.to_run
      (Binary64.uniform Binary64.one_third Binary64.three_quarters
         [Binary64.one_third])
    = Double.uniform (Binary64.to_number Binary64.one_third) (Finite (3 # 4))
        [Binary64.to_Q Binary64.one_third]
  ∧ Binary64.to_run (Binary64.uniform (PrimFloat.opp max) max [Binary64.one_half])
    = Double.uniform (Finite (- MAX_VALUE)) (Finite MAX_VALUE) [(1 # 2)%Q]
  ∧ Double.uniform (Finite (- MAX_VALUE)) (Finite MAX_VALUE) [(1 # 2)%Q]
    = Returned PosInfinity []
  ∧ Binary64.to_run (Binary64.uniform (PrimFloat.opp max) max [Binary64.of_Z 0])
    = Double.uniform (Finite (- MAX_VALUE)) (Finite MAX_VALUE) [0%Q]
  ∧ Double.uniform (Finite (- MAX_VALUE)) (Finite MAX_VALUE) [0%Q]
    = Returned NaN [].
Proof. cbv zeta. repeat split; vm_compute; reflexivity. Qed.

(** ** SecureRandom: the 32-bit draw *)

Lemma byte_value_range (b : Byte.byte) : 0 <= SecureRandom.byte_value b < 256.
Proof.
  unfold SecureRandom.byte_value.
  pose proof (Byte.to_N_bounded b). lia.
Qed.

Lemma ToUint32_ToInt32 (x : Z) :
  SecureRandom.ToUint32 (SecureRandom.ToInt32 x) = SecureRandom.ToUint32 x.
Proof.
  unfold SecureRandom.ToUint32, SecureRandom.ToInt32.
  Z.div_mod_to_equations. lia.
Qed.

Lemma ToUint32_lor (x y : Z) :
  SecureRandom.ToUint32 (Z.lor x y)
  = Z.lor (SecureRandom.ToUint32 x) (SecureRandom.ToUint32 y).
Proof.
  unfold SecureRandom.ToUint32.
  rewrite <- !Z.land_ones by lia. apply Z.land_lor_distr_l.
Qed.

Lemma ToUint32_small (x : Z) : 0 <= x < 2 ^ 32 → SecureRandom.ToUint32 x = x.
Proof. intros H. unfold SecureRandom.ToUint32. apply Z.mod_small. exact H. Qed.

Lemma ToUint32_js_or (x y : Z) :
  SecureRandom.ToUint32 (SecureRandom.js_or x y)
  = Z.lor (SecureRandom.ToUint32 x) (SecureRandom.ToUint32 y).
Proof.
  unfold SecureRandom.js_or. by rewrite ToUint32_lor, !ToUint32_ToInt32.
Qed.

Lemma ToUint32_js_shl (x k : Z) :
  0 <= x < 256 → 0 <= k <= 24 → Z.land k 31 = k →
  SecureRandom.ToUint32 (SecureRandom.js_shl x k) = x * 2 ^ k.
Proof.
  intros Hx Hk Hland. unfold SecureRandom.js_shl.
  rewrite ToUint32_ToInt32, Hland.
  assert (Hi : SecureRandom.ToInt32 x = x).
  { unfold SecureRandom.ToInt32. Z.div_mod_to_equations. lia. }
  rewrite Hi, Z.shiftl_mul_pow2 by lia.
  apply ToUint32_small.
  assert (2 ^ k <= 2 ^ 24) by (apply Z.pow_le_mono_r; lia).
  assert (0 < 2 ^ k) by (apply Z.pow_pos_nonneg; lia).
  change (2 ^ 32) with (256 * 2 ^ 24). nia.
Qed.

Lemma lor_disjoint (hi lo k : Z) :
  0 <= k → 0 <= lo < 2 ^ k → Z.lor (hi * 2 ^ k) lo = hi * 2 ^ k + lo.
Proof.
  intros Hk Hlo.
  assert (Hland : Z.land (hi * 2 ^ k) lo = 0).
  { apply Z.bits_inj'. intros n Hn.
    rewrite Z.land_spec, Z.bits_0.
    destruct (Z.lt_ge_cases n k) as [Hlt | Hge].
    - rewrite Z.mul_pow2_bits_low by lia. reflexivity.
    - rewrite <- (Z.mod_small lo (2 ^ k)) by lia.
      rewrite Z.mod_pow2_bits_high by lia. apply andb_false_r. }
  rewrite <- Z.lxor_lor by exact Hland.
  symmetry. apply Z.add_nocarry_lxor. exact Hland.
Qed.

(** The four bytes are composed big-endian into an unsigned 32-bit value. *)
Lemma uint32_of_bytes_big_endian (b0 b1 b2 b3 : Byte.byte) :
  SecureRandom.uint32_of_bytes b0 b1 b2 b3
  = SecureRandom.byte_value b0 * 2 ^ 24 + SecureRandom.byte_value b1 * 2 ^ 16
    + SecureRandom.byte_value b2 * 2 ^ 8 + SecureRandom.byte_value b3.
Proof.
  pose proof (byte_value_range b0) as H0.
  pose proof (byte_value_range b1) as H1.
  pose proof (byte_value_range b2) as H2.
  pose proof (byte_value_range b3) as H3.
  unfold SecureRandom.uint32_of_bytes, SecureRandom.js_ushr.
  change (Z.land 0 31) with 0. rewrite Z.shiftr_0_r.
  rewrite !ToUint32_js_or.
  rewrite !ToUint32_js_shl by (try reflexivity; lia).
  rewrite (ToUint32_small (SecureRandom.byte_value b3)) by lia.
  set (x0 := SecureRandom.byte_value b0) in *.
  set (x1 := SecureRandom.byte_value b1) in *.
  set (x2 := SecureRandom.byte_value b2) in *.
  set (x3 := SecureRandom.byte_value b3) in *.
  change (2 ^ 24) with 16777216. change (2 ^ 16) with 65536.
  change (2 ^ 8) with 256.
  replace (x0 * 16777216) with (x0 * 2 ^ 24) by reflexivity.
  rewrite (lor_disjoint x0 (x1 * 65536) 24) by (change (2 ^ 24) with 16777216; lia).
  replace (x0 * 2 ^ 24 + x1 * 65536) with ((x0 * 256 + x1) * 2 ^ 16)
    by (change (2 ^ 24) with 16777216; change (2 ^ 16) with 65536; lia).
  rewrite (lor_disjoint _ (x2 * 256) 16) by (change (2 ^ 16) with 65536; lia).
  replace ((x0 * 256 + x1) * 2 ^ 16 + x2 * 256)
    with ((x0 * 65536 + x1 * 256 + x2) * 2 ^ 8)
    by (change (2 ^ 16) with 65536; change (2 ^ 8) with 256; lia).
  rewrite (lor_disjoint _ x3 8) by (change (2 ^ 8) with 256; lia).
  change (2 ^ 8) with 256. lia.
Qed.

Lemma uint32_of_bytes_range (b0 b1 b2 b3 : Byte.byte) :
  0 <= SecureRandom.uint32_of_bytes b0 b1 b2 b3 < 2 ^ 32.
Proof.
  rewrite uint32_of_bytes_big_endian.
  pose proof (byte_value_range b0). pose proof (byte_value_range b1).
  pose proof (byte_value_range b2). pose proof (byte_value_range b3).
  change (2 ^ 32) with 4294967296. change (2 ^ 24) with 16777216.
  change (2 ^ 16) with 65536. change (2 ^ 8) with 256. lia.
Qed.

(** ** SecureRandom.randint: counting accepted draws *)

Section Counting.

Import SecureRandom.

Lemma count_in_ext (p q : Z → bool) (from : Z) (len : nat) :
  (∀ v, from <= v < from + Z.of_nat len → p v = q v) →
  count_in p from len = count_in q from len.
Proof.
  revert from. induction len as [| len IH]; intros from Hpq; simpl.
  - reflexivity.
  - rewrite (Hpq from) by lia. f_equal. apply IH. intros v Hv. apply Hpq. lia.
Qed.

Lemma count_in_app (p : Z → bool) (from : Z) (n m : nat) :
  count_in p from (n + m)
  = (count_in p from n + count_in p (from + Z.of_nat n) m)%nat.
Proof.
  revert from. induction n as [| n IH]; intros from.
  - simpl. f_equal. lia.
  - change (S n + m)%nat with (S (n + m)). simpl count_in. rewrite IH.
    replace (from + 1 + Z.of_nat n) with (from + Z.of_nat (S n)) by lia.
    apply Nat.add_assoc.
Qed.

Lemma count_in_point (r from : Z) (len : nat) :
  count_in (λ v, v =? r) from len
  = if (from <=? r) && (r <? from + Z.of_nat len) then 1%nat else 0%nat.
Proof.
  revert from. induction len as [| len IH]; intros from; simpl count_in.
  - destruct (Z.leb_spec from r), (Z.ltb_spec r (from + Z.of_nat 0)); simpl; lia.
  - rewrite IH.
    destruct (Z.eqb_spec from r), (Z.leb_spec from r),
      (Z.leb_spec (from + 1) r), (Z.ltb_spec r (from + 1 + Z.of_nat len)),
      (Z.ltb_spec r (from + Z.of_nat (S len))); simpl; lia.
Qed.

Variables range r : Z.
Hypothesis Hrange : 0 < range.
Hypothesis Hr : 0 <= r < range.

Lemma count_in_block (k : Z) :
  0 <= k →
  count_in (λ v, Z.rem v range =? r) (k * range) (Z.to_nat range) = 1%nat.
Proof.
  intros Hk.
  rewrite (count_in_ext _ (λ v, v =? r + k * range)).
  - rewrite count_in_point.
    destruct (Z.leb_spec (k * range) (r + k * range)),
      (Z.ltb_spec (r + k * range) (k * range + Z.of_nat (Z.to_nat range)));
      simpl; lia.
  - intros v Hv. rewrite Z2Nat.id in Hv by lia.
    rewrite Z.rem_mod_nonneg by nia.
    assert (Hm : v mod range = v - k * range).
    { symmetry. apply (Z.mod_unique v range k); [left; lia | lia]. }
    rewrite Hm.
    destruct (Z.eqb_spec (v - k * range) r), (Z.eqb_spec v (r + k * range)); lia.
Qed.

Lemma count_in_blocks (q : nat) (k : Z) :
  0 <= k →
  count_in (λ v, Z.rem v range =? r) (k * range) (q * Z.to_nat range) = q.
Proof.
  revert k. induction q as [| q IH]; intros k Hk.
  - reflexivity.
  - change (S q * Z.to_nat range)%nat with (Z.to_nat range + q * Z.to_nat range)%nat.
    rewrite count_in_app, count_in_block by exact Hk.
    rewrite Z2Nat.id by lia.
    replace (k * range + range) with ((k + 1) * range) by lia.
    rewrite IH by lia. reflexivity.
Qed.

End Counting.

Lemma maxValid_of_facts (range : Z) :
  0 < range → range <= 0xFFFFFFFF →
  SecureRandom.maxValid_of range = (2 ^ 32 / range) * range
  ∧ 0 < 2 ^ 32 / range
  ∧ 0 < SecureRandom.maxValid_of range <= 2 ^ 32
  ∧ 2 ^ 32 - range < SecureRandom.maxValid_of range.
Proof.
  intros Hpos Hle. unfold SecureRandom.maxValid_of.
  change 0x100000000 with (2 ^ 32).
  change 0xFFFFFFFF with (2 ^ 32 - 1) in Hle.
  assert (Hq : 0 < 2 ^ 32 / range) by (apply Z.div_str_pos; lia).
  pose proof (Z.mul_div_le (2 ^ 32) range Hpos).
  pose proof (Z.mul_succ_div_gt (2 ^ 32) range Hpos).
  repeat split; nia.
Qed.

Lemma preimages_count (min max y : Z) :
  min <= max → max - min + 1 <= 0xFFFFFFFF → min <= y <= max →
  SecureRandom.preimages min max y
  = Z.to_nat (SecureRandom.maxValid_of (max - min + 1) / (max - min + 1)).
Proof.
  intros Hord Hle Hy.
  assert (Hpos : 0 < max - min + 1) by lia.
  destruct (maxValid_of_facts _ Hpos Hle) as (Hmv & Hq & _).
  unfold SecureRandom.preimages. rewrite Hmv.
  rewrite Z.div_mul by lia.
  rewrite Z2Nat.inj_mul by lia.
  rewrite (count_in_ext _ (λ v, Z.rem v (max - min + 1) =? y - min)).
  - apply (count_in_blocks (max - min + 1) (y - min) Hpos ltac:(lia) _ 0). lia.
  - intros v _.
    destruct (Z.eqb_spec (min + Z.rem v (max - min + 1)) y),
      (Z.eqb_spec (Z.rem v (max - min + 1)) (y - min)); lia.
Qed.

Lemma rejection_loop_by_rounds (P : list Byte.byte → Prop) :
  (∀ src, (length src < 4)%nat → P src) →
  (∀ b0 b1 b2 b3 rest, P rest → P (b0 :: b1 :: b2 :: b3 :: rest)) →
  ∀ src, P src.
Proof.
  intros Hshort Hround.
  assert (H : ∀ src,
             P src ∧ (∀ a, P (a :: src)) ∧ (∀ a b, P (a :: b :: src))
             ∧ (∀ a b c, P (a :: b :: c :: src))).
  { induction src as [| x src (H0 & H1 & H2 & H3)].
    - repeat split; intros; apply Hshort; simpl; lia.
    - repeat split; intros; auto. }
  intros src. apply H.
Qed.

Lemma rejection_loop_round (maxValid : Z) (b0 b1 b2 b3 : Byte.byte)
    (rest : list Byte.byte) :
  SecureRandom.rejection_loop maxValid (b0 :: b1 :: b2 :: b3 :: rest)
  = if SecureRandom.uint32_of_bytes b0 b1 b2 b3 >=? maxValid
    then SecureRandom.rejection_loop maxValid rest
    else Returned (SecureRandom.uint32_of_bytes b0 b1 b2 b3) rest.
Proof. reflexivity. Qed.

Lemma rejection_loop_accepts (maxValid : Z) (src : list Byte.byte) :
  ∀ v rest,
    SecureRandom.rejection_loop maxValid src = Returned v rest →
    0 <= v < maxValid.
Proof.
  induction src as [src Hlen | b0 b1 b2 b3 src IH] using rejection_loop_by_rounds;
    intros v rest Hrun.
  - destruct src as [| ? [| ? [| ? [| ? ?]]]];
      cbn [length] in Hlen; try lia; discriminate Hrun.
  - rewrite rejection_loop_round in Hrun.
    pose proof (uint32_of_bytes_range b0 b1 b2 b3) as Hv.
    destruct (Z.geb_spec (SecureRandom.uint32_of_bytes b0 b1 b2 b3) maxValid)
      as [Hge | Hlt].
    + by eapply IH.
    + assert (Hvv : v = SecureRandom.uint32_of_bytes b0 b1 b2 b3) by congruence.
      rewrite Hvv. split; [apply Hv | exact Hlt].
Qed.

Lemma secure_randint_runs (min max : Z) (src : list Byte.byte) :
  min <= max → max - min + 1 <= 0xFFFFFFFF →
  SecureRandom.randint min max src
  = match SecureRandom.rejection_loop
            (SecureRandom.maxValid_of (max - min + 1)) src with
    | Returned randomValue rest =>
        Returned (min + Z.rem randomValue (max - min + 1)) rest
    | Thrown e => Thrown e
    | Starved => Starved
    | OffArray => OffArray
    end.
Proof.
  intros Hord Hle. unfold SecureRandom.randint.
  destruct (Z.gtb_spec min max); [lia |].
  destruct (Z.gtb_spec (max - min + 1) 0xFFFFFFFF); [lia |].
  reflexivity.
Qed.

(** ** Double.secure_randint *)

Section DoubleSecure.

Lemma js_rem_Z (v r : Z) :
  0 <= v → 0 < r → js_rem (of_Z v) (of_Z r) = of_Z (Z.rem v r).
Proof.
  intros Hv Hr. unfold of_Z. cbn [js_rem].
  rewrite Qeq_bool_inject_Z_zero by lia. f_equal.
  assert (Hq : (0 <= inject_Z v / inject_Z r)%Q).
  { apply Qle_shift_div_l; [apply inject_Z_pos; lia |].
    rewrite Qmult_0_l. change 0%Q with (inject_Z 0). rewrite <- Zle_Qle. lia. }
  unfold Qtruncate. apply Qle_bool_iff in Hq. rewrite Hq.
  rewrite <- Zdiv_Qdiv. rewrite Z.rem_mod_nonneg by lia.
  rewrite <- (Qred_inject_Z (v mod r)). apply Qred_complete.
  rewrite <- inject_Z_mult. unfold Qminus. rewrite <- inject_Z_opp, <- inject_Z_plus.
  rewrite inject_Z_injective. rewrite (Z.mod_eq v r) by lia. lia.
Qed.

Lemma double_maxValid_of (range : Z) :
  0 < range → range <= 0xFFFFFFFF →
  Double.maxValid_of (of_Z range) = of_Z (SecureRandom.maxValid_of range).
Proof.
  intros Hpos Hle. destruct (maxValid_of_facts range Hpos Hle) as (Hmv & _ & Hb & _).
  unfold Double.maxValid_of. rewrite js_div_Z_floor by lia.
  unfold SecureRandom.maxValid_of in *. change 0x100000000 with (2 ^ 32) in *.
  apply js_mul_Z. lia.
Qed.

Lemma double_rejection_loop (maxValid : Z) (src : list Byte.byte) :
  Double.rejection_loop (of_Z maxValid) src
  = returned_of_Z (SecureRandom.rejection_loop maxValid src).
Proof.
  induction src as [src Hlen | b0 b1 b2 b3 src IH] using rejection_loop_by_rounds.
  - destruct src as [| ? [| ? [| ? [| ? ?]]]];
      cbn [length] in Hlen; try lia; reflexivity.
  - rewrite rejection_loop_round.
    cbn [Double.rejection_loop]. rewrite js_ge_Z.
    destruct (SecureRandom.uint32_of_bytes b0 b1 b2 b3 >=? maxValid);
      [exact IH | reflexivity].
Qed.

(** Within the safe integers [secure.randint] on doubles is
    [secure.randint] on integers. *)
Lemma double_secure_randint (min max : Z) (src : list Byte.byte) :
  min <= max →
  max - min + 1 <= 0xFFFFFFFF →
  - MAX_SAFE_INTEGER <= min →
  max <= MAX_SAFE_INTEGER →
  Double.secure_randint (of_Z min) (of_Z max) src
  = returned_of_Z (SecureRandom.randint min max src).
Proof.
  unfold MAX_SAFE_INTEGER. intros Hord Hle Hmin Hmax.
  change 0xFFFFFFFF with 4294967295 in Hle.
  rewrite secure_randint_runs by assumption.
  unfold Double.secure_randint.
  rewrite !Number_isInteger_Z. cbn [negb orb].
  rewrite js_gt_Z. destruct (Z.gtb_spec min max); [lia |].
  rewrite js_sub_Z, js_add_Z by lia. cbv zeta.
  rewrite js_gt_Z. destruct (Z.gtb_spec (max - min + 1) 0xFFFFFFFF); [lia |].
  rewrite double_maxValid_of by lia.
  unfold mbind, M_bind. rewrite double_rejection_loop.
  destruct (SecureRandom.rejection_loop _ src) as [v rest | | |] eqn:Hloop;
    try reflexivity.
  apply rejection_loop_accepts in Hloop.
  cbn [returned_of_Z]. unfold mret, M_ret. f_equal.
  rewrite js_rem_Z by lia.
  apply js_add_Z.
  rewrite Z.rem_mod_nonneg by lia.
  pose proof (Z.mod_pos_bound v (max - min + 1) ltac:(lia)). lia.
Qed.

End DoubleSecure.

(** C1, as the code has it: for safe integers [min <= max] whose range
    passes the size check (so it is below [2^32]), the [maxValid] the
    source computes is [floor(2^32 / range) * range], a multiple of
    [range] with [0 < maxValid <= 2^32]; for a 32-bit draw [v] below
    [maxValid] the sum [min + v % range] is not rounded and lies in
    [[min, max]]; a round whose draw is below [maxValid] returns it, and
    a round whose draw is not is repeated, so every value the call
    returns lies in [[min, max]]; and every value of [[min, max]] has
    exactly [maxValid / range] accepted preimages. *)
Theorem secure_randint_unbiased (min max : Z) :
  min <= max →
  max - min + 1 <= 0xFFFFFFFF →
  - MAX_SAFE_INTEGER <= min →
  max <= MAX_SAFE_INTEGER →
  let range := max - min + 1 in
  let maxValid := (2 ^ 32 / range) * range in
  Double.maxValid_of (js_add (js_sub (of_Z max) (of_Z min)) (of_Z 1)) = of_Z maxValid
  ∧ (range | maxValid)
  ∧ 0 < maxValid <= 2 ^ 32
  ∧ (∀ v, 0 <= v < maxValid →
       js_add (of_Z min) (js_rem (of_Z v) (of_Z range)) = of_Z (min + Z.rem v range)
       ∧ min <= min + Z.rem v range <= max)
  ∧ (∀ b0 b1 b2 b3 rest,
       let v := SecureRandom.uint32_of_bytes b0 b1 b2 b3 in
       0 <= v < 2 ^ 32
       ∧ (v < maxValid →
          Double.secure_randint (of_Z min) (of_Z max) (b0 :: b1 :: b2 :: b3 :: rest)
          = Returned (of_Z (min + Z.rem v range)) rest)
       ∧ (maxValid <= v →
          Double.secure_randint (of_Z min) (of_Z max) (b0 :: b1 :: b2 :: b3 :: rest)
          = Double.secure_randint (of_Z min) (of_Z max) rest))
  ∧ (∀ src r rest,
       Double.secure_randint (of_Z min) (of_Z max) src = Returned r rest →
       ∃ z, r = of_Z z ∧ min <= z <= max)
  ∧ (∀ y, min <= y <= max →
       SecureRandom.preimages min max y = Z.to_nat (maxValid / range)).
Proof.
  intros Hord Hle Hmin Hmax range maxValid.
  assert (Hpos : 0 < range) by (unfold range; lia).
  destruct (maxValid_of_facts range Hpos Hle) as (Hmv & Hq & Hbound & _).
  fold maxValid in Hmv. rewrite Hmv in Hbound.
  assert (Hrem : ∀ v, 0 <= v → min <= min + Z.rem v range <= max).
  { intros v Hv. rewrite Z.rem_mod_nonneg by lia.
    pose proof (Z.mod_pos_bound v range Hpos). unfold range in *. lia. }
  assert (Hsafe : ∀ z, min <= z <= max → Z.abs z <= 2 ^ 53).
  { unfold MAX_SAFE_INTEGER in *. intros z Hz. lia. }
  split.
  { unfold MAX_SAFE_INTEGER in *. change 0xFFFFFFFF with 4294967295 in Hle.
    rewrite js_sub_Z, js_add_Z by (unfold range in *; lia).
    fold range. rewrite double_maxValid_of, Hmv by assumption. reflexivity. }
  split; [exists (2 ^ 32 / range); reflexivity |].
  split; [exact Hbound |].
  split.
  { intros v Hv. split; [| apply Hrem; lia].
    rewrite js_rem_Z by lia. apply js_add_Z, Hsafe, Hrem. lia. }
  split.
  { intros b0 b1 b2 b3 rest v.
    split; [apply uint32_of_bytes_range |].
    split; intros Hv.
    - rewrite double_secure_randint, secure_randint_runs by assumption.
      cbn [SecureRandom.rejection_loop]. fold v. fold range. rewrite Hmv.
      destruct (Z.geb_spec v maxValid); [lia | reflexivity].
    - rewrite !double_secure_randint, !secure_randint_runs by assumption.
      cbn [SecureRandom.rejection_loop]. fold v. fold range. rewrite Hmv.
      destruct (Z.geb_spec v maxValid); [reflexivity | lia]. }
  split.
  { intros src r rest Hrun.
    rewrite double_secure_randint, secure_randint_runs in Hrun by assumption.
    fold range in Hrun.
    destruct (SecureRandom.rejection_loop _ src) as [v rest' | | |] eqn:Hloop;
      try discriminate.
    cbn [returned_of_Z] in Hrun. injection Hrun as <- <-.
    apply rejection_loop_accepts in Hloop.
    eexists. split; [reflexivity |]. apply Hrem. lia. }
  intros y Hy. rewrite preimages_count by assumption. fold range. by rewrite Hmv.
Qed.

Lemma secure_randint_unbiased_witness :
  let range := 6 - 1 + 1 in
  let maxValid := (2 ^ 32 / range) * range in
  Double.maxValid_of (js_add (js_sub (of_Z 6) (of_Z 1)) (of_Z 1)) = of_Z maxValid
  ∧ (range | maxValid)
  ∧ 0 < maxValid <= 2 ^ 32
  ∧ (∀ v, 0 <= v < maxValid →
       js_add (of_Z 1) (js_rem (of_Z v) (of_Z range)) = of_Z (1 + Z.rem v range)
       ∧ 1 <= 1 + Z.rem v range <= 6)
  ∧ (∀ b0 b1 b2 b3 rest,
       let v := SecureRandom.uint32_of_bytes b0 b1 b2 b3 in
       0 <= v < 2 ^ 32
       ∧ (v < maxValid →
          Double.secure_randint (of_Z 1) (of_Z 6) (b0 :: b1 :: b2 :: b3 :: rest)
          = Returned (of_Z (1 + Z.rem v range)) rest)
       ∧ (maxValid <= v →
          Double.secure_randint (of_Z 1) (of_Z 6) (b0 :: b1 :: b2 :: b3 :: rest)
          = Double.secure_randint (of_Z 1) (of_Z 6) rest))
  ∧ (∀ src r rest,
       Double.secure_randint (of_Z 1) (of_Z 6) src = Returned r rest →
       ∃ z, r = of_Z z ∧ 1 <= z <= 6)
  ∧ (∀ y, 1 <= y <= 6 →
       SecureRandom.preimages 1 6 y = Z.to_nat (maxValid / range)).
Proof.
  apply (secure_randint_unbiased 1 6); try lia; vm_compute; discriminate.
Defined.

(** C1 as stated fails beyond the safe integers.  For
    [secure.randint(2^53, 2^53 + 2)] the range is 3 and the draws 0 and
    1 are both accepted; [min + 1] is not a double and the sum rounds to
    [2^53], so both draws return [2^53]: the value returned for the draw
    1 is not [min + (1 mod 3)], and [2^53 + 1], a value of [[min, max]],
    has no preimage. *)
Lemma secure_randint_beyond_safe_integers :
  binary64 (inject_Z (2 ^ 53)) ∧ binary64 (inject_Z (2 ^ 53 + 2))
  ∧ SecureRandom.uint32_of_bytes Byte.x00 Byte.x00 Byte.x00 Byte.x00 = 0
  ∧ SecureRandom.uint32_of_bytes Byte.x00 Byte.x00 Byte.x00 Byte.x01 = 1
  ∧ Double.maxValid_of (js_add (js_sub (of_Z (2 ^ 53 + 2)) (of_Z (2 ^ 53))) (of_Z 1))
    = of_Z 4294967295
  ∧ Double.secure_randint (of_Z (2 ^ 53)) (of_Z (2 ^ 53 + 2))
      [Byte.x00; Byte.x00; Byte.x00; Byte.x00]
    = Returned (of_Z (2 ^ 53)) []
  ∧ Double.secure_randint (of_Z (2 ^ 53)) (of_Z (2 ^ 53 + 2))
      [Byte.x00; Byte.x00; Byte.x00; Byte.x01]
    = Returned (of_Z (2 ^ 53)) []
  ∧ 2 ^ 53 ≠ 2 ^ 53 + Z.rem 1 (2 ^ 53 + 2 - 2 ^ 53 + 1).
Proof.
  split; [split; vm_compute; [reflexivity | discriminate] |].
  split; [split; vm_compute; [reflexivity | discriminate] |].
  repeat split; try (vm_compute; reflexivity). vm_compute. discriminate.
Qed.

(** The same calls on primitive floats. *)
Example secure_randint_on_floats :
  Binary64.to_secure_run
    (Binary64.secure_randint (Binary64.of_Z 1) (Binary64.of_Z 6)
       [Byte.xff; Byte.xff; Byte.xff; Byte.xff;
        Byte.x00; Byte.x00; Byte.x00; Byte.x07])
  = Double.secure_randint (of_Z 1) (of_Z 6)
      [Byte.xff; Byte.xff; Byte.xff; Byte.xff;
       Byte.x00; Byte.x00; Byte.x00; Byte.x07]
  ∧ Double.secure_randint (of_Z 1) (of_Z 6)
      [Byte.xff; Byte.xff; Byte.xff; Byte.xff;
       Byte.x00; Byte.x00; Byte.x00; Byte.x07]
    = Returned (of_Z 2) []
  ∧ Binary64.to_secure_run
      (Binary64.secure_randint (Binary64.of_Z (2 ^ 53)) (Binary64.of_Z (2 ^ 53 + 2))
         [Byte.x00; Byte.x00; Byte.x00; Byte.x01])
    = Double.secure_randint (of_Z (2 ^ 53)) (of_Z (2 ^ 53 + 2))
        [Byte.x00; Byte.x00; Byte.x00; Byte.x01]
  ∧ Binary64.to_secure_run
      (Binary64.secure_randint (Binary64.of_Z (- MAX_SAFE_INTEGER))
         (Binary64.of_Z (- MAX_SAFE_INTEGER + 4294967294))
         [Byte.xff; Byte.xff; Byte.xff; Byte.xfe])
    = Double.secure_randint (of_Z (- MAX_SAFE_INTEGER))
        (of_Z (- MAX_SAFE_INTEGER + 4294967294))
        [Byte.xff; Byte.xff; Byte.xff; Byte.xfe]
  ∧ Double.secure_randint (of_Z (- MAX_SAFE_INTEGER))
      (of_Z (- MAX_SAFE_INTEGER + 4294967294))
      [Byte.xff; Byte.xff; Byte.xff; Byte.xfe]
    = Returned (of_Z (- MAX_SAFE_INTEGER + 4294967294)) [].
Proof. repeat split; vm_compute; reflexivity. Qed.

(** ** SecureRandom.randint: the size check *)





(** ** Random.shuffle *)

Section Shuffle.

Context {T : Type}.
Implicit Types arr : list T.

Lemma array_get_Some arr (i : Z) (x : T) :
  Random.array_get arr i = Some x ↔ 0 <= i ∧ arr !! Z.to_nat i = Some x.
Proof.
  unfold Random.array_get. destruct (Z.ltb_spec i 0); split.
  - discriminate.
  - intros [? _]. lia.
  - intros H'. split; [lia | exact H'].
  - intros [_ H']. exact H'.
Qed.

Lemma array_get_in_bounds arr (i : Z) :
  0 <= i < Z.of_nat (length arr) → is_Some (Random.array_get arr i).
Proof.
  intros Hi. unfold Random.array_get.
  destruct (Z.ltb_spec i 0); [lia |].
  apply lookup_lt_is_Some. lia.
Qed.








End Shuffle.



Example shuffle_three :
  Random.shuffle [10; 20; 30] [(1 # 2)%Q; (3 # 4)%Q] = Returned [10; 30; 20] [].
Proof. reflexivity. Qed.

(** ** Random.sample *)

Section Sample.

Context {T : Type}.
Implicit Types population result : list T.






End Sample.




Example sample_set_based :
  Random.sample [10; 20; 30; 40; 50] 2 [(1 # 2)%Q; (1 # 2)%Q; (1 # 10)%Q]
  = Returned [30; 10] [].
Proof. reflexivity. Qed.


(** ** Double.choices: the cumulative array *)

Section DoubleCumulative.

Local Open Scope Q_scope.

Lemma fl_nonneg (x : Q) :
  0 <= x →
  fl x = PosInfinity ∨ (fl x = Finite (round x) ∧ weight (round x)).
Proof.
  intros Hx. pose proof (round_nonneg x Hx) as Hr. unfold fl. cbv zeta.
  destruct (Qle_bool (Qabs (round x)) MAX_VALUE) eqn:E.
  - right. apply Qle_bool_iff in E. split; [reflexivity |].
    split; [by apply binary64_round | exact Hr].
  - left. apply Qle_bool_iff in Hr. rewrite Hr. reflexivity.
Qed.

Lemma foldl_PosInfinity (ws : list Q) :
  foldl js_add PosInfinity (Finite <$> ws) = PosInfinity.
Proof. induction ws as [| w ws IH]; [reflexivity | exact IH]. Qed.

(** The sum of the weights is an infinity or a finite double no smaller
    than any of them. *)
Lemma sum_cases (ws : list Q) :
  Forall weight ws →
  ∀ acc, weight acc →
    foldl js_add (Finite acc) (Finite <$> ws) = PosInfinity
    ∨ ∃ q, foldl js_add (Finite acc) (Finite <$> ws) = Finite q
           ∧ weight q ∧ acc <= q ∧ Forall (λ w, w <= q) ws.
Proof.
  induction 1 as [| w ws [Hwd Hw0] Hws IH]; intros acc [Had Ha0].
  - right. exists acc. split; [reflexivity |]. split; [split; assumption |].
    split; [lra | constructor].
  - cbn [fmap list_fmap foldl js_add].
    destruct (fl_nonneg (acc + w) ltac:(lra)) as [E | [E Hr]]; rewrite E.
    + left. apply foldl_PosInfinity.
    + assert (H1 : acc <= round (acc + w)) by (apply round_ge_double; [apply Had | lra]).
      assert (H2 : w <= round (acc + w)) by (apply round_ge_double; [apply Hwd | lra]).
      destruct (IH _ Hr) as [IH' | (q & Hq & Hqw & Hle & Hall)]; [by left |].
      right. exists q. split; [exact Hq |]. split; [exact Hqw |].
      split; [lra |]. constructor; [lra | exact Hall].
Qed.

Lemma binary64_one : binary64 1.
Proof. split; vm_compute; [reflexivity | discriminate]. Qed.

Lemma share_cases (sum : number) (w : Q) :
  dominates sum [w] → weight w →
  ∃ sh, js_div (Finite w) sum = Finite sh ∧ weight sh ∧ sh <= 1.
Proof.
  intros [-> | (q & -> & Hq & Hall)] [Hwd Hw0].
  - exists 0. split; [reflexivity |]. split; [split; [apply binary64_zero | lra] | lra].
  - apply Forall_cons in Hall as [Hwq _]. cbn [js_div].
    destruct (Qeq_bool q 0) eqn:E; [apply Qeq_bool_iff in E; lra |].
    destruct (fl_between 0 1 (w / q) binary64_zero binary64_one)
      as (Hfl & H0 & H1).
    + apply Qle_shift_div_l; lra.
    + apply Qle_shift_div_r; lra.
    + exists (round (w / q)). split; [exact Hfl |].
      split; [| exact H1]. split; [| exact H0].
      apply binary64_round. rewrite Qabs_pos by exact H0.
      apply Qle_trans with 1; [exact H1 | vm_compute; discriminate].
Qed.

Lemma round_above_safe : round (inject_Z (2 ^ 53) + 1) == inject_Z (2 ^ 53).
Proof. vm_compute. reflexivity. Qed.

(** The running sums are finite doubles, each no smaller than the one
    before. *)
Lemma double_running_sums (sum : number) (ws : list Q) :
  dominates sum ws → Forall weight ws →
  ∀ acc, weight acc → acc <= inject_Z (2 ^ 53) →
    ∃ qs,
      Double.running_sums sum (Finite acc) (Finite <$> ws) = Finite <$> qs
      ∧ length qs = length ws
      ∧ Forall (λ q, weight q ∧ acc <= q) qs
      ∧ (∀ i j x y, (i <= j)%nat →
           qs !! i = Some x → qs !! j = Some y → x <= y).
Proof.
  intros Hdom Hws. induction Hws as [| w ws Hw Hws IH]; intros acc Hacc Hb.
  - exists []. repeat split; [constructor | intros; discriminate].
  - assert (Hdw : dominates sum [w]).
    { destruct Hdom as [-> | (q & -> & Hq & Hall)]; [by left |].
      right. exists q. apply Forall_cons in Hall as [? ?]. repeat split; auto. }
    assert (Hdws : dominates sum ws).
    { destruct Hdom as [-> | (q & -> & Hq & Hall)]; [by left |].
      right. exists q. apply Forall_cons in Hall as [? ?]. repeat split; auto. }
    destruct (share_cases sum w Hdw Hw) as (sh & Hsh & [Hshd Hsh0] & Hsh1).
    cbn [fmap list_fmap Double.running_sums]. rewrite Hsh. cbn [js_add].
    destruct Hacc as [Haccd Hacc0].
    set (acc' := round (acc + sh)).
    assert (Hr1 : acc <= acc').
    { apply round_ge_double; [apply Haccd | lra]. }
    assert (Hr2 : acc' <= inject_Z (2 ^ 53)).
    { rewrite <- round_above_safe. apply round_mono. lra. }
    assert (Hfl : fl (acc + sh) = Finite acc').
    { apply fl_finite. fold acc'. rewrite Qabs_pos by lra.
      apply Qle_trans with (inject_Z (2 ^ 53)); [exact Hr2 | vm_compute; discriminate]. }
    assert (Hw' : weight acc').
    { split; [| lra]. apply binary64_round. fold acc'. rewrite Qabs_pos by lra.
      apply Qle_trans with (inject_Z (2 ^ 53)); [exact Hr2 | vm_compute; discriminate]. }
    rewrite Hfl.
    destruct (IH Hdws acc' Hw' Hr2) as (qs & Hrun & Hlen & Hall & Hmono).
    exists (acc' :: qs). rewrite Hrun.
    split; [reflexivity |]. split; [simpl; by rewrite Hlen |].
    split.
    { constructor; [split; assumption |].
      eapply Forall_impl; [exact Hall |]. intros q [Hq Hle]. split; [exact Hq | lra]. }
    intros i j x y Hij Hx Hy.
    destruct i as [| i], j as [| j]; simpl in Hx, Hy.
    + injection Hx as <-. injection Hy as <-. lra.
    + injection Hx as <-. rewrite Forall_lookup in Hall.
      by destruct (Hall j y Hy).
    + lia.
    + apply (Hmono i j); [lia | done | done].
Qed.

(** The sum that passes the check of line 204 dominates the weights. *)
Lemma sum_of_dominates (ws : list Q) :
  Forall weight ws →
  js_le (Double.sum_of (Finite <$> ws)) (of_Z 0) = false →
  dominates (Double.sum_of (Finite <$> ws)) ws.
Proof.
  intros Hws Hsum. unfold Double.sum_of in *.
  destruct (sum_cases ws Hws 0) as [E | (q & E & [Hqd Hq0] & _ & Hall)].
  - split; [apply binary64_zero | lra].
  - by left.
  - right. exists q. split; [exact E |]. split; [| exact Hall].
    change (of_Z 0) with (Finite 0) in *. rewrite E in Hsum.
    unfold js_le in Hsum. cbn [js_compare] in Hsum.
    destruct (Qcompare_spec q 0) as [H | H | H]; try discriminate. exact H.
Qed.

(** The cumulative array of weights that pass the checks. *)
Lemma double_cumulative (weights : list Q) :
  (0 < length weights)%nat →
  Forall weight weights →
  js_le (Double.sum_of (Finite <$> weights)) (of_Z 0) = false →
  ∃ cumulative : list Q,
    Double.cumulative_of (Finite <$> weights) = Finite <$> cumulative
    ∧ length cumulative = length weights
    ∧ Forall weight cumulative
    ∧ (∀ i j x y, (i <= j)%nat → (j < length cumulative - 1)%nat →
         cumulative !! i = Some x → cumulative !! j = Some y → x <= y)
    ∧ last cumulative = Some 1.
Proof.
  intros Hn Hw Hsum.
  pose proof (sum_of_dominates weights Hw Hsum) as Hdom.
  destruct (double_running_sums _ weights Hdom Hw 0)
    as (sums & Hrun & Hsl & Hall & Hmono).
  { split; [apply binary64_zero | apply Qle_refl]. }
  { vm_compute. discriminate. }
  set (cumulative := <[(length sums - 1)%nat := 1]> sums).
  exists cumulative.
  split; [| split; [| split; [| split]]].
  - unfold Double.cumulative_of. cbv zeta. change (of_Z 0) with (Finite 0).
    rewrite Hrun, length_fmap. unfold cumulative. by rewrite list_fmap_insert.
  - unfold cumulative. rewrite length_insert. exact Hsl.
  - unfold cumulative. apply Forall_insert.
    + eapply Forall_impl; [exact Hall |]. by intros q [Hq _].
    + split; [apply binary64_one | vm_compute; discriminate].
  - intros i j x y Hij Hj Hx Hy. unfold cumulative in *.
    rewrite length_insert in Hj.
    rewrite list_lookup_insert_ne in Hx by lia.
    rewrite list_lookup_insert_ne in Hy by lia.
    by apply (Hmono i j).
  - rewrite last_lookup. unfold cumulative. rewrite length_insert.
    replace (Init.Nat.pred (length sums)) with (length sums - 1)%nat by lia.
    apply list_lookup_insert_eq. lia.
Qed.

Lemma number_value_Finite (qs : list Q) : number_value <$> (Finite <$> qs) = qs.
Proof.
  rewrite <- list_fmap_compose.
  rewrite (list_fmap_ext (number_value ∘ Finite) id qs) by done.
  apply list_fmap_id.
Qed.

Lemma number_negative_Z (k : Z) : number_negative (of_Z k) = (k <? 0)%Z.
Proof.
  unfold of_Z. cbn [number_negative].
  destruct (Z.ltb_spec k 0) as [Hk | Hk].
  - apply negb_Qle_bool_true. unfold Qlt; simpl; lia.
  - apply negb_Qle_bool_false. unfold Qle; simpl; lia.
Qed.

Lemma number_integer_Z (k : Z) : number_integer (of_Z k) = k.
Proof. unfold number_integer, of_Z. cbn [number_value]. apply Qfloor_Z. Qed.

Lemma accepted_weights (weights : list Q) :
  Forall weight weights →
  existsb (λ w, negb (Number_isFinite w) || number_negative w)
    (Finite <$> weights) = false.
Proof.
  intros Hw. apply not_true_is_false. intros Hex.
  apply existsb_exists in Hex as (w & Hin & Hbad).
  apply list_elem_of_In, list_elem_of_fmap in Hin as (q & -> & Hin).
  rewrite Forall_forall in Hw. destruct (Hw q Hin) as [_ Hq0].
  cbn [Number_isFinite number_negative negb orb] in Hbad.
  apply Qle_bool_iff in Hq0. rewrite Hq0 in Hbad. discriminate.
Qed.

(** Past the checks [choices] is the search loop over the array. *)
Lemma double_choices_passes_checks {T} (population : list T)
    (weights : list Q) (k : Z) :
  population ≠ [] →
  length weights = length population →
  Forall weight weights →
  js_le (Double.sum_of (Finite <$> weights)) (of_Z 0) = false →
  (0 <= k)%Z →
  Double.choices population (Some (Finite <$> weights)) (Some (of_Z k))
  = Random.choices_weighted population
      (number_value <$> Double.cumulative_of (Finite <$> weights)) (Z.to_nat k).
Proof.
  intros Hpop Hlen Hw Hsum Hk.
  unfold Double.choices. cbn [default from_option id]. cbv zeta.
  destruct (Z.eqb_spec (Z.of_nat (length population)) 0) as [E | _];
    [destruct population; [done | simpl in E; lia] |].
  rewrite Number_isInteger_Z, number_negative_Z. cbn [negb orb].
  destruct (Z.ltb_spec k 0); [lia |].
  rewrite length_fmap, Hlen, Z.eqb_refl. cbn [negb].
  rewrite accepted_weights, Hsum, number_integer_Z by assumption.
  reflexivity.
Qed.

End DoubleCumulative.

(** C7, as the code has it: for weights that pass the checks of
    [choices], the array [cumulative] has one entry per weight, every
    entry is a finite double and none is negative (an entry is 0 under
    leading zero weights), the entries before the last are
    non-decreasing, and the last one is exactly 1.  The running sums are
    rounded: they can pass 1 before the last entry is set, so neither
    the bound 1 nor the step to the last entry is part of the
    statement. *)
Theorem cumulative_distribution {T} (population : list T) (weights : list Q)
    (k : Z) :
  population ≠ [] →
  length weights = length population →
  Forall weight weights →
  js_le (Double.sum_of (Finite <$> weights)) (of_Z 0) = false →
  0 <= k →
  ∃ cumulative : list Q,
    Double.cumulative_of (Finite <$> weights) = Finite <$> cumulative
    ∧ Double.choices population (Some (Finite <$> weights)) (Some (of_Z k))
      = Random.choices_weighted population cumulative (Z.to_nat k)
    ∧ length cumulative = length weights
    ∧ Forall weight cumulative
    ∧ (∀ i j x y, (i <= j)%nat → (j < length cumulative - 1)%nat →
         cumulative !! i = Some x → cumulative !! j = Some y → (x <= y)%Q)
    ∧ last cumulative = Some 1%Q.
Proof.
  intros Hpop Hlen Hw Hsum Hk.
  assert (Hn : (0 < length weights)%nat).
  { rewrite Hlen. destruct population; [done | simpl; lia]. }
  destruct (double_cumulative weights Hn Hw Hsum)
    as (cumulative & Hc & Hcl & Hall & Hmono & Hlast).
  exists cumulative. split; [exact Hc |].
  split; [| auto].
  rewrite double_choices_passes_checks, Hc, number_value_Finite by assumption.
  reflexivity.
Qed.

Lemma cumulative_distribution_witness :
  ∃ cumulative : list Q,
    Double.cumulative_of (Finite <$> [(1 # 2)%Q; (1 # 4)%Q]) = Finite <$> cumulative
    ∧ Double.choices [1; 2] (Some (Finite <$> [(1 # 2)%Q; (1 # 4)%Q])) (Some (of_Z 3))
      = Random.choices_weighted [1; 2] cumulative (Z.to_nat 3)
    ∧ length cumulative = length [(1 # 2)%Q; (1 # 4)%Q]
    ∧ Forall weight cumulative
    ∧ (∀ i j x y, (i <= j)%nat → (j < length cumulative - 1)%nat →
         cumulative !! i = Some x → cumulative !! j = Some y → (x <= y)%Q)
    ∧ last cumulative = Some 1%Q.
Proof.
  apply (cumulative_distribution [1; 2] [(1 # 2)%Q; (1 # 4)%Q] 3).
  - discriminate.
  - reflexivity.
  - repeat constructor; vm_compute; (reflexivity || discriminate).
  - vm_compute. reflexivity.
  - lia.
Defined.

(** C7 as stated fails under a leading zero weight: the weights [[0, 1]]
    pass the checks and the first entry of the array is 0, outside
    [(0, 1]]. *)
Lemma cumulative_leading_zero :
  Forall weight [0%Q; 1%Q]
  ∧ js_le (Double.sum_of (Finite <$> [0%Q; 1%Q])) (of_Z 0) = false
  ∧ Double.cumulative_of (Finite <$> [0%Q; 1%Q]) = [Finite 0; Finite 1]
  ∧ ¬ (0 < 0)%Q.
Proof.
  split; [repeat constructor; vm_compute; (reflexivity || discriminate) |].
  split; [vm_compute; reflexivity |].
  split; [vm_compute; reflexivity |].
  intros H. by apply Qlt_irrefl in H.
Qed.

(** The array on primitive floats.  Under nine weights 1 and a weight 0
    the running sum reaches [1 + 2^-52] at the ninth entry, before the
    last entry is set to 1; and when the sum of the weights overflows
    every share is 0. *)
Example cumulative_on_floats :
  let max := PrimFloat.mul (Binary64.of_Z (2 ^ 53 - 1)) (Binary64.of_Z (2 ^ 971)) in
  Binary64.to_number
    <$> Binary64.cumulative_of (replicate 9 (Binary64.of_Z 1) ++ [Binary64.of_Z 0])
  = Double.cumulative_of (replicate 9 (of_Z 1) ++ [of_Z 0])
  ∧ Double.cumulative_of (replicate 9 (of_Z 1) ++ [of_Z 0]) !! 8%nat
    = Some (Finite (1 + pow2 (-52)))
  ∧ Binary64.to_number <$> Binary64.cumulative_of [max; max]
    = Double.cumulative_of [Finite MAX_VALUE; Finite MAX_VALUE]
  ∧ Double.cumulative_of [Finite MAX_VALUE; Finite MAX_VALUE] = [Finite 0; Finite 1]
  ∧ Binary64.to_number
      <$> Binary64.cumulative_of
            [Binary64.one_third; Binary64.three_quarters; Binary64.one_half]
    = Double.cumulative_of
        [Binary64.to_number Binary64.one_third; Finite (3 # 4); Finite (1 # 2)].
Proof. cbv zeta. repeat split; vm_compute; reflexivity. Qed.

(** ** Random.gauss: the cache *)

Section Gauss.

Context {math : Random.MathLib}.


End Gauss.



Example gauss_twice :
  Random.gauss (math := Random.example_math) {| Random.cachedGaussian := None |} 0 1
    [0%Q; (1 # 3)%Q; (1 # 2)%Q; (1 # 4)%Q]
  = Returned
      (Random.box_muller_z0 (math := Random.example_math) (1 # 2) (1 # 4) * 1 + 0,
       {| Random.cachedGaussian :=
            Some (Random.box_muller_z1 (math := Random.example_math) (1 # 2) (1 # 4)) |})%Q
      []
  ∧ Random.gauss (math := Random.example_math)
      {| Random.cachedGaussian := Some (5 # 7)%Q |} 2 3 [(1 # 2)%Q]
    = Returned (((5 # 7) * 3 + 2)%Q, {| Random.cachedGaussian := None |})
        [(1 # 2)%Q].
Proof. split; reflexivity. Qed.

(** X1: for safe integers [min <= max] with a range of at most [2^51],
    every integer of [[min, max]] is returned for some draw, a double of
    [[0,1)]. *)
Theorem randint_reaches_every_value (min max y : Z) (rest : list Q) :
  min <= max →
  max - min + 1 <= 2 ^ 51 →
  - MAX_SAFE_INTEGER <= min →
  max <= MAX_SAFE_INTEGER →
  min <= y <= max →
  ∃ u, Double.double_draw u
       ∧ Double.randint (of_Z min) (of_Z max) (u :: rest) = Returned (of_Z y) rest.
Proof.
  unfold MAX_SAFE_INTEGER. intros Hord Hrange Hmin Hmax Hy.
  destruct (floor_draw_reaches (y - min) (max - min + 1)) as (u & Hu & Hf);
    [lia | lia |].
  exists u. split; [exact Hu |].
  rewrite double_randint_runs by (unfold MAX_SAFE_INTEGER; lia).
  rewrite Hf, js_add_Z by lia. do 2 f_equal. lia.
Qed.

Lemma randint_reaches_every_value_witness :
  ∃ u, Double.double_draw u
       ∧ Double.randint (of_Z 1) (of_Z 6) (u :: []) = Returned (of_Z 4) [].
Proof.
  apply (randint_reaches_every_value 1 6 4 []); try lia;
    vm_compute; discriminate.
Defined.


(** ** randrange: errors and attainable values *)

Section DoubleRandrangeErrors.

Lemma double_randrange_zero_step (start stop : Z) (draws : list Q) :
  Double.randrange (of_Z start) (Some (of_Z stop)) (Some (of_Z 0)) draws
  = Thrown (RangeError "step argument must not be zero").
Proof.
  unfold Double.randrange. cbn [default from_option id]. cbv beta iota zeta.
  rewrite !Number_isInteger_Z. cbn [negb orb]. rewrite js_eq_Z. reflexivity.
Qed.

Lemma double_randrange_empty (start stop step : Z) (draws : list Q) :
  Z.abs (stop - start) <= MAX_SAFE_INTEGER →
  (0 < step ∧ stop <= start) ∨ (step < 0 ∧ start <= stop) →
  Double.randrange (of_Z start) (Some (of_Z stop)) (Some (of_Z step)) draws
  = Thrown (RangeError "empty range for randrange()").
Proof.
  unfold MAX_SAFE_INTEGER. intros Hsafe Hempty.
  unfold Double.randrange. cbn [default from_option id]. cbv beta iota zeta.
  rewrite !Number_isInteger_Z. cbn [negb orb].
  rewrite js_eq_Z. destruct (Z.eqb_spec step 0); [lia |].
  rewrite js_sub_Z by lia.
  rewrite js_gt_Z, js_le_Z, js_lt_Z, js_ge_Z.
  destruct (Z.gtb_spec step 0), (Z.leb_spec (stop - start) 0),
    (Z.ltb_spec step 0), (Z.geb_spec (stop - start) 0);
    cbn [andb]; try lia; reflexivity.
Qed.

Lemma double_randrange_valid (start stop step : Z) (draws : list Q) :
  Random.randrange_valid start stop step →
  Z.abs (stop - start) + Z.abs step <= MAX_SAFE_INTEGER →
  ∀ e,
    Double.randrange (of_Z start) (Some (of_Z stop)) (Some (of_Z step)) draws
    ≠ Thrown e.
Proof.
  intros Hv Hsafe e. destruct draws as [| u rest].
  - pose proof (randrange_valid_signs _ _ _ Hv) as Hsign.
    pose proof (randrange_count_lower _ _ Hsign) as Hn.
    destruct Hv as (H0 & Hp & Hm).
    unfold Double.randrange. cbn [default from_option id]. cbv beta iota zeta.
    rewrite !Number_isInteger_Z. cbn [negb orb].
    rewrite js_eq_Z. destruct (Z.eqb_spec step 0); [lia |].
    rewrite js_sub_Z by (unfold MAX_SAFE_INTEGER in Hsafe; lia).
    rewrite js_gt_Z, js_le_Z, js_lt_Z, js_ge_Z.
    rewrite double_randrange_count by assumption.
    rewrite js_le_Z.
    destruct (Z.gtb_spec step 0), (Z.leb_spec (stop - start) 0),
      (Z.ltb_spec step 0), (Z.geb_spec (stop - start) 0);
      cbn [andb]; try lia;
      destruct (Z.leb_spec (Random.randrange_count (stop - start) step) 0);
      try lia; discriminate.
  - rewrite double_randrange_runs by assumption. discriminate.
Qed.

End DoubleRandrangeErrors.

(** X3: for integers with [|stop - start| + |step|] within the safe
    integers, [randrange(start, stop, step)] throws exactly on a zero
    step or an empty progression, and [randrange(stop)] exactly when
    [stop <= 0]; the error is a [RangeError]. *)
Theorem randrange_throws_iff (start stop step : Z) (draws : list Q) (e : error) :
  Z.abs (stop - start) + Z.abs step <= MAX_SAFE_INTEGER →
  Z.abs stop + 1 <= MAX_SAFE_INTEGER →
  (Double.randrange (of_Z start) (Some (of_Z stop)) (Some (of_Z step)) draws
   = Thrown e
   ↔ (step = 0 ∧ e = RangeError "step argument must not be zero")
     ∨ (((0 < step ∧ stop <= start) ∨ (step < 0 ∧ start <= stop))
        ∧ e = RangeError "empty range for randrange()"))
  ∧ (Double.randrange (of_Z stop) None None draws = Thrown e
     ↔ stop <= 0 ∧ e = RangeError "empty range for randrange()").
Proof.
  intros Hsafe Hstop.
  assert (Hgen : ∀ a b s,
    Z.abs (b - a) + Z.abs s <= MAX_SAFE_INTEGER →
    Double.randrange (of_Z a) (Some (of_Z b)) (Some (of_Z s)) draws = Thrown e
    ↔ (s = 0 ∧ e = RangeError "step argument must not be zero")
      ∨ (((0 < s ∧ b <= a) ∨ (s < 0 ∧ a <= b))
         ∧ e = RangeError "empty range for randrange()")).
  { intros a b s Hs'.
    destruct (decide (s = 0)) as [-> | Hs].
    { rewrite double_randrange_zero_step. split.
      - intros Heq. injection Heq as <-. by left.
      - intros [[_ ->] | [[[? _] | [? _]] _]]; [reflexivity | lia | lia]. }
    destruct (decide ((0 < s ∧ b <= a) ∨ (s < 0 ∧ a <= b))) as [Hempty | Hfull].
    { rewrite double_randrange_empty by (exact Hempty || lia). split.
      - intros Heq. injection Heq as <-. by right.
      - intros [[? _] | [_ ->]]; [lia | reflexivity]. }
    split.
    - intros Hthrown. exfalso.
      apply (double_randrange_valid a b s draws) in Hthrown; [done | | exact Hs'].
      unfold Random.randrange_valid. lia.
    - intros [[? _] | [? _]]; [lia | contradiction]. }
  split; [by apply Hgen |].
  change (Double.randrange (of_Z stop) None None)
    with (Double.randrange (of_Z 0) (Some (of_Z stop)) (Some (of_Z 1))).
  rewrite Hgen by lia. split.
  - intros [[? _] | [[[_ ?] | [? _]] ->]]; try lia. split; [lia | reflexivity].
  - intros [? ->]. right. split; [left; lia | reflexivity].
Qed.

Lemma randrange_throws_iff_witness :
  (Double.randrange (of_Z 0) (Some (of_Z 100)) (Some (of_Z 0)) [(1 # 2)%Q]
   = Thrown (RangeError "step argument must not be zero")
   ↔ (0 = 0 ∧ RangeError "step argument must not be zero"
              = RangeError "step argument must not be zero")
     ∨ (((0 < 0 ∧ 100 <= 0) ∨ (0 < 0 ∧ 0 <= 100))
        ∧ RangeError "step argument must not be zero"
          = RangeError "empty range for randrange()"))
  ∧ (Double.randrange (of_Z 100) None None [(1 # 2)%Q]
     = Thrown (RangeError "step argument must not be zero")
     ↔ 100 <= 0 ∧ RangeError "step argument must not be zero"
                  = RangeError "empty range for randrange()").
Proof.
  apply (randrange_throws_iff 0 100 0 [(1 # 2)%Q]
           (RangeError "step argument must not be zero"));
    vm_compute; discriminate.
Defined.

(** X4: for integer arguments that pass the checks and stay within the
    safe integers, with a count of at most [2^51], every member
    [start + i * step] of the progression, [0 <= i < n], is returned for
    some draw, a double of [[0,1)]. *)
Theorem randrange_reaches_every_member (start stop step i : Z) (rest : list Q) :
  step ≠ 0 →
  ¬ (step > 0 ∧ stop - start <= 0) →
  ¬ (step < 0 ∧ stop - start >= 0) →
  Z.abs start <= MAX_SAFE_INTEGER →
  Z.abs stop <= MAX_SAFE_INTEGER →
  Z.abs (stop - start) + Z.abs step <= MAX_SAFE_INTEGER →
  Random.progression_length start stop step <= 2 ^ 51 →
  0 <= i < Random.progression_length start stop step →
  ∃ u, Double.double_draw u
       ∧ Double.randrange (of_Z start) (Some (of_Z stop)) (Some (of_Z step))
           (u :: rest)
         = Returned (of_Z (start + i * step)) rest.
Proof.
  intros H0 Hp Hm Hstart Hstop Hsafe Hn Hi.
  assert (Hv : Random.randrange_valid start stop step) by (repeat split; assumption).
  pose proof (randrange_valid_signs _ _ _ Hv) as Hsign.
  pose proof (randrange_count_span _ _ Hsign) as [Hsp Hsm].
  rewrite <- (randrange_count_ceiling start stop step Hv) in Hn, Hi.
  destruct (floor_draw_reaches i _ Hi Hn) as (u & Hu & Hf).
  exists u. split; [exact Hu |].
  rewrite double_randrange_runs, Hf by assumption.
  unfold MAX_SAFE_INTEGER in *.
  assert (Hspan : Z.abs (i * step) <= Z.abs (stop - start)).
  { destruct Hsign as [[Hs Hw] | [Hs Hw]]; nia. }
  rewrite js_mul_Z by lia.
  rewrite js_add_Z; [reflexivity |].
  destruct Hsign as [[Hs Hw] | [Hs Hw]]; nia.
Qed.

Lemma randrange_reaches_every_member_witness :
  ∃ u, Double.double_draw u
       ∧ Double.randrange (of_Z 10) (Some (of_Z 0)) (Some (of_Z (-3))) (u :: [])
         = Returned (of_Z (10 + 2 * -3)) [].
Proof.
  apply (randrange_reaches_every_member 10 0 (-3) 2 []); try lia;
    try (vm_compute; discriminate).
  vm_compute. split; [discriminate | reflexivity].
Defined.

(** ** uniform: errors *)

(** X5: [uniform], on arguments that are numbers, throws exactly when
    one of them is not finite or when [min > max], a [RangeError] with
    the message of the guard that fires. *)
Theorem uniform_throws_iff (min max : number) (draws : list Q) (e : error) :
  Double.uniform min max draws = Thrown e
  ↔ ((Number_isFinite min = false ∨ Number_isFinite max = false)
     ∧ e = RangeError "Arguments must be finite numbers")
    ∨ (∃ a b, min = Finite a ∧ max = Finite b ∧ (b < a)%Q
              ∧ e = RangeError "min must be less than or equal to max").
Proof.
  unfold Double.uniform.
  destruct min as [a | | |], max as [b | | |]; cbn [Number_isFinite negb orb];
    try (split;
         [ intros Heq; injection Heq as <-; left; split; [auto | reflexivity]
         | intros [[_ ->] | (a' & b' & Ha & Hb & _)];
           [reflexivity | discriminate] ]).
  rewrite js_gt_Finite.
  destruct (Qle_bool a b) eqn:Hle; cbn [negb].
  - apply Qle_bool_iff in Hle. split.
    + destruct draws; discriminate.
    + intros [[[? | ?] _] | (a' & b' & Ha & Hb & Hlt & _)]; try discriminate.
      injection Ha as <-. injection Hb as <-. lra.
  - assert (Hlt : (b < a)%Q).
    { apply Qnot_le_lt. intros Hc. apply Qle_bool_iff in Hc. congruence. }
    split.
    + intros Heq. injection Heq as <-. right. by exists a, b.
    + intros [[[? | ?] _] | (a' & b' & _ & _ & _ & ->)];
        [discriminate | discriminate | reflexivity].
Qed.

(** ** choice *)

Section DoubleChoice.

Context {T : Type}.
Implicit Types seq population : list T.

Lemma double_choice_runs seq (u : Q) (rest : list Q) :
  seq ≠ [] → Z.of_nat (length seq) <= 2 ^ 53 → Double.double_draw u →
  ∃ (idx : Z) x,
    Math_floor (js_mul (Finite u) (of_Z (Z.of_nat (length seq)))) = of_Z idx
    ∧ 0 <= idx < Z.of_nat (length seq)
    ∧ seq !! Z.to_nat idx = Some x
    ∧ Double.choice seq (u :: rest) = Returned x rest.
Proof.
  intros Hne Hlen Hu.
  assert (Hn : 0 < Z.of_nat (length seq)) by (destruct seq; [done | simpl; lia]).
  destruct (floor_draw u (Z.of_nat (length seq)) Hu ltac:(lia)) as (idx & Hf & Hidx).
  destruct (array_get_in_bounds seq idx Hidx) as [x Hx].
  exists idx, x. split; [exact Hf |]. split; [exact Hidx |].
  split; [by apply array_get_Some in Hx as [_ Hx] |].
  unfold Double.choice.
  destruct (Z.eqb_spec (Z.of_nat (length seq)) 0); [lia |].
  unfold mbind, M_bind. rewrite double_random. cbv zeta.
  unfold Double.js_index. rewrite Hf, Number_isInteger_Z, number_integer_Z, Hx.
  reflexivity.
Qed.

Lemma double_choice_never_throws seq (draws : list Q) (e : error) :
  seq ≠ [] → Double.choice seq draws ≠ Thrown e.
Proof.
  intros Hne. unfold Double.choice.
  destruct (Z.eqb_spec (Z.of_nat (length seq)) 0) as [E | _];
    [destruct seq; [done | simpl in E; lia] |].
  unfold mbind, M_bind.
  destruct draws as [| u rest]; [discriminate |].
  rewrite double_random. cbv zeta.
  destruct (Double.js_index seq _); discriminate.
Qed.

Lemma double_choices_uniform_runs population :
  population ≠ [] →
  Z.of_nat (length population) <= 2 ^ 53 →
  ∀ (k : nat) (draws : list Q),
    Forall Double.double_draw draws →
    (k <= length draws)%nat →
    ∃ res,
      Double.choices_uniform population k draws = Returned res (drop k draws)
      ∧ length res = k
      ∧ Forall (λ x, x ∈ population) res.
Proof.
  intros Hpop Hlen. induction k as [| k IH]; intros draws Hu Hk.
  - exists []. split; [by rewrite drop_0 |]. split; [reflexivity | constructor].
  - destruct draws as [| u draws]; [simpl in Hk; lia |].
    inversion Hu as [| ? ? Hu0 Hu']; subst.
    destruct (double_choice_runs population u draws Hpop Hlen Hu0)
      as (idx & x & _ & _ & Hget & Hx).
    destruct (IH draws Hu' ltac:(simpl in Hk; lia)) as (res & Hrun & Hl & HF).
    exists (x :: res). split; [| split].
    + cbn [Double.choices_uniform]. unfold mbind, M_bind in Hrun |- *.
      rewrite Hx, Hrun. reflexivity.
    + simpl. by rewrite Hl.
    + constructor; [by eapply list_elem_of_lookup_2 | exact HF].
Qed.

Lemma double_choices_uniform_never_throws population :
  population ≠ [] →
  ∀ (k : nat) (draws : list Q) e,
    Double.choices_uniform population k draws ≠ Thrown e.
Proof.
  intros Hpop. induction k as [| k IH]; intros draws e; [discriminate |].
  cbn [Double.choices_uniform]. unfold mbind, M_bind.
  destruct (Double.choice population draws) as [x rest | e' | |] eqn:Hc;
    try discriminate.
  - specialize (IH rest).
    destruct (Double.choices_uniform population k rest); try discriminate.
    intros Heq. injection Heq as ->. by eapply IH.
  - by apply double_choice_never_throws in Hc.
Qed.

End DoubleChoice.



(** ** sample: errors and the two extreme sizes *)

Lemma shuffle_loop_never_throws {T} (i : nat) (arr : list T) (draws : list Q) :
  ∀ e, Random.shuffle_loop i arr draws ≠ Thrown e.
Proof.
  revert arr draws. induction i as [| i IH]; intros arr draws e.
  - discriminate.
  - cbn [Random.shuffle_loop]. unfold mbind, M_bind, Math_random.
    destruct draws as [| u draws]; [discriminate |].
    destruct (Random.swap arr _ _); [apply IH | discriminate].
Qed.

Lemma sample_loop_never_throws {T} (population : list T) (k : Z)
    (draws : list Q) :
  ∀ result selected e,
    Random.sample_loop population k result selected draws ≠ Thrown e.
Proof.
  induction draws as [| u draws IH]; intros result selected e;
    cbn [Random.sample_loop];
    destruct (Z.of_nat (length result) <? k); try discriminate.
  case_decide; [apply IH |].
  destruct (Random.array_get population _); [apply IH | discriminate].
Qed.

Lemma sample_integer_throws_iff {T} (population : list T) (k : Z)
    (draws : list Q) (e : error) :
  Random.sample population k draws = Thrown e
  ↔ (k < 0 ∧ e = RangeError "Sample size must be a non-negative integer")
    ∨ (Z.of_nat (length population) < k
       ∧ e = RangeError "Sample size cannot be larger than population").
Proof.
  unfold Random.sample.
  destruct (Z.ltb_spec k 0).
  { split.
    - intros Heq. injection Heq as <-. by left.
    - intros [[_ ->] | [? _]]; [reflexivity | lia]. }
  destruct (Z.gtb_spec k (Z.of_nat (length population))).
  { split.
    - intros Heq. injection Heq as <-. right. split; [lia | reflexivity].
    - intros [[? _] | [_ ->]]; [lia | reflexivity]. }
  split; [| intros [[? _] | [? _]]; lia].
  intros Hthrown. exfalso.
  destruct (negb _).
  - unfold mbind, M_bind, Random.shuffle in Hthrown.
    pose proof (shuffle_loop_never_throws (length population - 1) population draws)
      as Hnt.
    destruct (Random.shuffle_loop _ population draws); try discriminate.
    by eapply Hnt.
  - by eapply sample_loop_never_throws.
Qed.

Lemma number_integer_nonneg (k : number) :
  number_negative k = false → 0 <= number_integer k.
Proof.
  unfold number_integer.
  destruct k as [q | | |]; cbn [number_negative number_value];
    try (intros _; reflexivity).
  intros Hq. apply negb_false_iff, Qle_bool_iff in Hq.
  change 0 with (Qfloor 0). by apply Qfloor_resp_le.
Qed.

Lemma number_integer_negative (k : number) :
  Number_isInteger k = true → number_negative k = true →
  number_integer k < 0.
Proof.
  unfold number_integer.
  destruct k as [q | | |];
    cbn [Number_isInteger number_negative number_value];
    try discriminate.
  intros _ Hq. apply negb_Qle_bool_true in Hq.
  rewrite Zlt_Qlt. eapply Qle_lt_trans; [apply Qfloor_le | exact Hq].
Qed.

(** X7: [sample], with any number for [k], throws exactly when [k] is
    not an integer or is negative, or is larger than the population; a
    [RangeError] with the message of the guard that fires. *)
Theorem sample_throws_iff {T} (population : list T) (k : number)
    (draws : list Q) (e : error) :
  Random.sample_number population k draws = Thrown e
  ↔ ((Number_isInteger k = false ∨ number_negative k = true)
     ∧ e = RangeError "Sample size must be a non-negative integer")
    ∨ (Number_isInteger k = true
       ∧ Z.of_nat (length population) < number_integer k
       ∧ e = RangeError "Sample size cannot be larger than population").
Proof.
  unfold Random.sample_number.
  destruct (Number_isInteger k) eqn:Hint; cbn [negb orb].
  2: { split.
       - intros Heq. injection Heq as <-. left. split; [by left | reflexivity].
       - intros [[_ ->] | [? _]]; [reflexivity | discriminate]. }
  destruct (number_negative k) eqn:Hneg.
  { split.
    - intros Heq. injection Heq as <-. left. split; [by right | reflexivity].
    - intros [[_ ->] | (_ & Hbig & _)]; [reflexivity |].
      pose proof (number_integer_negative k Hint Hneg). lia. }
  pose proof (number_integer_nonneg k Hneg) as Hk.
  rewrite sample_integer_throws_iff. split.
  - intros [[? _] | [Hbig ->]]; [lia |]. right. done.
  - intros [[[? | ?] _] | (_ & Hbig & ->)]; [discriminate | discriminate |].
    right. done.
Qed.




(** ** choices: the binary search *)

Lemma binarySearch_loop_step (cumulative : list Q) (target : Q) (lo hi : Z) :
  Random.binarySearch_loop cumulative target lo hi
  = if lo <? hi then
      let mid := (lo + hi) / 2 in
      match Random.array_get cumulative mid with
      | Some c =>
          if negb (Qle_bool target c)
          then Random.binarySearch_loop cumulative target (mid + 1) hi
          else Random.binarySearch_loop cumulative target lo mid
      | None => Random.binarySearch_loop cumulative target lo mid
      end
    else lo.
Proof.
  rewrite Random.binarySearch_loop_equation_1.
  destruct (Z_lt_dec lo hi) as [Hlt | Hge], (Z.ltb_spec lo hi); try lia.
  - apply Random.binarySearch_loop_clause_1_equation_1.
  - reflexivity.
Qed.

(** Whatever the array holds, the search stays between its bounds. *)
Lemma binarySearch_loop_bounds (cumulative : list Q) (target : Q) :
  ∀ (m : nat) (lo hi : Z),
    Z.to_nat (hi - lo) = m → lo <= hi →
    lo <= Random.binarySearch_loop cumulative target lo hi <= hi.
Proof.
  induction m as [m IH] using lt_wf_ind. intros lo hi Hm Hle.
  rewrite binarySearch_loop_step.
  destruct (Z.ltb_spec lo hi) as [Hlt | Hge]; [| lia].
  cbv zeta.
  assert (Hmid : lo <= (lo + hi) / 2 < hi) by (Z.div_mod_to_equations; lia).
  assert (Hup : lo <= Random.binarySearch_loop cumulative target
                        ((lo + hi) / 2 + 1) hi <= hi).
  { pose proof (IH (Z.to_nat (hi - ((lo + hi) / 2 + 1))) ltac:(lia)
                  ((lo + hi) / 2 + 1) hi eq_refl ltac:(lia)). lia. }
  assert (Hdown : lo <= Random.binarySearch_loop cumulative target
                          lo ((lo + hi) / 2) <= hi).
  { pose proof (IH (Z.to_nat ((lo + hi) / 2 - lo)) ltac:(lia)
                  lo ((lo + hi) / 2) eq_refl ltac:(lia)). lia. }
  destruct (Random.array_get cumulative _) as [c |]; [| exact Hdown].
  destruct (negb _); assumption.
Qed.

Section BinarySearch.

Variable cumulative : list Q.
Variable target : Q.

Hypothesis Hmono :
  ∀ (i j : nat) x y, (i <= j)%nat →
    cumulative !! i = Some x → cumulative !! j = Some y → (x <= y)%Q.

Lemma binarySearch_loop_leftmost :
  ∀ (m : nat) (lo hi : Z),
    Z.to_nat (hi - lo) = m →
    0 <= lo <= hi → hi < Z.of_nat (length cumulative) →
    (∀ i x, 0 <= i < lo → Random.array_get cumulative i = Some x → (x < target)%Q) →
    (∀ x, Random.array_get cumulative hi = Some x → (target <= x)%Q) →
    let idx := Random.binarySearch_loop cumulative target lo hi in
    lo <= idx <= hi
    ∧ (∀ x, Random.array_get cumulative idx = Some x → (target <= x)%Q)
    ∧ (∀ i x, 0 <= i < idx → Random.array_get cumulative i = Some x → (x < target)%Q).
Proof.
  induction m as [m IH] using lt_wf_ind.
  intros lo hi Hm Hlo Hhi Hbelow Habove idx. subst idx.
  rewrite binarySearch_loop_step.
  destruct (Z.ltb_spec lo hi) as [Hlt | Hge].
  2: { assert (lo = hi) as -> by lia. split; [lia |]. split; assumption. }
  cbv zeta.
  assert (Hmid : lo <= (lo + hi) / 2 < hi) by (Z.div_mod_to_equations; lia).
  set (mid := (lo + hi) / 2) in *.
  destruct (array_get_in_bounds cumulative mid ltac:(lia)) as [c Hc].
  rewrite Hc.
  destruct (negb (Qle_bool target c)) eqn:Hcmp.
  - apply negb_Qle_bool_true in Hcmp.
    destruct (IH (Z.to_nat (hi - (mid + 1))) ltac:(lia) (mid + 1) hi eq_refl
                ltac:(lia) Hhi) as (Hr & Hge & Hlt');
      [| exact Habove | split; [lia | split; assumption]].
    intros i x Hi Hx.
    apply array_get_Some in Hx as [_ Hx]. apply array_get_Some in Hc as [_ Hc].
    pose proof (Hmono (Z.to_nat i) (Z.to_nat mid) x c ltac:(lia) Hx Hc). lra.
  - apply negb_Qle_bool_false in Hcmp.
    destruct (IH (Z.to_nat (mid - lo)) ltac:(lia) lo mid eq_refl
                ltac:(lia) ltac:(lia) Hbelow) as (Hr & Hge & Hlt');
      [| split; [lia | split; assumption]].
    intros x Hx. rewrite Hc in Hx. injection Hx as <-. exact Hcmp.
Qed.

End BinarySearch.

Lemma binarySearch_finds_leftmost (cumulative : list Q) (target : Q) :
  cumulative ≠ [] →
  (∀ (i j : nat) x y, (i <= j)%nat →
     cumulative !! i = Some x → cumulative !! j = Some y → (x <= y)%Q) →
  (∀ x, last cumulative = Some x → (target <= x)%Q) →
  let idx := Random.binarySearch cumulative target in
  0 <= idx < Z.of_nat (length cumulative)
  ∧ (∃ x, Random.array_get cumulative idx = Some x ∧ (target <= x)%Q)
  ∧ (∀ i x, 0 <= i < idx →
       Random.array_get cumulative i = Some x → (x < target)%Q).
Proof.
  intros Hne Hmono Hlast idx.
  assert (Hlen : (0 < length cumulative)%nat)
    by (destruct cumulative; [done | simpl; lia]).
  destruct (binarySearch_loop_leftmost cumulative target Hmono
              (Z.to_nat (Z.of_nat (length cumulative) - 1 - 0))
              0 (Z.of_nat (length cumulative) - 1) eq_refl)
    as (Hr & Hge & Hlt); try lia.
  - intros x Hx. apply Hlast. rewrite last_lookup.
    apply array_get_Some in Hx as [_ Hx].
    replace (Init.Nat.pred (length cumulative))
      with (Z.to_nat (Z.of_nat (length cumulative) - 1)) by lia.
    exact Hx.
  - fold (Random.binarySearch cumulative target) in Hr, Hge, Hlt. fold idx in Hr, Hge, Hlt.
    split; [lia |]. split; [| exact Hlt].
    destruct (array_get_in_bounds cumulative idx ltac:(lia)) as [x Hx].
    exists x. split; [exact Hx | by apply Hge].
Qed.

(** X9: on a non-empty, non-decreasing array whose last entry is not
    below the target, [binarySearch] returns the leftmost index whose
    entry is not less than the target. *)
Theorem binarySearch_leftmost (cumulative : list Q) (target : Q) :
  cumulative ≠ [] →
  (∀ (i j : nat) x y, (i <= j)%nat →
     cumulative !! i = Some x → cumulative !! j = Some y → (x <= y)%Q) →
  (∀ x, last cumulative = Some x → (target <= x)%Q) →
  let idx := Random.binarySearch cumulative target in
  0 <= idx < Z.of_nat (length cumulative)
  ∧ (∃ x, Random.array_get cumulative idx = Some x ∧ (target <= x)%Q)
  ∧ (∀ i x, 0 <= i < idx →
       Random.array_get cumulative i = Some x → (x < target)%Q).
Proof. exact (binarySearch_finds_leftmost cumulative target). Qed.

Lemma binarySearch_leftmost_witness :
  let cumulative := [(1 # 4)%Q; (1 # 2)%Q; 1%Q] in
  let idx := Random.binarySearch cumulative (1 # 3) in
  0 <= idx < Z.of_nat (length cumulative)
  ∧ (∃ x, Random.array_get cumulative idx = Some x ∧ (1 # 3 <= x)%Q)
  ∧ (∀ i x, 0 <= i < idx →
       Random.array_get cumulative i = Some x → (x < 1 # 3)%Q).
Proof.
  apply (binarySearch_leftmost [(1 # 4)%Q; (1 # 2)%Q; 1%Q] (1 # 3)).
  - discriminate.
  - intros [| [| [| i]]] [| [| [| j]]] x y Hij Hx Hy;
      simplify_eq/=; try lia; vm_compute; discriminate.
  - intros x Hx. simplify_eq/=. vm_compute. discriminate.
Defined.

Example binarySearch_ties :
  Random.binarySearch [(1 # 4)%Q; (1 # 2)%Q; (1 # 2)%Q; 1%Q] (1 # 2) = 1
  ∧ Random.binarySearch [(1 # 4)%Q; (1 # 2)%Q; (1 # 2)%Q; 1%Q] 0 = 0.
Proof. split; reflexivity. Qed.

(** ** choices: what is returned *)

Lemma binarySearch_in_bounds (cumulative : list Q) (target : Q) :
  cumulative ≠ [] →
  0 <= Random.binarySearch cumulative target < Z.of_nat (length cumulative).
Proof.
  intros Hne.
  assert (Hlen : (0 < length cumulative)%nat)
    by (destruct cumulative; [done | simpl; lia]).
  pose proof (binarySearch_loop_bounds cumulative target _ 0
                (Z.of_nat (length cumulative) - 1) eq_refl ltac:(lia)) as Hb.
  unfold Random.binarySearch. lia.
Qed.

Lemma choices_weighted_runs {T} (population : list T) (cumulative : list Q) :
  population ≠ [] →
  length cumulative = length population →
  ∀ (k : nat) (draws : list Q),
    (k <= length draws)%nat →
    ∃ res,
      Random.choices_weighted population cumulative k draws
        = Returned res (drop k draws)
      ∧ Forall2
          (λ r x, Random.array_get population (Random.binarySearch cumulative r)
                  = Some x)
          (take k draws) res.
Proof.
  intros Hpop Hlen.
  assert (Hc : cumulative ≠ []).
  { destruct cumulative, population; simpl in *; done. }
  induction k as [| k IH]; intros draws Hk.
  - exists []. split; [by rewrite drop_0 | constructor].
  - destruct draws as [| r draws]; [simpl in Hk; lia |].
    pose proof (binarySearch_in_bounds cumulative r Hc) as Hidx.
    destruct (array_get_in_bounds population (Random.binarySearch cumulative r))
      as [x Hx]; [lia |].
    destruct (IH draws ltac:(simpl in Hk; lia)) as (res & Hrun & HF).
    exists (x :: res). split.
    + cbn [Random.choices_weighted]. unfold mbind, M_bind, Math_random.
      rewrite Hx. unfold mbind, M_bind in Hrun |- *. rewrite Hrun. reflexivity.
    + cbn [take]. by constructor.
Qed.

Lemma double_cumulative_length (weights : list number) :
  length (Double.cumulative_of weights) = length weights.
Proof.
  unfold Double.cumulative_of. cbv zeta. rewrite length_insert.
  generalize (Double.sum_of weights), (of_Z 0).
  induction weights as [| w ws IH]; intros sum acc; [reflexivity |].
  simpl. by rewrite IH.
Qed.

(** X10: for weights that pass the checks and a [k] that an array can
    hold, [choices] with [k] draws at hand returns exactly [k] elements,
    all of them elements of the population, and reads exactly [k]
    draws. *)
Theorem choices_weighted_result {T} (population : list T) (weights : list Q)
    (k : Z) (draws : list Q) :
  population ≠ [] →
  length weights = length population →
  Forall weight weights →
  js_le (Double.sum_of (Finite <$> weights)) (of_Z 0) = false →
  0 <= k <= 0xFFFFFFFF →
  (Z.to_nat k <= length draws)%nat →
  ∃ res,
    Double.choices population (Some (Finite <$> weights)) (Some (of_Z k)) draws
      = Returned res (drop (Z.to_nat k) draws)
    ∧ Z.of_nat (length res) = k
    ∧ ∀ x, x ∈ res → x ∈ population.
Proof.
  intros Hpop Hlen Hw Hsum [Hk _] Hd.
  rewrite double_choices_passes_checks by assumption.
  destruct (choices_weighted_runs population
              (number_value <$> Double.cumulative_of (Finite <$> weights)) Hpop
              ltac:(by rewrite length_fmap, double_cumulative_length, length_fmap)
              (Z.to_nat k) draws Hd)
    as (res & Hrun & HF).
  exists res. split; [exact Hrun |]. split.
  - apply Forall2_length in HF. rewrite length_take in HF. lia.
  - intros x Hx. apply list_elem_of_lookup in Hx as [i Hi].
    destruct (Forall2_lookup_r _ _ _ _ _ HF Hi) as (r & _ & Hget).
    apply array_get_Some in Hget as [_ Hget].
    apply list_elem_of_lookup. eauto.
Qed.

Lemma choices_weighted_result_witness :
  ∃ res,
    Double.choices [1; 2] (Some (Finite <$> [(3 # 4)%Q; (1 # 4)%Q])) (Some (of_Z 2))
      [(1 # 2)%Q; (7 # 8)%Q; (1 # 4)%Q]
      = Returned res (drop (Z.to_nat 2) [(1 # 2)%Q; (7 # 8)%Q; (1 # 4)%Q])
    ∧ Z.of_nat (length res) = 2
    ∧ ∀ x, x ∈ res → x ∈ [1; 2].
Proof.
  apply (choices_weighted_result [1; 2] [(3 # 4)%Q; (1 # 4)%Q] 2
           [(1 # 2)%Q; (7 # 8)%Q; (1 # 4)%Q]).
  - discriminate.
  - reflexivity.
  - repeat constructor; vm_compute; (reflexivity || discriminate).
  - vm_compute. reflexivity.
  - lia.
  - simpl. lia.
Defined.

(** ** choices: the draw 0 *)

(** A target that no entry is below sends the search to position 0,
    whatever the order of the entries. *)
Lemma binarySearch_loop_low (cumulative : list Q) (target : Q) :
  Forall (λ x, (target <= x)%Q) cumulative →
  ∀ (m : nat) (hi : Z),
    Z.to_nat hi = m → 0 <= hi →
    Random.binarySearch_loop cumulative target 0 hi = 0.
Proof.
  intros Hall m. induction m as [m IH] using lt_wf_ind. intros hi Hm Hhi.
  rewrite binarySearch_loop_step.
  destruct (Z.ltb_spec 0 hi) as [Hlt | _]; [| reflexivity].
  assert (Hmid : 0 <= (0 + hi) / 2 < hi) by (Z.div_mod_to_equations; lia).
  cbv zeta.
  destruct (Random.array_get cumulative ((0 + hi) / 2)) as [c |] eqn:Hc.
  - apply array_get_Some in Hc as [_ Hc].
    rewrite Forall_lookup in Hall. specialize (Hall _ _ Hc).
    assert (Hb : negb (Qle_bool target c) = false)
      by (by apply negb_Qle_bool_false).
    rewrite Hb. apply (IH (Z.to_nat ((0 + hi) / 2))); lia.
  - apply (IH (Z.to_nat ((0 + hi) / 2))); lia.
Qed.

(** X11: for weights that pass the checks, a draw of exactly 0 selects
    position 0, and [choices] returns the first element of the
    population, whatever its weight; so an element of weight 0 can be
    returned. *)
Theorem choices_zero_draw_first {T} (x0 : T) (population : list T)
    (weights : list Q) (rest : list Q) :
  length weights = length (x0 :: population) →
  Forall weight weights →
  js_le (Double.sum_of (Finite <$> weights)) (of_Z 0) = false →
  Random.binarySearch
    (number_value <$> Double.cumulative_of (Finite <$> weights)) 0 = 0
  ∧ Double.choices (x0 :: population) (Some (Finite <$> weights)) (Some (of_Z 1))
      (0%Q :: rest)
    = Returned [x0] rest.
Proof.
  intros Hlen Hw Hsum.
  assert (Hn : (0 < length weights)%nat) by (rewrite Hlen; simpl; lia).
  destruct (double_cumulative weights Hn Hw Hsum)
    as (cumulative & Hc & Hcl & Hall & _).
  rewrite double_choices_passes_checks by (done || lia).
  rewrite Hc, number_value_Finite.
  assert (Hidx : Random.binarySearch cumulative 0 = 0).
  { unfold Random.binarySearch.
    apply (binarySearch_loop_low cumulative 0) with (m := Z.to_nat (Z.of_nat (length cumulative) - 1)).
    - eapply Forall_impl; [exact Hall |]. by intros q [_ Hq].
    - reflexivity.
    - lia. }
  split; [exact Hidx |].
  change (Z.to_nat 1) with 1%nat.
  cbn [Random.choices_weighted]. unfold mbind, M_bind, Math_random.
  rewrite Hidx. reflexivity.
Qed.

Lemma choices_zero_draw_first_witness :
  Random.binarySearch
    (number_value <$> Double.cumulative_of (Finite <$> [0%Q; 3%Q; 0%Q; 1%Q])) 0
  = 0
  ∧ Double.choices [10; 20; 30; 40] (Some (Finite <$> [0%Q; 3%Q; 0%Q; 1%Q]))
      (Some (of_Z 1)) [0%Q; (1 # 2)%Q]
    = Returned [10] [(1 # 2)%Q].
Proof.
  apply (choices_zero_draw_first 10 [20; 30; 40] [0%Q; 3%Q; 0%Q; 1%Q]
           [(1 # 2)%Q]).
  - reflexivity.
  - repeat constructor; vm_compute; (reflexivity || discriminate).
  - vm_compute. reflexivity.
Defined.

(** ** choices: equal weights and errors *)

(** X12: without weights, for a population of a length an array can
    have and a [k] that an array can hold, [choices] with [k] draws at
    hand, doubles of [[0,1)], returns exactly [k] elements, all of them
    elements of the population, and reads exactly [k] draws. *)
Theorem choices_uniform_result {T} (population : list T) (k : Z)
    (draws : list Q) :
  population ≠ [] →
  Z.of_nat (length population) <= 0xFFFFFFFF →
  0 <= k <= 0xFFFFFFFF →
  Forall Double.double_draw draws →
  (Z.to_nat k <= length draws)%nat →
  ∃ res,
    Double.choices population None (Some (of_Z k)) draws
      = Returned res (drop (Z.to_nat k) draws)
    ∧ Z.of_nat (length res) = k
    ∧ ∀ x, x ∈ res → x ∈ population.
Proof.
  change 0xFFFFFFFF with 4294967295. intros Hpop Hlen [Hk _] Hu Hd.
  destruct (double_choices_uniform_runs population Hpop ltac:(lia)
              (Z.to_nat k) draws Hu Hd)
    as (res & Hrun & Hl & HF).
  exists res. split; [| split].
  - unfold Double.choices. cbn [default from_option id]. cbv zeta.
    destruct (Z.eqb_spec (Z.of_nat (length population)) 0) as [E | _];
      [destruct population; [done | simpl in E; lia] |].
    rewrite Number_isInteger_Z, number_negative_Z, number_integer_Z.
    cbn [negb orb].
    destruct (Z.ltb_spec k 0); [lia | exact Hrun].
  - lia.
  - intros x Hx. rewrite Forall_forall in HF. by apply HF.
Qed.

Lemma choices_uniform_result_witness :
  ∃ res,
    Double.choices [10; 20; 30] None (Some (of_Z 2)) [(1 # 2)%Q; (7 # 8)%Q]
      = Returned res (drop (Z.to_nat 2) [(1 # 2)%Q; (7 # 8)%Q])
    ∧ Z.of_nat (length res) = 2
    ∧ ∀ x, x ∈ res → x ∈ [10; 20; 30].
Proof.
  apply (choices_uniform_result [10; 20; 30] 2 [(1 # 2)%Q; (7 # 8)%Q]).
  - discriminate.
  - vm_compute. discriminate.
  - lia.
  - repeat constructor; vm_compute; (reflexivity || discriminate).
  - simpl. lia.
Defined.

Lemma choices_weighted_never_throws {T} (population : list T)
    (cumulative : list Q) :
  ∀ (k : nat) (draws : list Q) e,
    Random.choices_weighted population cumulative k draws ≠ Thrown e.
Proof.
  induction k as [| k IH]; intros draws e; [discriminate |].
  cbn [Random.choices_weighted]. unfold mbind, M_bind, Math_random.
  destruct draws as [| r draws]; [discriminate |].
  destruct (Random.array_get population _); [| discriminate].
  specialize (IH draws).
  destruct (Random.choices_weighted population cumulative k draws);
    try discriminate.
  intros Heq. injection Heq as ->. by eapply IH.
Qed.

Lemma refused_weight_iff (weights : list number) :
  existsb (λ w, negb (Number_isFinite w) || number_negative w)
    weights = true
  ↔ Exists (λ w, Number_isFinite w = false
                 ∨ number_negative w = true) weights.
Proof.
  rewrite existsb_exists, Exists_exists. split.
  - intros (w & Hin & Hbad). exists w. split; [by apply list_elem_of_In |].
    apply orb_true_iff in Hbad as [Hf | Hn]; [left | by right].
    by apply negb_true_iff.
  - intros (w & Hin & Hbad). exists w. split; [by apply list_elem_of_In |].
    apply orb_true_iff. destruct Hbad as [Hf | Hn]; [left | by right].
    by apply negb_true_iff.
Qed.

Lemma accepted_weights_iff (weights : list number) :
  existsb (λ w, negb (Number_isFinite w) || number_negative w)
    weights = false
  ↔ Forall (λ w, Number_isFinite w = true
                 ∧ number_negative w = false) weights.
Proof.
  rewrite <- not_true_iff_false, refused_weight_iff.
  rewrite <- Forall_Exists_neg.
  split; intros Hall; (eapply Forall_impl; [exact Hall |]); intros w; cbv beta.
  - destruct (Number_isFinite w), (number_negative w); intuition.
  - intros [-> ->] [? | ?]; discriminate.
Qed.

(** X13: the errors of [choices], on arguments that are numbers, in the
    order of the checks: an empty population; a [k] that is not an
    integer or is negative; weights of another length; a weight that is
    not finite or is negative; a sum of weights, as line 203 adds them
    up, that is not positive.  For a [k] that an array can hold nothing
    else makes it throw. *)
Theorem choices_throws_iff {T} (population : list T)
    (weights : option (list number)) (k : number)
    (draws : list Q) (e : error) :
  number_integer k <= 0xFFFFFFFF →
  Double.choices population weights (Some k) draws = Thrown e
  ↔ (population = [] ∧ e = RangeError "Population cannot be empty")
    ∨ (population ≠ []
       ∧ (Number_isInteger k = false ∨ number_negative k = true)
       ∧ e = RangeError "k must be a non-negative integer")
    ∨ (population ≠ []
       ∧ Number_isInteger k = true ∧ number_negative k = false
       ∧ ∃ ws, weights = Some ws
         ∧ ((length ws ≠ length population
             ∧ e = RangeError "Weights must have the same length as population")
            ∨ (length ws = length population
               ∧ Exists (λ w, Number_isFinite w = false
                              ∨ number_negative w = true) ws
               ∧ e = RangeError "All weights must be non-negative finite numbers")
            ∨ (length ws = length population
               ∧ Forall (λ w, Number_isFinite w = true
                              ∧ number_negative w = false) ws
               ∧ js_le (Double.sum_of ws) (of_Z 0) = true
               ∧ e = RangeError "Weight sum must be positive"))).
Proof.
  intros _.
  unfold Double.choices. cbn [default from_option id]. cbv zeta.
  destruct (Z.eqb_spec (Z.of_nat (length population)) 0) as [E | Hn].
  { assert (population = []) as -> by (destruct population; [done | simpl in E; lia]).
    split.
    - intros Heq. injection Heq as <-. by left.
    - intros [[_ ->] | [[? _] | [? _]]]; done. }
  assert (Hpop : population ≠ []) by (intros ->; simpl in Hn; lia).
  destruct (Number_isInteger k) eqn:Hint; cbn [negb orb].
  2: { split.
       - intros Heq. injection Heq as <-. right. left.
         split; [done |]. split; [by left | done].
       - intros [[? _] | [(_ & _ & ->) | (_ & ? & _)]]; done. }
  destruct (number_negative k) eqn:Hneg.
  { split.
    - intros Heq. injection Heq as <-. right. left.
      split; [done |]. split; [by right | done].
    - intros [[? _] | [(_ & _ & ->) | (_ & _ & ? & _)]]; done. }
  destruct weights as [ws |].
  2: { split.
       - intros Hthrown. by apply double_choices_uniform_never_throws in Hthrown.
       - intros [[? _] | [(_ & [? | ?] & _) | (_ & _ & _ & ws & ? & _)]]; done. }
  destruct (Z.eqb_spec (Z.of_nat (length ws)) (Z.of_nat (length population)))
    as [Hlen | Hlen]; cbn [negb].
  2: { split.
       - intros Heq. injection Heq as <-. right. right.
         do 3 (split; [done |]). exists ws. split; [done |].
         left. split; [lia | done].
       - intros [[? _] | [(_ & [? | ?] & _) | (_ & _ & _ & ws' & Hws & Hcase)]];
           [done | done | done |].
         injection Hws as <-.
         destruct Hcase as [[_ ->] | [(? & _) | (? & _)]]; [done | lia | lia]. }
  apply Nat2Z.inj in Hlen.
  destruct (existsb _ ws) eqn:Hbad.
  { apply refused_weight_iff in Hbad. split.
    - intros Heq. injection Heq as <-. right. right.
      do 3 (split; [done |]). exists ws. split; [done |].
      right. left. done.
    - intros [[? _] | [(_ & [? | ?] & _) | (_ & _ & _ & ws' & Hws & Hcase)]];
        [done | done | done |].
      injection Hws as <-.
      destruct Hcase as [[? _] | [(_ & _ & ->) | (_ & Hall & _)]];
        [done | done |].
      exfalso. apply Exists_exists in Hbad as (w & Hin & Hw).
      rewrite Forall_forall in Hall. destruct (Hall w Hin) as [Hf Hnn].
      destruct Hw; congruence. }
  apply accepted_weights_iff in Hbad.
  destruct (js_le (Double.sum_of ws) (of_Z 0)) eqn:Hsum.
  { split.
    - intros Heq. injection Heq as <-. right. right.
      do 3 (split; [done |]). exists ws. split; [done |].
      right. right. done.
    - intros [[? _] | [(_ & [? | ?] & _) | (_ & _ & _ & ws' & Hws & Hcase)]];
        [done | done | done |].
      injection Hws as <-.
      destruct Hcase as [[? _] | [(_ & Hex & _) | (_ & _ & _ & ->)]];
        [done | | done].
      exfalso. apply Exists_exists in Hex as (w & Hin & Hw).
      rewrite Forall_forall in Hbad. destruct (Hbad w Hin) as [Hf Hnn].
      destruct Hw; congruence. }
  split.
  - intros Hthrown. by apply choices_weighted_never_throws in Hthrown.
  - intros [[? _] | [(_ & [? | ?] & _) | (_ & _ & _ & ws' & Hws & Hcase)]];
      [done | done | done |].
    injection Hws as <-. exfalso.
    destruct Hcase as [[? _] | [(_ & Hex & _) | (_ & _ & Hle & _)]]; [done | |].
    + apply Exists_exists in Hex as (w & Hin & Hw).
      rewrite Forall_forall in Hbad. destruct (Hbad w Hin) as [Hf Hnn].
      destruct Hw; congruence.
    + congruence.
Qed.

Lemma choices_throws_iff_witness :
  Double.choices [10; 20] (Some [Finite 1; PosInfinity])
    (Some (Finite 3)) [(1 # 2)%Q]
  = Thrown (RangeError "All weights must be non-negative finite numbers").
Proof.
  apply (choices_throws_iff [10; 20]
           (Some [Finite 1; PosInfinity]) (Finite 3)
           [(1 # 2)%Q]
           (RangeError "All weights must be non-negative finite numbers")).
  - vm_compute. discriminate.
  - right. right. split; [discriminate |].
    split; [reflexivity |]. split; [reflexivity |].
    eexists. split; [reflexivity |].
    right. left. split; [reflexivity |]. split; [| reflexivity].
    apply Exists_cons_tl, Exists_cons_hd. by left.
Defined.

(** ** gauss: errors and consecutive calls *)

Lemma box_muller_draws_never_throws (draws : list Q) :
  ∀ e, Random.box_muller_draws draws ≠ Thrown e.
Proof.
  assert (H : ∀ l, (∀ e, Random.box_muller_draws l ≠ Thrown e)
                   ∧ (∀ a e, Random.box_muller_draws (a :: l) ≠ Thrown e)).
  { induction l as [| b l [IH0 IH1]].
    - split; intros; discriminate.
    - split; [apply IH1 |]. intros a e. cbn [Random.box_muller_draws].
      destruct (Qeq_bool a 0); [apply IH0 | discriminate]. }
  apply H.
Qed.

Lemma gauss_finite_throws_iff {math : Random.MathLib} (this : Random.state)
    (mu sigma : Q) (draws : list Q) (e : error) :
  Random.gauss this mu sigma draws = Thrown e
  ↔ (sigma <= 0)%Q ∧ e = RangeError "Standard deviation must be positive".
Proof.
  unfold Random.gauss. destruct (Qle_bool sigma 0) eqn:Hs.
  - apply Qle_bool_iff in Hs. split.
    + intros Heq. injection Heq as <-. by split.
    + intros [_ ->]. reflexivity.
  - split.
    + intros Hthrown. exfalso.
      destruct (Random.cachedGaussian this); [discriminate |].
      unfold mbind, M_bind in Hthrown.
      pose proof (box_muller_draws_never_throws draws) as Hnt.
      destruct (Random.box_muller_draws draws) as [[u1 u2] rest | | |];
        try discriminate.
      by eapply Hnt.
    + intros [Hle _]. apply Qle_bool_iff in Hle. congruence.
Qed.

(** X14: [gauss], on arguments that are numbers, throws exactly when
    one of them is not finite or when [sigma <= 0], a [RangeError] with
    the message of the guard that fires, whatever the cache holds. *)
Theorem gauss_throws_iff {math : Random.MathLib} (this : Random.state)
    (mu sigma : number) (draws : list Q) (e : error) :
  Random.gauss_number this mu sigma draws = Thrown e
  ↔ ((Number_isFinite mu = false ∨ Number_isFinite sigma = false)
     ∧ e = RangeError "Arguments must be finite numbers")
    ∨ (∃ m s, mu = Finite m ∧ sigma = Finite s ∧ (s <= 0)%Q
              ∧ e = RangeError "Standard deviation must be positive").
Proof.
  unfold Random.gauss_number.
  destruct mu as [m | | |], sigma as [s | | |];
    cbn [Number_isFinite negb orb];
    try (split;
         [ intros Heq; injection Heq as <-; left; split; [auto | reflexivity]
         | intros [[_ ->] | (m' & s' & Hm & Hs & _)];
           [reflexivity | discriminate] ]).
  cbn [number_value]. rewrite gauss_finite_throws_iff. split.
  - intros [Hle ->]. right. by exists m, s.
  - intros [[[? | ?] _] | (m' & s' & Hm & Hs & Hle & ->)]; try discriminate.
    injection Hs as <-. done.
Qed.



(** ** SecureRandom: bytes and the 32-bit draw *)

Lemma getRandomUint32_round (b0 b1 b2 b3 : Byte.byte) (rest : list Byte.byte) :
  SecureRandom.getRandomUint32 (b0 :: b1 :: b2 :: b3 :: rest)
  = Returned (SecureRandom.uint32_of_bytes b0 b1 b2 b3) rest.
Proof. reflexivity. Qed.

(** X16: [getRandomUint32] reads exactly four bytes and composes them
    big-endian into a value of [[0, 2^32)], also when the first byte has
    its high bit set and the intermediate [<<] and [|] results are
    negative; with fewer than four bytes left it does not return. *)
Theorem getRandomUint32_big_endian (b0 b1 b2 b3 : Byte.byte)
    (rest : list Byte.byte) :
  let v := SecureRandom.byte_value b0 * 2 ^ 24 + SecureRandom.byte_value b1 * 2 ^ 16
           + SecureRandom.byte_value b2 * 2 ^ 8 + SecureRandom.byte_value b3 in
  SecureRandom.getRandomUint32 (b0 :: b1 :: b2 :: b3 :: rest) = Returned v rest
  ∧ 0 <= v < 2 ^ 32
  ∧ ∀ src, (length src < 4)%nat → SecureRandom.getRandomUint32 src = Starved.
Proof.
  intros v. split; [| split].
  - rewrite getRandomUint32_round. f_equal. apply uint32_of_bytes_big_endian.
  - unfold v. rewrite <- uint32_of_bytes_big_endian. apply uint32_of_bytes_range.
  - intros src Hlen.
    destruct src as [| ? [| ? [| ? [| ? ?]]]]; cbn [length] in Hlen; try lia;
      reflexivity.
Qed.

Lemma getRandomUint32_big_endian_witness :
  SecureRandom.getRandomUint32 [Byte.x01; Byte.x02; Byte.x03] = Starved.
Proof.
  apply (proj2 (proj2 (getRandomUint32_big_endian
                         Byte.x00 Byte.x00 Byte.x00 Byte.x00 []))).
  simpl. lia.
Defined.

Lemma byte_value_inj (b c : Byte.byte) :
  SecureRandom.byte_value b = SecureRandom.byte_value c → b = c.
Proof.
  unfold SecureRandom.byte_value. intros H. apply N2Z.inj in H.
  pose proof (Byte.of_to_N b) as Hb. rewrite H, Byte.of_to_N in Hb.
  congruence.
Qed.

Lemma byte_value_onto (n : Z) :
  0 <= n < 256 → ∃ b, SecureRandom.byte_value b = n.
Proof.
  intros Hn. destruct (Byte.of_N (Z.to_N n)) as [b |] eqn:Hb.
  - exists b. unfold SecureRandom.byte_value.
    apply Byte.to_of_N in Hb. rewrite Hb. lia.
  - apply Byte.of_N_None_iff in Hb. lia.
Qed.

(** X17: the four bytes and the 32-bit value determine each other: two
    different groups of four bytes give different values, and every
    value of [[0, 2^32)] comes from some four bytes. *)
Theorem uint32_of_bytes_bijective :
  (∀ b0 b1 b2 b3 c0 c1 c2 c3,
     SecureRandom.uint32_of_bytes b0 b1 b2 b3
     = SecureRandom.uint32_of_bytes c0 c1 c2 c3 →
     b0 = c0 ∧ b1 = c1 ∧ b2 = c2 ∧ b3 = c3)
  ∧ (∀ v, 0 <= v < 2 ^ 32 →
       ∃ b0 b1 b2 b3, SecureRandom.uint32_of_bytes b0 b1 b2 b3 = v).
Proof.
  split.
  - intros b0 b1 b2 b3 c0 c1 c2 c3 Heq.
    rewrite !uint32_of_bytes_big_endian in Heq.
    pose proof (byte_value_range b0). pose proof (byte_value_range b1).
    pose proof (byte_value_range b2). pose proof (byte_value_range b3).
    pose proof (byte_value_range c0). pose proof (byte_value_range c1).
    pose proof (byte_value_range c2). pose proof (byte_value_range c3).
    change (2 ^ 24) with 16777216 in Heq. change (2 ^ 16) with 65536 in Heq.
    change (2 ^ 8) with 256 in Heq.
    repeat split; apply byte_value_inj; lia.
  - intros v Hv. change (2 ^ 32) with 4294967296 in Hv.
    destruct (byte_value_onto (v / 16777216)) as [b0 H0];
      [Z.div_mod_to_equations; lia |].
    destruct (byte_value_onto (v / 65536 mod 256)) as [b1 H1];
      [Z.div_mod_to_equations; lia |].
    destruct (byte_value_onto (v / 256 mod 256)) as [b2 H2];
      [Z.div_mod_to_equations; lia |].
    destruct (byte_value_onto (v mod 256)) as [b3 H3];
      [Z.div_mod_to_equations; lia |].
    exists b0, b1, b2, b3.
    rewrite uint32_of_bytes_big_endian, H0, H1, H2, H3.
    change (2 ^ 24) with 16777216. change (2 ^ 16) with 65536.
    change (2 ^ 8) with 256.
    Z.div_mod_to_equations. lia.
Qed.

Lemma uint32_of_bytes_bijective_witness :
  ∃ b0 b1 b2 b3, SecureRandom.uint32_of_bytes b0 b1 b2 b3 = 3000000000.
Proof. apply (proj2 uint32_of_bytes_bijective 3000000000). lia. Defined.

(** X18: [secure.bytes] throws a [TypeError] on a negative length; for
    a length of at most 65536, the most a single call of
    [crypto.getRandomValues] hands out, and a source that holds that
    many bytes, it returns exactly [length] bytes, the next ones of the
    source in order, and leaves the others unread. *)
Theorem secure_bytes_exact (length : Z) (src : list Byte.byte) :
  (length < 0 →
   SecureRandom.bytes length src
   = Thrown (TypeError "Length must be a non-negative integer"))
  ∧ (0 <= length → length <= 65536 → length <= Z.of_nat (List.length src) →
     ∃ res rest, SecureRandom.bytes length src = Returned res rest
                 ∧ Z.of_nat (List.length res) = length
                 ∧ res ++ rest = src).
Proof.
  unfold SecureRandom.bytes, SecureRandom.getRandomBytes.
  split.
  - intros Hneg. destruct (Z.ltb_spec length 0); [reflexivity | lia].
  - intros Hpos _ Hle. destruct (Z.ltb_spec length 0); [lia |].
    destruct (Nat.ltb_spec (List.length src) (Z.to_nat length)); [lia |].
    eexists _, _. split; [reflexivity |]. split.
    + rewrite length_take. lia.
    + apply take_drop.
Qed.

Lemma secure_bytes_exact_witness :
  ∃ res rest,
    SecureRandom.bytes 2 [Byte.x0a; Byte.x0b; Byte.x0c] = Returned res rest
    ∧ Z.of_nat (List.length res) = 2
    ∧ res ++ rest = [Byte.x0a; Byte.x0b; Byte.x0c].
Proof.
  apply (proj2 (secure_bytes_exact 2 [Byte.x0a; Byte.x0b; Byte.x0c]));
    simpl; lia.
Defined.

(** ** SecureRandom.randint: rejection *)

(** X19: the rejected draws are the top [2^32 mod range] values: fewer
    than [range] of them, less than half of all [2^32], and none when
    [range] divides [2^32]. *)
Theorem secure_randint_rejects_few (range : Z) :
  1 <= range →
  range <= 0xFFFFFFFF →
  let maxValid := SecureRandom.maxValid_of range in
  maxValid = 2 ^ 32 - 2 ^ 32 mod range
  ∧ 2 ^ 32 - maxValid < range
  ∧ 2 ^ 32 < 2 * maxValid
  ∧ ((range | 2 ^ 32) → maxValid = 2 ^ 32).
Proof.
  intros Hpos Hle maxValid.
  destruct (maxValid_of_facts range ltac:(lia) Hle) as (Hmv & Hq & Hbound & Hgap).
  fold maxValid in Hmv, Hbound, Hgap.
  pose proof (Z.div_mod (2 ^ 32) range ltac:(lia)) as Hdm.
  assert (Hform : maxValid = 2 ^ 32 - 2 ^ 32 mod range) by lia.
  split; [exact Hform |]. split; [lia |]. split.
  - assert (range <= maxValid) by nia. lia.
  - intros Hdiv. apply Z.mod_divide in Hdiv; [| lia]. lia.
Qed.

Lemma secure_randint_rejects_few_witness :
  let maxValid := SecureRandom.maxValid_of 6 in
  maxValid = 2 ^ 32 - 2 ^ 32 mod 6
  ∧ 2 ^ 32 - maxValid < 6
  ∧ 2 ^ 32 < 2 * maxValid
  ∧ ((6 | 2 ^ 32) → maxValid = 2 ^ 32).
Proof. apply (secure_randint_rejects_few 6); lia. Defined.


Lemma rejection_loop_skips (maxValid : Z)
    (rejected : list (Byte.byte * Byte.byte * Byte.byte * Byte.byte))
    (tail : list Byte.byte) :
  Forall (λ q, maxValid
               <= SecureRandom.uint32_of_bytes q.1.1.1 q.1.1.2 q.1.2 q.2)
    rejected →
  SecureRandom.rejection_loop maxValid
    (concat ((λ q, [q.1.1.1; q.1.1.2; q.1.2; q.2]) <$> rejected) ++ tail)
  = SecureRandom.rejection_loop maxValid tail.
Proof.
  induction 1 as [| [[[a b] c] d] rejected Hq _ IH]; [reflexivity |].
  cbn [fmap list_fmap concat fst snd app] in *.
  rewrite rejection_loop_round.
  destruct (Z.geb_spec (SecureRandom.uint32_of_bytes a b c d) maxValid);
    [exact IH | lia].
Qed.

(** X21: for safe integers [min <= max], [secure.randint] skips any
    number of rejected rounds and returns on the first accepted one,
    with [min + v mod range] for its draw [v], leaving the bytes after
    it unread; while the source holds rejected rounds only, the call
    does not return. *)
Theorem secure_randint_first_accepted (min max : Z)
    (rejected : list (Byte.byte * Byte.byte * Byte.byte * Byte.byte)) :
  min <= max →
  max - min + 1 <= 0xFFFFFFFF →
  - MAX_SAFE_INTEGER <= min →
  max <= MAX_SAFE_INTEGER →
  let range := max - min + 1 in
  let maxValid := SecureRandom.maxValid_of range in
  Forall (λ q, maxValid
               <= SecureRandom.uint32_of_bytes q.1.1.1 q.1.1.2 q.1.2 q.2)
    rejected →
  let skipped := concat ((λ q, [q.1.1.1; q.1.1.2; q.1.2; q.2]) <$> rejected) in
  Double.maxValid_of (js_add (js_sub (of_Z max) (of_Z min)) (of_Z 1)) = of_Z maxValid
  ∧ (∀ b0 b1 b2 b3 rest,
       SecureRandom.uint32_of_bytes b0 b1 b2 b3 < maxValid →
       Double.secure_randint (of_Z min) (of_Z max)
         (skipped ++ b0 :: b1 :: b2 :: b3 :: rest)
       = Returned
           (of_Z (min + Z.rem (SecureRandom.uint32_of_bytes b0 b1 b2 b3) range))
           rest)
  ∧ (∀ tail, (length tail < 4)%nat →
       Double.secure_randint (of_Z min) (of_Z max) (skipped ++ tail) = Starved).
Proof.
  intros Hord Hle Hmin Hmax range maxValid Hrej skipped. split; [| split].
  - unfold MAX_SAFE_INTEGER in *. change 0xFFFFFFFF with 4294967295 in Hle.
    rewrite js_sub_Z, js_add_Z by lia.
    apply double_maxValid_of; unfold range; lia.
  - intros b0 b1 b2 b3 rest Hv.
    rewrite double_secure_randint, secure_randint_runs by assumption.
    fold range maxValid.
    unfold skipped. rewrite rejection_loop_skips by exact Hrej.
    rewrite rejection_loop_round.
    destruct (Z.geb_spec (SecureRandom.uint32_of_bytes b0 b1 b2 b3) maxValid);
      [lia | reflexivity].
  - intros tail Hlen.
    rewrite double_secure_randint, secure_randint_runs by assumption.
    fold range maxValid.
    unfold skipped. rewrite rejection_loop_skips by exact Hrej.
    destruct tail as [| ? [| ? [| ? [| ? ?]]]]; cbn [length] in Hlen; try lia;
      reflexivity.
Qed.

Lemma secure_randint_first_accepted_witness :
  let range := 6 - 1 + 1 in
  let maxValid := SecureRandom.maxValid_of range in
  let skipped :=
    concat ((λ q : Byte.byte * Byte.byte * Byte.byte * Byte.byte,
               [q.1.1.1; q.1.1.2; q.1.2; q.2])
            <$> [(Byte.xff, Byte.xff, Byte.xff, Byte.xff)]) in
  Double.maxValid_of (js_add (js_sub (of_Z 6) (of_Z 1)) (of_Z 1)) = of_Z maxValid
  ∧ (∀ b0 b1 b2 b3 rest,
       SecureRandom.uint32_of_bytes b0 b1 b2 b3 < maxValid →
       Double.secure_randint (of_Z 1) (of_Z 6)
         (skipped ++ b0 :: b1 :: b2 :: b3 :: rest)
       = Returned
           (of_Z (1 + Z.rem (SecureRandom.uint32_of_bytes b0 b1 b2 b3) range))
           rest)
  ∧ (∀ tail, (length tail < 4)%nat →
       Double.secure_randint (of_Z 1) (of_Z 6) (skipped ++ tail) = Starved).
Proof.
  apply (secure_randint_first_accepted 1 6
           [(Byte.xff, Byte.xff, Byte.xff, Byte.xff)]);
    [lia | lia | vm_compute; discriminate | vm_compute; discriminate |].
  repeat constructor. vm_compute. discriminate.
Defined.

(** ** SecureRandom.choice *)



(** ** shuffle: every arrangement can come out *)

Section ShuffleReach.

Context {T : Type}.
Implicit Types arr tail : list T.





End ShuffleReach.



(** ** sample: every selection can come out *)

Section SampleReach.

Context {T : Type}.
Implicit Types population res : list T.





End SampleReach.


